(** * The 8-puzzle A* solver of [cpp-solver/src/PuzzleSolver.hpp]

    A shallow embedding of [PuzzleSolver] (heuristic, search loop, path
    reconstruction), of the pybind11 adapter of [bindings.cpp] and of
    the command line of [main.cpp], with the properties of the solver
    stated and proved over it.

    Conventions.
    - [std::array<int, 9>] is a [list Z]; an array access outside [0, 9)
      is undefined behaviour in C++ and is an explicit [OutOfBounds]
      fault here.  [std::unordered_map::at] on a missing key throws
      [std::out_of_range]; this is the fault [OutOfRange].
    - [int] values are [Z].  On a valid state every g-score, f-score and
      heuristic value stays in [0, INT_MAX] ([scores_fit_int]), so signed
      overflow never comes into play.  What is stated about arrays that
      are not valid states is stated for entries of magnitude at most
      [VALUE_BOUND], where the same holds ([wide_scores_fit_int]).  [/]
      and [%] are C++ truncating division, [Z.quot] and [Z.rem].
    - [std::unordered_map] and [std::unordered_set] keyed by states are
      stdpp's [gmap] and [gset]: the hash function only decides bucket
      placement, never the result of [count], [at], [find] or [erase].
    - [std::priority_queue<PQElement, ..., std::greater<PQElement>>] is a
      list kept in ascending order of [std::pair]'s lexicographic [<];
      [top] is its head, a least entry ([popped_entry_least]).
    - the two [while] loops take fuel; [None] means the fuel ran out.
    - [std::cout] and [std::cerr] are the strings written to them;
      [operator<<] on an [int] or a [size_t] is stdpp's [pretty], decimal
      with a [-] before a negative number.  [std::stoi] is [strtol] in
      base 10 and the C locale, with the two exceptions of the standard.
    - [ArrayHasher] has no counterpart: with [gmap] and [gset] for the
      hashed containers no result depends on it. *)

From Stdlib Require Import ZArith List Lia Sorted Ascii.
From stdpp Require Import base option list strings pretty pmap gmap sets fin_maps fin_sets.

Open Scope Z_scope.

(** ** Type aliases of the header *)

Abbreviation State := (list Z) (only parsing).
Abbreviation Move := (Z * Z)%type (only parsing).
Abbreviation Path := (list (Z * Z)) (only parsing).
Abbreviation PQElement := (Z * list Z)%type (only parsing).

(** ** Members set by the constructor *)

Definition grid_size_ : Z := 3.
Definition goal_state_ : State := [1; 2; 3; 4; 5; 6; 7; 8; 0].

(** [std::array<int, 9>::size()] *)
Definition state_size : Z := 9.

(** ** Faults *)

Inductive fault : Type :=
| OutOfBounds   (* array access outside [0, 9): undefined behaviour *)
| OutOfRange.   (* unordered_map::at on a missing key *)

(** ** Array operations *)

(** [a[i]] for an [int] index. *)
Definition array_get (a : State) (i : Z) : option Z :=
  if (0 <=? i) && (i <? state_size) then a !! Z.to_nat i else None.

(** [std::swap(a[i], a[j])] on a copy of [a]. *)
Definition array_swap (a : State) (i j : Z) : option State :=
  match array_get a i, array_get a j with
  | Some x, Some y => Some (<[Z.to_nat j := x]> (<[Z.to_nat i := y]> a))
  | _, _ => None
  end.

(** ** [PuzzleSolver::heuristic] *)

(** Body of the [for] loop at index [i] with [num = state[i]]. *)
Definition heuristic_term (i : Z) (num : Z) : Z :=
  if num =? 0 then 0
  else
    let goal_index := num - 1 in
    let current_r := Z.quot i grid_size_ in
    let current_c := Z.rem i grid_size_ in
    let goal_r := Z.quot goal_index grid_size_ in
    let goal_c := Z.rem goal_index grid_size_ in
    Z.abs (current_r - goal_r) + Z.abs (current_c - goal_c).

(** The loop from index [i] on, over the slots not yet read. *)
Fixpoint heuristic_from (i : Z) (rest : list Z) (distance : Z) : Z :=
  match rest with
  | [] => distance
  | num :: rest' => heuristic_from (i + 1) rest' (distance + heuristic_term i num)
  end.

Definition heuristic (state : State) : Z := heuristic_from 0 state 0.

(** ** The blank-locating scan (lines 75-81) *)

Fixpoint find_empty_from (i : Z) (rest : list Z) : Z :=
  match rest with
  | [] => -1
  | x :: rest' => if x =? 0 then i else find_empty_from (i + 1) rest'
  end.

Definition find_empty (current_state : State) : Z := find_empty_from 0 current_state.

(** ** The frontier *)

(** [operator<] of [std::array<int, 9>]: lexicographic. *)
Fixpoint state_ltb (a b : State) : bool :=
  match a, b with
  | x :: a', y :: b' => (x <? y) || ((x =? y) && state_ltb a' b')
  | [], _ :: _ => true
  | _, [] => false
  end.

(** [operator<] of [std::pair<int, State>]. *)
Definition pq_ltb (p q : PQElement) : bool :=
  (p.1 <? q.1) || (negb (q.1 <? p.1) && state_ltb p.2 q.2).

(** [open_heap.push(e)] *)
Fixpoint heap_push (e : PQElement) (h : list PQElement) : list PQElement :=
  match h with
  | [] => [e]
  | x :: h' => if pq_ltb x e then x :: heap_push e h' else e :: h
  end.

(** ** The records of one call *)

Record search : Type := Records {
  open_heap : list PQElement;
  g_score : gmap (list Z) Z;
  came_from : gmap (list Z) (list Z * (Z * Z));
  open_set_hash : gset (list Z)
}.

(** ** [PuzzleSolver::reconstruct_move_path] *)

(** The [while] loop; [total_path] is built by [push_back]. *)
Fixpoint reconstruct_loop (fuel : nat) (cf : gmap (list Z) (list Z * (Z * Z)))
    (current_state : State) (total_path : Path) : option Path :=
  match cf !! current_state with
  | None => Some total_path
  | Some record =>
      match fuel with
      | O => None
      | S fuel' => reconstruct_loop fuel' cf record.1 (total_path ++ [record.2])
      end
  end.

Definition reconstruct_move_path (fuel : nat) (cf : gmap (list Z) (list Z * (Z * Z)))
    (current_state : State) : option Path :=
  reverse <$> reconstruct_loop fuel cf current_state [].

(** ** Neighbour generation and relaxation (lines 87-109) *)

Definition moves : list Move := [(0, 1); (0, -1); (1, 0); (-1, 0)].

(** One pass of the body of the [for] loop over [moves]. *)
Definition visit (current_state : State) (empty_index : Z) (st : search) (move : Move)
    : fault + search :=
  let empty_r := Z.quot empty_index grid_size_ in
  let empty_c := Z.rem empty_index grid_size_ in
  let tile_r := empty_r + move.1 in
  let tile_c := empty_c + move.2 in
  if (0 <=? tile_r) && (tile_r <? grid_size_) && (0 <=? tile_c) && (tile_c <? grid_size_) then
    let tile_index := tile_r * grid_size_ + tile_c in
    match array_swap current_state empty_index tile_index with
    | None => inl OutOfBounds
    | Some neighbor_state =>
        match g_score st !! current_state with
        | None => inl OutOfRange
        | Some g_current =>
            let tentative_g_score := g_current + 1 in
            let improves :=
              match g_score st !! neighbor_state with
              | None => true
              | Some g_neighbor => tentative_g_score <? g_neighbor
              end in
            if improves then
              let cf := <[neighbor_state := (current_state, (tile_r, tile_c))]> (came_from st) in
              let gs := <[neighbor_state := tentative_g_score]> (g_score st) in
              let f_score := tentative_g_score + heuristic neighbor_state in
              if decide (neighbor_state ∈ open_set_hash st) then
                inr (Records (open_heap st) gs cf (open_set_hash st))
              else
                inr (Records (heap_push (f_score, neighbor_state) (open_heap st)) gs cf
                            ({[neighbor_state]} ∪ open_set_hash st))
            else inr st
        end
    end
  else inr st.

(** The [for] loop over the four offsets. *)
Fixpoint expand (current_state : State) (empty_index : Z) (st : search) (ms : list Move)
    : fault + search :=
  match ms with
  | [] => inr st
  | move :: ms' =>
      match visit current_state empty_index st move with
      | inl f => inl f
      | inr st' => expand current_state empty_index st' ms'
      end
  end.

(** ** The search loop (lines 66-110) *)

Inductive result : Type :=
| Returned (r : option Path)
| Faulted (f : fault).

Inductive step_result : Type :=
| Continue (st : search)
| Stop (r : option result).    (* [None]: path reconstruction ran out of fuel *)

(** One iteration of [while (!open_heap.empty())], or the [return] after it. *)
Definition step (fuel : nat) (st : search) : step_result :=
  match open_heap st with
  | [] => Stop (Some (Returned None))
  | top :: rest =>
      let current_state := top.2 in
      let st1 := Records rest (g_score st) (came_from st)
                        (open_set_hash st ∖ {[current_state]}) in
      if decide (current_state = goal_state_) then
        Stop (Returned ∘ Some <$> reconstruct_move_path fuel (came_from st1) current_state)
      else
        let empty_index := find_empty current_state in
        match expand current_state empty_index st1 moves with
        | inl f => Stop (Some (Faulted f))
        | inr st2 => Continue st2
        end
  end.

Fixpoint search_loop (fuel : nat) (n : nat) (st : search) : option result :=
  match step fuel st with
  | Stop r => r
  | Continue st' =>
      match n with
      | O => None
      | S n' => search_loop fuel n' st'
      end
  end.

(** The records after seeding (lines 62-64). *)
Definition seed (initial_state : State) : search :=
  Records (heap_push (heuristic initial_state, initial_state) [])
         (<[initial_state := 0]> ∅) ∅ ({[initial_state]} ∪ ∅).

(** ** [PuzzleSolver::solve_with_a_star] *)

Definition solve_with_a_star (fuel : nat) (initial_state : State) : option result :=
  if decide (initial_state = goal_state_) then Some (Returned (Some []))
  else search_loop fuel fuel (seed initial_state).

(** The call returns [r]: some amount of fuel is enough. *)
Definition returns (initial_state : State) (r : result) : Prop :=
  ∃ fuel, solve_with_a_star fuel initial_state = Some r.

(** ** What a call does, in order *)

Inductive event : Type :=
| Seeded (s : State)      (* lines 62-64: [s] enters the records and the frontier *)
| Popped (s : State)      (* lines 67-69: the top entry leaves the frontier *)
| Expanded (s : State).   (* lines 75-109: the neighbours of [s] are generated *)

(** [search_loop], with the events of its iterations in order. *)
Fixpoint search_loop_logged (fuel : nat) (n : nat) (st : search)
    : list event * option result :=
  match open_heap st with
  | [] => ([], Some (Returned None))
  | top :: rest =>
      let current_state := top.2 in
      let st1 := Records rest (g_score st) (came_from st)
                        (open_set_hash st ∖ {[current_state]}) in
      if decide (current_state = goal_state_) then
        ([Popped current_state],
         Returned ∘ Some <$> reconstruct_move_path fuel (came_from st1) current_state)
      else
        let empty_index := find_empty current_state in
        match expand current_state empty_index st1 moves with
        | inl f => ([Popped current_state; Expanded current_state], Some (Faulted f))
        | inr st2 =>
            match n with
            | O => ([Popped current_state; Expanded current_state], None)
            | S n' =>
                let r := search_loop_logged fuel n' st2 in
                (Popped current_state :: Expanded current_state :: r.1, r.2)
            end
        end
  end.

(** [solve_with_a_star], with the events of the call: the first
    [return] comes before any of them. *)
Definition solve_with_a_star_logged (fuel : nat) (initial_state : State)
    : list event * option result :=
  if decide (initial_state = goal_state_) then ([], Some (Returned (Some [])))
  else
    let r := search_loop_logged fuel fuel (seed initial_state) in
    (Seeded initial_state :: r.1, r.2).

(** ** The pybind11 adapter [cpp_solver.solve] ([bindings.cpp]) *)

Inductive binding_result : Type :=
| Raised (what : string)          (* [throw std::runtime_error(what)] *)
| Passed (r : option result).     (* the value of [solver.solve_with_a_star] *)

(** The lambda, on the [std::vector<int>] pybind11 hands it. *)
Definition binding_solve (fuel : nat) (state_list : list Z) : binding_result :=
  if decide (length state_list ≠ 9%nat) then
    Raised "Input state must contain exactly 9 integers."
  else
    let initial_state := take 9 state_list in   (* [std::copy_n] *)
    Passed (solve_with_a_star fuel initial_state).

(** ** The move graph *)

(** A valid state: the tiles 1..8 and the blank 0, each once. *)
Definition valid_state (s : State) : Prop := s ≡ₚ goal_state_.

Definition in_grid (m : Move) : bool :=
  (0 <=? m.1) && (m.1 <? grid_size_) && (0 <=? m.2) && (m.2 <? grid_size_).

(** Row and column of a slot of the row-major layout. *)
Definition cell_of (i : Z) : Move := (Z.quot i grid_size_, Z.rem i grid_size_).

(** Manhattan distance |Δrow| + |Δcol| of two cells. *)
Definition manhattan (a b : Move) : Z := Z.abs (a.1 - b.1) + Z.abs (a.2 - b.2).

Definition orthogonally_adjacent (a b : Move) : bool := manhattan a b =? 1.

Global Instance valid_state_dec (s : State) : Decision (valid_state s).
Proof. unfold valid_state. apply _. Defined.

(** Replaying one Move: the named cell lies in the grid next to the
    blank's cell, and its tile is swapped with the blank. *)
Definition apply_move (s : State) (m : Move) : option State :=
  let e := find_empty s in
  if in_grid m && orthogonally_adjacent (cell_of e) m
  then array_swap s e (m.1 * grid_size_ + m.2)
  else None.

Fixpoint replay (s : State) (p : Path) : option State :=
  match p with
  | [] => Some s
  | m :: p' =>
      match apply_move s m with
      | Some s' => replay s' p'
      | None => None
      end
  end.

(** The goal is reachable from [s] by legal moves. *)
Definition solvable (s : State) : Prop := ∃ p, replay s p = Some goal_state_.

(** [d] is the length of a shortest Move sequence from [s] to the goal. *)
Definition shortest_distance (s : State) (d : nat) : Prop :=
  (∃ p, replay s p = Some goal_state_ ∧ length p = d) ∧
  ∀ p, replay s p = Some goal_state_ → (d ≤ length p)%nat.

(** The cell named by [move] from the blank at [empty_index] (lines 88-89). *)
Definition tile_cell (empty_index : Z) (move : Move) : Move :=
  (Z.quot empty_index grid_size_ + move.1, Z.rem empty_index grid_size_ + move.2).

(** ** The heuristic as the specification words it *)

(** Slot of the first occurrence of [x] in [s]. *)
Fixpoint index_of (x : Z) (s : State) : Z :=
  match s with
  | [] => 0
  | y :: s' => if y =? x then 0 else 1 + index_of x s'
  end.

Definition sum_list_Z (l : list Z) : Z := foldr Z.add 0 l.

(** The non-blank tiles. *)
Definition tiles : list Z := [1; 2; 3; 4; 5; 6; 7; 8].

(** Sum, over every non-blank tile, of the Manhattan distance between
    the tile's current cell and the cell it occupies in the goal. *)
Definition manhattan_sum (s : State) : Z :=
  sum_list_Z ((λ t, manhattan (cell_of (index_of t s)) (cell_of (index_of t goal_state_)))
              <$> tiles).

(** ** Permutation parity *)

(** Number of entries of [l] below [x], and above it. *)
Definition count_below (x : Z) (l : list Z) : nat := length (filter (λ y, y < x) l).
Definition count_above (x : Z) (l : list Z) : nat := length (filter (λ y, x < y) l).

(** Number of pairs of entries in descending order. *)
Fixpoint inversions (l : list Z) : nat :=
  match l with
  | [] => 0%nat
  | x :: l' => (count_below x l' + inversions l')%nat
  end.

(** The tiles in row-major order, the blank left out. *)
Definition tile_row (s : State) : list Z := filter (λ x, x ≠ 0) s.

(** The parity class of a state: the parity of the permutation of its
    tiles.  On a grid of odd width a move keeps it, so the blank's row
    plays no part.  The goal is in the even class. *)
Definition even_parity (s : State) : bool := Nat.even (inversions (tile_row s)).

(** ** Tables of states that reach a target *)

(** Some sequence of legal moves leads from [s] to a state of [target]. *)
Definition can_reach (target : State → Prop) (s : State) : Prop :=
  ∃ p t, replay s p = Some t ∧ target t.

(** A key for a state: its slots as hexadecimal digits. *)
Definition state_code (s : State) : positive :=
  fold_left (λ acc x, acc * 16 + Z.to_pos (x + 1))%positive s 1%positive.

Definition state_eqb (a b : State) : bool := bool_decide (a = b).

Definition in_table (T : Pmap (list Z)) (s : State) : bool :=
  match T !! state_code s with
  | Some s' => state_eqb s' s
  | None => false
  end.

(** From [s'], already in the table, try the cell [m]: the state [s] it
    leads to is entered if it is one to [keep] and the move back from
    [s] leads to [s']. *)
Definition table_visit (keep : State → bool) (s' : State) (back : Move)
    (acc : Pmap (list Z) * list (list Z)) (m : Move) : Pmap (list Z) * list (list Z) :=
  match apply_move s' m with
  | Some s =>
      if keep s then
        match acc.1 !! state_code s with
        | Some _ => acc
        | None =>
            match apply_move s back with
            | Some s'' =>
                if state_eqb s'' s' then (<[state_code s := s]> acc.1, s :: acc.2) else acc
            | None => acc
            end
        end
      else acc
  | None => acc
  end.

Definition table_expand (keep : State → bool) (acc : Pmap (list Z) * list (list Z))
    (s' : State) : Pmap (list Z) * list (list Z) :=
  let e := find_empty s' in
  fold_left (λ acc move, table_visit keep s' (cell_of e) acc (tile_cell e move)) moves acc.

(** Breadth-first, layer by layer, backwards from the states entered first. *)
Fixpoint table_layers (keep : State → bool) (fuel : nat) (T : Pmap (list Z))
    (frontier : list (list Z)) : Pmap (list Z) :=
  match fuel with
  | O => T
  | S fuel' =>
      match frontier with
      | [] => T
      | _ => let r := fold_left (table_expand keep) frontier (T, []) in
             table_layers keep fuel' r.1 r.2
      end
  end.

Definition table_from (keep : State → bool) (starts : list (list Z)) : Pmap (list Z) :=
  table_layers keep 40 (list_to_map ((λ s, (state_code s, s)) <$> starts)) starts.

(** The first occurrence of [x] taken out of [l]. *)
Fixpoint remove_one (x : Z) (l : list Z) : list Z :=
  match l with
  | [] => []
  | y :: l' => if decide (y = x) then l' else y :: remove_one x l'
  end.

(** [P] on every arrangement of [avail] behind the slots chosen so far. *)
Fixpoint all_arrangements (n : nat) (avail : list Z) (chosen : list Z)
    (P : list Z → bool) : bool :=
  match n with
  | O => P (reverse chosen)
  | S n' =>
      forallb (λ x, all_arrangements n' (remove_one x avail) (x :: chosen) P)
              (remove_dups avail)
  end.

(** *** First stage: the top row *)

(** A state with the tiles 4..8 made alike. *)
Definition abstract (x : Z) : Z := if (0 <=? x) && (x <=? 3) then x else 9.

(** The top row is in place. *)
Definition top_row_done (s : State) : Prop := take 3 s = [1; 2; 3].

Definition top_row_starts : list (list Z) :=
  [ [1; 2; 3; 0; 9; 9; 9; 9; 9]; [1; 2; 3; 9; 0; 9; 9; 9; 9]; [1; 2; 3; 9; 9; 0; 9; 9; 9];
    [1; 2; 3; 9; 9; 9; 0; 9; 9]; [1; 2; 3; 9; 9; 9; 9; 0; 9]; [1; 2; 3; 9; 9; 9; 9; 9; 0] ].

Definition top_row_table : Pmap (list Z) := table_from (λ _, true) top_row_starts.

(** Every arrangement of the blank, 1, 2, 3 and five alike is in [T]. *)
Definition top_row_covered (T : Pmap (list Z)) : bool :=
  all_arrangements 9 (abstract <$> goal_state_) [] (in_table T).

(** *** Second stage: the two rows below, the top row left alone *)

Definition bottom_table : Pmap (list Z) :=
  table_from (λ s, 3 <=? find_empty s) [goal_state_].

(** Every state of the even class with the top row in place is in [T]. *)
Definition bottom_covered (T : Pmap (list Z)) : bool :=
  all_arrangements 6 [4; 5; 6; 7; 8; 0] [3; 2; 1]
    (λ s, implb (even_parity s) (in_table T s)).

(** ** States of the loop *)

(** The records after [k] whole iterations, if the loop runs that long. *)
Fixpoint loop_iter (k : nat) (st : search) : option search :=
  match k with
  | O => Some st
  | S k' =>
      match step 0 st with
      | Continue st' => loop_iter k' st'
      | Stop _ => None
      end
  end.

(** The g-score a frontier entry was pushed with: its f-score less the
    heuristic of its state. *)
Definition recorded_g (e : PQElement) : Z := e.1 - heuristic e.2.

(** The entry's g-score is no longer the newest one of its state. *)
Definition stale (st : search) (e : PQElement) : Prop :=
  g_score st !! e.2 ≠ Some (recorded_g e).

(** The records once the top entry is popped and nothing else is done. *)
Definition popped (st : search) (top : PQElement) (rest : list PQElement) : search :=
  Records rest (g_score st) (came_from st) (open_set_hash st ∖ {[top.2]}).

(** The states the loop can be in. *)
Inductive loop_state (initial : State) : search → Prop :=
| loop_seed : loop_state initial (seed initial)
| loop_next fuel st st' :
    loop_state initial st → step fuel st = Continue st' → loop_state initial st'.

(** ** The loop invariant *)

(** Every state in the frontier has a g-score: all that [g_score.at]
    needs, on any input. *)
Definition frontier_scored (st : search) : Prop :=
  ∀ e, e ∈ open_heap st → is_Some (g_score st !! e.2).

(** What one pass of the loop body over [move] does to the records. *)
Inductive visit_spec (cur : State) (st : search) (move : Move) : search → Prop :=
| visit_off_grid :
    in_grid (tile_cell (find_empty cur) move) = false →
    visit_spec cur st move st
| visit_keep n gc gn :
    apply_move cur (tile_cell (find_empty cur) move) = Some n →
    g_score st !! cur = Some gc →
    g_score st !! n = Some gn →
    gn <= gc + 1 →
    visit_spec cur st move st
| visit_update n gc :
    apply_move cur (tile_cell (find_empty cur) move) = Some n →
    g_score st !! cur = Some gc →
    (∀ gn, g_score st !! n = Some gn → gc + 1 < gn) →
    n ∈ open_set_hash st →
    visit_spec cur st move
      (Records (open_heap st)
              (<[n := gc + 1]> (g_score st))
              (<[n := (cur, tile_cell (find_empty cur) move)]> (came_from st))
              (open_set_hash st))
| visit_push n gc :
    apply_move cur (tile_cell (find_empty cur) move) = Some n →
    g_score st !! cur = Some gc →
    (∀ gn, g_score st !! n = Some gn → gc + 1 < gn) →
    n ∉ open_set_hash st →
    visit_spec cur st move
      (Records (heap_push (gc + 1 + heuristic n, n) (open_heap st))
              (<[n := gc + 1]> (g_score st))
              (<[n := (cur, tile_cell (find_empty cur) move)]> (came_from st))
              ({[n]} ∪ open_set_hash st)).

(** The records of a call on [initial], at the head of the loop and
    between two passes of the [for] loop. *)
Record search_inv (initial : State) (st : search) : Prop := {
  inv_initial_g : g_score st !! initial = Some 0;
  inv_initial_cf : came_from st !! initial = None;
  inv_valid : ∀ s g, g_score st !! s = Some g → valid_state s ∧ 0 <= g;
  inv_link : ∀ n p m, came_from st !! n = Some (p, m) →
    ∃ gn gp, g_score st !! n = Some gn ∧ g_score st !! p = Some gp
             ∧ gp + 1 <= gn ∧ apply_move p m = Some n;
  inv_parent : ∀ s, is_Some (g_score st !! s) → s ≠ initial →
    is_Some (came_from st !! s);
  inv_open : ∀ s, s ∈ open_set_hash st ↔ s ∈ (open_heap st).*2;
  inv_nodup : NoDup (open_heap st).*2;
  inv_open_g : ∀ s, s ∈ open_set_hash st → is_Some (g_score st !! s)
}.

(** Every state outside the frontier, [exempt] apart, has been expanded:
    it is not the goal and its neighbours all have a g-score. *)
Definition closed_inv (exempt : option State) (st : search) : Prop :=
  ∀ s, is_Some (g_score st !! s) → s ∉ open_set_hash st → Some s ≠ exempt →
    s ≠ goal_state_ ∧ ∀ m n, apply_move s m = Some n → is_Some (g_score st !! n).

(** The [for] loop over the offsets [ms], pass by pass. *)
Inductive expand_spec (cur : State) : search → list Move → search → Prop :=
| expand_nil st : expand_spec cur st [] st
| expand_cons st st1 st2 move ms :
    visit_spec cur st move st1 → expand_spec cur st1 ms st2 →
    expand_spec cur st (move :: ms) st2.

(** ** The range of [int] *)

Definition INT_MAX : Z := 2147483647.

(** The number of valid states, 9!. *)
Definition state_count : Z := 362880.

(** Every g-score is below the number of scored states, and every
    f-score in the frontier is a g-score of that kind plus a heuristic
    value. *)
Definition score_inv (st : search) : Prop :=
  (∀ s g, g_score st !! s = Some g → g < Z.of_nat (size (g_score st)))
  ∧ (∀ e, e ∈ open_heap st → 0 <= e.1 <= state_count + 36).

(** ** The termination measure *)

(** Sum of the recorded g-scores. *)
Definition g_total (g : gmap (list Z) Z) : nat :=
  map_fold (λ _ x acc, (Z.to_nat x + acc)%nat) 0%nat g.

Section Measure.
(** A finite set holding every valid state. *)
Variable universe : gset (list Z).

(** States of the universe without a g-score yet. *)
Definition unseen (st : search) : nat := size (universe ∖ dom (g_score st)).

(** [st'] is [st], or is below it in the order on (unseen, g_total). *)
Definition progress (st' st : search) : Prop :=
  st' = st ∨ (unseen st' < unseen st)%nat
  ∨ (unseen st' = unseen st ∧ g_total (g_score st') < g_total (g_score st))%nat.

(** The order on (unseen, g_total, frontier size) that every iteration
    of the search loop goes down in. *)
Definition measure_lt (st' st : search) : Prop :=
  (unseen st' < unseen st)%nat
  ∨ (unseen st' = unseen st ∧ g_total (g_score st') < g_total (g_score st))%nat
  ∨ (unseen st' = unseen st ∧ g_total (g_score st') = g_total (g_score st)
     ∧ length (open_heap st') < length (open_heap st))%nat.
End Measure.

(** ** Paths as sequences of states *)

(** The states a Path goes through from [s], [s] first; it stops at a
    Move that cannot be replayed. *)
Fixpoint trace (s : State) (p : Path) : list State :=
  s :: match p with
       | [] => []
       | m :: p' =>
           match apply_move s m with
           | Some s' => trace s' p'
           | None => []
           end
       end.

(** ** Inputs that are not permutations *)

(** Nine slots, one of them blank. *)
Definition has_blank (s : State) : Prop := length s = 9%nat ∧ 0 ∈ s.

(** Every state in the frontier is of that kind. *)
Definition frontier_blank (st : search) : Prop :=
  ∀ e, e ∈ open_heap st → has_blank e.2.

(** The magnitude up to which the entries of an input are followed:
    with entries of that size no [int] of the search overflows. *)
Definition VALUE_BOUND : Z := 100000000.

(** Nine integers of magnitude at most [VALUE_BOUND]. *)
Definition small_state (s : State) : Prop :=
  length s = 9%nat ∧ Forall (λ x, - VALUE_BOUND <= x <= VALUE_BOUND) s.

(** The largest heuristic value of such an array. *)
Definition HEURISTIC_BOUND : Z := 9 * (VALUE_BOUND + 7).

(** The records of a call on an array [initial] that need not be a
    permutation of 0..8: the scored states are arrangements of
    [initial], each g-score is below the number of scored states, and
    every frontier entry has a g-score and a bounded f-score. *)
Record wide_inv (initial : State) (st : search) : Prop := {
  wide_keys : ∀ s g, g_score st !! s = Some g →
    s ≡ₚ initial ∧ 0 <= g < Z.of_nat (size (g_score st));
  wide_heap : ∀ e, e ∈ open_heap st →
    is_Some (g_score st !! e.2) ∧ 0 <= e.1 <= state_count + HEURISTIC_BOUND
}.

(** ** The command line of [main.cpp] *)

(** The character [std::endl] writes. *)
Definition endl : string := String "010"%char EmptyString.

Definition INT_MIN : Z := -2147483648.

(** What [std::stoi] throws. *)
Inductive stoi_error : Type :=
| invalid_argument    (* no conversion could be performed *)
| out_of_range.       (* the value read does not fit an [int] *)

(** The white space [strtol] skips: [std::isspace] in the C locale. *)
Fixpoint skip_space (s : string) : string :=
  match s with
  | String c s' => if Ascii.is_space c then skip_space s' else s
  | EmptyString => EmptyString
  end.

(** The decimal digits at the head of [s], read onto [acc]; [None] as
    long as no digit has been read. *)
Fixpoint read_digits (s : string) (acc : option Z) : option Z :=
  match s with
  | String c s' =>
      match Ascii.is_nat c with
      | Some d => read_digits s' (Some (default 0 acc * 10 + Z.of_nat d))
      | None => acc
      end
  | EmptyString => acc
  end.

(** An optional sign and the digits after it, as [strtol] reads them
    in base 10; what follows the digits is ignored. *)
Definition read_int (s : string) : option Z :=
  let signed :=
    match s with
    | String "-"%char s' => (true, s')
    | String "+"%char s' => (false, s')
    | _ => (false, s)
    end in
  (λ n, if signed.1 : bool then - n else n) <$> read_digits signed.2 None.

(** [std::stoi(str)]: the value, or the exception. *)
Definition stoi (str : string) : stoi_error + Z :=
  match read_int (skip_space str) with
  | None => inl invalid_argument
  | Some v => if (INT_MIN <=? v) && (v <=? INT_MAX) then inr v else inl out_of_range
  end.

(** The [for] loop of [main] over [argv[1]], ..., [argv[9]]: the first
    exception ends it. *)
Fixpoint read_tiles (args : list string) : stoi_error + State :=
  match args with
  | [] => inr []
  | a :: args' =>
      match stoi a with
      | inl e => inl e
      | inr v =>
          match read_tiles args' with
          | inl e => inl e
          | inr vs => inr (v :: vs)
          end
      end
  end.

(** [operator<<] on one Move, as [print_path] writes it. *)
Definition show_move (m : Move) : string :=
  "(" +:+ pretty m.1 +:+ ", " +:+ pretty m.2 +:+ ")".

(** [SIZE_MAX], for a [size_t] of 64 bits. *)
Definition SIZE_MAX : Z := 18446744073709551615.

(** The [for] loop of [print_path] from index [i] on, [size] being
    [path.size()].  [path.size() - 1] is computed in [size_t]: on the
    empty Path it wraps around. *)
Fixpoint print_moves (size : nat) (i : nat) (rest : Path) : string :=
  match rest with
  | [] => EmptyString
  | m :: rest' =>
      let last := if decide (size = 0%nat) then SIZE_MAX else Z.of_nat size - 1 in
      show_move m +:+ (if Z.of_nat i <? last then ", " else EmptyString)
      +:+ print_moves size (S i) rest'
  end.

(** What [print_path] writes to [std::cout]. *)
Definition print_path (path : Path) : string :=
  "Solution Path (list of moves (row, col)):" +:+ endl
  +:+ "[" +:+ print_moves (length path) 0 path +:+ "]" +:+ endl.

(** How a run of [main] ends. *)
Inductive run : Type :=
| Exit (status : Z) (out err : string)   (* [return status], with what was written *)
| Terminated                             (* an exception left [main] *)
| Undefined.                             (* an array access outside [0, 9) *)

Definition usage (prog : string) : string :=
  "Usage: " +:+ prog +:+ " <t1> <t2> ... <t9>" +:+ endl
  +:+ "Provide the 9 tile numbers (use 0 for empty space)." +:+ endl
  +:+ "Example: " +:+ prog +:+ " 1 2 3 4 5 6 0 7 8" +:+ endl.

(** [main], on [argv[0] = prog] and the arguments after it. *)
Definition main (fuel : nat) (prog : string) (args : list string) : option run :=
  if decide (S (length args) ≠ 10%nat) then Some (Exit 1 EmptyString (usage prog))
  else
    match read_tiles args with
    | inl _ =>
        Some (Exit 1 EmptyString
                ("Error: Invalid number provided. Please provide only integers." +:+ endl))
    | inr initial_state =>
        let out := "Solving puzzle..." +:+ endl in
        match solve_with_a_star fuel initial_state with
        | None => None
        | Some (Faulted OutOfBounds) => Some Undefined
        | Some (Faulted OutOfRange) => Some Terminated
        | Some (Returned (Some solution)) =>
            Some (Exit 0 (out +:+ "Solution found in " +:+ pretty (length solution)
                          +:+ " moves." +:+ endl +:+ print_path solution) EmptyString)
        | Some (Returned None) =>
            Some (Exit 0 (out +:+ "No solution could be found for the given puzzle." +:+ endl)
                    EmptyString)
        end
    end.


(** No digit at the head of [s]. *)
Definition no_digit_ahead (s : string) : Prop :=
  match s with
  | String c _ => Ascii.is_nat c = None
  | EmptyString => True
  end.

(** * Properties *)

(** ** Arrays and valid states *)

Lemma valid_length (s : State) : valid_state s → length s = 9%nat.
Proof. intros H. unfold valid_state in H. by rewrite H. Qed.

Lemma valid_has_blank (s : State) : valid_state s → 0 ∈ s.
Proof.
  intros H. unfold valid_state in H. rewrite H. unfold goal_state_.
  set_solver.
Qed.

Lemma find_empty_from_found (rest : list Z) (i : Z) :
  0 ∈ rest →
  ∃ k : nat, find_empty_from i rest = i + Z.of_nat k ∧ rest !! k = Some 0
             ∧ (k < length rest)%nat.
Proof.
  revert i. induction rest as [|x rest IH]; intros i Hin.
  - by apply elem_of_nil in Hin.
  - simpl. destruct (Z.eqb_spec x 0) as [->|Hx].
    + exists 0%nat. split; [lia|]. split; [done|]. simpl. lia.
    + apply elem_of_cons in Hin as [Hin|Hin]; [congruence|].
      destruct (IH (i + 1) Hin) as (k & Hk & Hl & Hlen).
      exists (S k). split; [lia|]. split; [done|]. simpl. lia.
Qed.

Lemma find_empty_from_missing (rest : list Z) (i : Z) :
  0 ∉ rest → find_empty_from i rest = -1.
Proof.
  revert i. induction rest as [|x rest IH]; intros i Hin; [done|].
  simpl. apply not_elem_of_cons in Hin as [Hx Hin].
  destruct (Z.eqb_spec x 0); [congruence|]. by apply IH.
Qed.

Lemma find_empty_valid (s : State) :
  valid_state s →
  0 <= find_empty s < 9 ∧ s !! Z.to_nat (find_empty s) = Some 0.
Proof.
  intros Hv. pose proof (valid_length s Hv) as Hlen.
  destruct (find_empty_from_found s 0 (valid_has_blank s Hv)) as (k & Hk & Hl & Hlt).
  unfold find_empty. rewrite Hk. split; [lia|].
  by replace (Z.to_nat (0 + Z.of_nat k)) with k by lia.
Qed.

Lemma array_get_Some (a : State) (i : Z) :
  length a = 9%nat → 0 <= i < 9 → is_Some (array_get a i).
Proof.
  intros Hlen Hi. unfold array_get, state_size.
  assert ((0 <=? i) && (i <? 9) = true) as -> by lia.
  apply lookup_lt_is_Some. lia.
Qed.

Lemma array_swap_valid (a a' : State) (i j : Z) :
  valid_state a → array_swap a i j = Some a' → valid_state a'.
Proof.
  unfold array_swap, array_get, valid_state. intros Hv Hs.
  destruct ((0 <=? i) && (i <? state_size)); [|done].
  destruct (a !! Z.to_nat i) as [x|] eqn:Hx; [|done].
  destruct ((0 <=? j) && (j <? state_size)); [|done].
  destruct (a !! Z.to_nat j) as [y|] eqn:Hy; [|done].
  injection Hs as <-. by rewrite Permutation_insert_swap.
Qed.

Lemma tile_index_bounds (e : Z) (move : Move) :
  0 <= e < 9 → in_grid (tile_cell e move) = true →
  0 <= (tile_cell e move).1 * grid_size_ + (tile_cell e move).2 < 9.
Proof.
  unfold in_grid, tile_cell, grid_size_. simpl. intros He Hg. lia.
Qed.

Lemma moves_adjacent (e : Z) (move : Move) :
  move ∈ moves → orthogonally_adjacent (cell_of e) (tile_cell e move) = true.
Proof.
  unfold moves. intros Hm. unfold orthogonally_adjacent, manhattan, cell_of, tile_cell. simpl.
  repeat (apply elem_of_cons in Hm as [->|Hm]; [simpl; lia|]).
  by apply elem_of_nil in Hm.
Qed.

Lemma adjacent_is_move (e : Z) (m : Move) :
  orthogonally_adjacent (cell_of e) m = true →
  ∃ move, move ∈ moves ∧ m = tile_cell e move.
Proof.
  destruct m as [r c]. unfold orthogonally_adjacent, manhattan, cell_of, tile_cell. simpl.
  intros H.
  exists (r - Z.quot e grid_size_, c - Z.rem e grid_size_). split.
  - unfold moves.
    assert (Hc : (r - Z.quot e grid_size_ = 0 ∧ c - Z.rem e grid_size_ = 1) ∨
                 (r - Z.quot e grid_size_ = 0 ∧ c - Z.rem e grid_size_ = -1) ∨
                 (r - Z.quot e grid_size_ = 1 ∧ c - Z.rem e grid_size_ = 0) ∨
                 (r - Z.quot e grid_size_ = -1 ∧ c - Z.rem e grid_size_ = 0)) by lia.
    destruct Hc as [[-> ->]|[[-> ->]|[[-> ->]|[-> ->]]]]; set_solver.
  - simpl. f_equal; lia.
Qed.

Lemma apply_move_valid (s s' : State) (m : Move) :
  valid_state s → apply_move s m = Some s' → valid_state s'.
Proof.
  unfold apply_move. intros Hv H.
  destruct (in_grid m && _); [|done]. by eapply array_swap_valid.
Qed.

Lemma apply_move_tile (s : State) (move : Move) :
  move ∈ moves → in_grid (tile_cell (find_empty s) move) = true →
  apply_move s (tile_cell (find_empty s) move)
  = array_swap s (find_empty s)
      ((tile_cell (find_empty s) move).1 * grid_size_ + (tile_cell (find_empty s) move).2).
Proof.
  intros Hm Hg. unfold apply_move. by rewrite Hg, moves_adjacent.
Qed.

Lemma apply_move_defined (s : State) (move : Move) :
  valid_state s → move ∈ moves → in_grid (tile_cell (find_empty s) move) = true →
  is_Some (apply_move s (tile_cell (find_empty s) move)).
Proof.
  intros Hv Hm Hg. rewrite apply_move_tile by done.
  destruct (find_empty_valid s Hv) as [He _].
  pose proof (tile_index_bounds _ _ He Hg) as Ht.
  pose proof (valid_length s Hv) as Hlen.
  unfold array_swap.
  destruct (array_get_Some s _ Hlen He) as [x ->].
  destruct (array_get_Some s _ Hlen Ht) as [y ->]. done.
Qed.

(** ** One pass of the loop body *)

Lemma visit_sound (cur : State) (st : search) (move : Move) (gc : Z) :
  valid_state cur → move ∈ moves → g_score st !! cur = Some gc →
  ∃ st', visit cur (find_empty cur) st move = inr st' ∧ visit_spec cur st move st'.
Proof.
  intros Hv Hm Hg. unfold visit.
  change (Z.quot (find_empty cur) grid_size_ + move.1) with (tile_cell (find_empty cur) move).1.
  change (Z.rem (find_empty cur) grid_size_ + move.2) with (tile_cell (find_empty cur) move).2.
  set (tile := tile_cell (find_empty cur) move).
  change ((0 <=? tile.1) && (tile.1 <? grid_size_) && (0 <=? tile.2) && (tile.2 <? grid_size_))
    with (in_grid tile).
  destruct (in_grid tile) eqn:Hgrid; cbv zeta.
  - destruct (apply_move_defined cur move Hv Hm Hgrid) as [n Hn].
    pose proof Hn as Hn'. rewrite apply_move_tile in Hn' by done.
    fold tile in Hn'. rewrite Hn', Hg.
    assert (Htile : (tile.1, tile.2) = tile) by by destruct tile.
    rewrite Htile.
    destruct (g_score st !! n) as [gn|] eqn:Hgn.
    + destruct (Z.ltb_spec (gc + 1) gn) as [Hlt|Hge].
      * case_decide.
        -- eexists; split; [done|]. eapply visit_update; eauto.
           intros ? ?. simplify_eq. lia.
        -- eexists; split; [done|]. eapply visit_push; eauto.
           intros ? ?. simplify_eq. lia.
      * eexists; split; [done|]. eapply visit_keep; eauto.
    + case_decide.
      * eexists; split; [done|]. eapply visit_update; eauto. intros ? ?. simplify_eq.
      * eexists; split; [done|]. eapply visit_push; eauto. intros ? ?. simplify_eq.
  - eexists; split; [done|]. by apply visit_off_grid.
Qed.

Lemma heap_push_Permutation (e : PQElement) (h : list PQElement) :
  heap_push e h ≡ₚ e :: h.
Proof.
  induction h as [|x h IH]; simpl; [done|].
  destruct (pq_ltb x e); [|done]. rewrite IH. apply Permutation_swap.
Qed.

(** ** The frontier is a priority queue *)

Lemma state_ltb_irrefl (a : State) : state_ltb a a = false.
Proof. induction a as [|x a IH]; simpl; [done|]. rewrite IH. lia. Qed.

Lemma state_ltb_trans (a b c : State) :
  state_ltb a b = true → state_ltb b c = true → state_ltb a c = true.
Proof.
  revert b c. induction a as [|x a IH]; intros [|y b] [|z c]; simpl; try done.
  intros Hab Hbc.
  destruct (Z.ltb_spec x y), (Z.ltb_spec y z), (Z.ltb_spec x z),
           (Z.eqb_spec x y), (Z.eqb_spec y z), (Z.eqb_spec x z);
    simpl in *; try done; try lia.
  by apply (IH b c).
Qed.

Lemma state_ltb_total (a b : State) :
  state_ltb a b = false → state_ltb b a = false → a = b.
Proof.
  revert b. induction a as [|x a IH]; intros [|y b]; simpl; try done.
  intros Hab Hba.
  destruct (Z.ltb_spec x y), (Z.ltb_spec y x), (Z.eqb_spec x y), (Z.eqb_spec y x);
    simpl in *; try done; try lia.
  subst. f_equal. by apply IH.
Qed.

Lemma pq_ltb_trans (p q r : PQElement) :
  pq_ltb p q = true → pq_ltb q r = true → pq_ltb p r = true.
Proof.
  unfold pq_ltb. intros Hpq Hqr.
  destruct (Z.ltb_spec p.1 q.1), (Z.ltb_spec q.1 p.1), (Z.ltb_spec q.1 r.1),
           (Z.ltb_spec r.1 q.1), (Z.ltb_spec p.1 r.1), (Z.ltb_spec r.1 p.1);
    simpl in *; try done; try lia.
  by apply (state_ltb_trans _ q.2).
Qed.

Lemma pq_ltb_total (p q : PQElement) :
  pq_ltb p q = false → pq_ltb q p = false → p = q.
Proof.
  unfold pq_ltb. destruct p as [f a], q as [g b]. simpl. intros Hpq Hqp.
  destruct (Z.ltb_spec f g), (Z.ltb_spec g f); simpl in *; try done; try lia.
  assert (f = g) as -> by lia. f_equal. by apply state_ltb_total.
Qed.

Lemma pq_ltb_irrefl (p : PQElement) : pq_ltb p p = false.
Proof. unfold pq_ltb. rewrite state_ltb_irrefl. lia. Qed.

(** "Not above", the order the queue is kept in, is transitive. *)
Lemma pq_le_trans (p q r : PQElement) :
  pq_ltb q p = false → pq_ltb r q = false → pq_ltb r p = false.
Proof.
  intros Hqp Hrq. destruct (pq_ltb r p) eqn:Hrp; [|done].
  destruct (pq_ltb p q) eqn:Hpq.
  - by rewrite (pq_ltb_trans r p q) in Hrq.
  - assert (p = q) as -> by by apply pq_ltb_total. congruence.
Qed.

(** Pushing keeps the list in ascending order. *)
Lemma heap_push_sorted (e : PQElement) (h : list PQElement) :
  StronglySorted (λ a b, pq_ltb b a = false) h →
  StronglySorted (λ a b, pq_ltb b a = false) (heap_push e h).
Proof.
  induction 1 as [|x h Hs IH Hx]; simpl; [by repeat constructor|].
  destruct (pq_ltb x e) eqn:Hxe.
  - constructor; [done|]. rewrite heap_push_Permutation. constructor; [|done].
    destruct (pq_ltb e x) eqn:Hex; [|done].
    pose proof (pq_ltb_trans x e x Hxe Hex) as Hxx. by rewrite pq_ltb_irrefl in Hxx.
  - constructor; [by constructor|]. constructor; [done|].
    eapply Forall_impl; [exact Hx|]. intros y Hy. simpl in Hy.
    by apply (pq_le_trans e x y).
Qed.

(** The facts shared by the two updating cases of [visit_spec]. *)
Lemma improve_facts (initial cur n : State) (m : Move) (st : search) (gc : Z) :
  search_inv initial st →
  apply_move cur m = Some n →
  g_score st !! cur = Some gc →
  (∀ gn, g_score st !! n = Some gn → gc + 1 < gn) →
  n ≠ initial ∧ n ≠ cur ∧ valid_state n ∧ 0 <= gc.
Proof.
  intros Hinv Hn Hgc Himp.
  destruct (inv_valid _ _ Hinv cur gc Hgc) as [Hvc Hgc0].
  repeat split; [| |by eapply apply_move_valid|done].
  - intros ->. specialize (Himp 0 (inv_initial_g _ _ Hinv)). lia.
  - intros ->. specialize (Himp gc Hgc). lia.
Qed.

Lemma improve_maps_inv (initial cur n : State) (m : Move) (st : search) (gc : Z)
    (h : list PQElement) (o : gset (list Z)) :
  search_inv initial st →
  apply_move cur m = Some n →
  g_score st !! cur = Some gc →
  (∀ gn, g_score st !! n = Some gn → gc + 1 < gn) →
  (∀ s, s ∈ o ↔ s ∈ h.*2) → NoDup h.*2 →
  (∀ s, s ∈ o → s = n ∨ s ∈ open_set_hash st) →
  search_inv initial
    (Records h (<[n := gc + 1]> (g_score st)) (<[n := (cur, m)]> (came_from st)) o).
Proof.
  intros Hinv Hn Hgc Himp Ho Hnd Hsub.
  destruct (improve_facts _ _ _ _ _ _ Hinv Hn Hgc Himp) as (Hni & Hnc & Hvn & Hgc0).
  split; simpl.
  - rewrite lookup_insert_ne by done. apply Hinv.
  - rewrite lookup_insert_ne by done. apply Hinv.
  - intros s g. rewrite lookup_insert. case_decide as Hs.
    + intros [= <-]. subst s. split; [done|lia].
    + apply Hinv.
  - intros n' p m'. rewrite lookup_insert. case_decide as Hs.
    + intros [= <- <-]. subst n'. exists (gc + 1), gc.
      rewrite lookup_insert_eq, lookup_insert_ne by done. split_and!; [done|done|lia|done].
    + intros Hl. destruct (inv_link _ _ Hinv _ _ _ Hl) as (gn & gp & Hgn & Hgp & Hle & Hap).
      rewrite lookup_insert_ne by done.
      destruct (decide (n = p)) as [->|Hp].
      * exists gn, (gc + 1). rewrite lookup_insert_eq.
        specialize (Himp gp Hgp). split_and!; [done|done|lia|done].
      * exists gn, gp. rewrite lookup_insert_ne by done. done.
  - intros s. rewrite !lookup_insert. case_decide as Hs; [eauto|].
    intros Hs1 Hs2. by apply Hinv.
  - done.
  - done.
  - intros s Hs. rewrite lookup_insert. case_decide; [eauto|].
    destruct (Hsub s Hs) as [->|Hs']; [done|]. by apply Hinv.
Qed.

Lemma visit_spec_inv (initial cur : State) (st st' : search) (move : Move) :
  search_inv initial st → visit_spec cur st move st' → search_inv initial st'.
Proof.
  intros Hinv Hv. destruct Hv as [Hg|n gc gn Hn Hgc Hgn Hle|n gc Hn Hgc Himp Ho|n gc Hn Hgc Himp Ho];
    [done|done| |].
  - eapply improve_maps_inv; eauto; [apply Hinv|apply Hinv].
  - eapply improve_maps_inv; eauto.
    + intros s. rewrite heap_push_Permutation. simpl.
      rewrite elem_of_cons, elem_of_union, elem_of_singleton, (inv_open _ _ Hinv). done.
    + rewrite heap_push_Permutation. simpl. apply NoDup_cons. split; [|apply Hinv].
      by rewrite <-(inv_open _ _ Hinv).
    + intros s. rewrite elem_of_union, elem_of_singleton. done.
Qed.

(** The g-scores only gain keys, the frontier only gains states. *)
Lemma visit_spec_mono (cur : State) (st st' : search) (move : Move) :
  visit_spec cur st move st' →
  (∀ s, is_Some (g_score st !! s) → is_Some (g_score st' !! s)) ∧
  (∀ s, s ∈ open_set_hash st → s ∈ open_set_hash st').
Proof.
  intros Hv. destruct Hv; simpl; (split; [|set_solver]); try done;
    intros s Hs; rewrite lookup_insert; case_decide; eauto.
Qed.

(** After the pass over [move], the cell it names has a g-score. *)
Lemma visit_spec_covers (cur n : State) (st st' : search) (move : Move) :
  visit_spec cur st move st' →
  apply_move cur (tile_cell (find_empty cur) move) = Some n →
  is_Some (g_score st' !! n).
Proof.
  intros Hv Hn. destruct Hv as [Hg|n' gc gn Hn' Hgc Hgn Hle|n' gc Hn' Hgc Himp Ho|n' gc Hn' Hgc Himp Ho];
    simpl.
  - unfold apply_move in Hn. rewrite Hg in Hn. done.
  - simplify_eq. eauto.
  - simplify_eq. rewrite lookup_insert_eq. eauto.
  - simplify_eq. rewrite lookup_insert_eq. eauto.
Qed.

Lemma visit_spec_closed (initial cur : State) (st st' : search) (move : Move) :
  search_inv initial st →
  visit_spec cur st move st' → closed_inv (Some cur) st → closed_inv (Some cur) st'.
Proof.
  intros Hinv Hv Hc.
  destruct (visit_spec_mono _ _ _ _ Hv) as [Hg Ho].
  intros s Hs Hopen Hex.
  assert (Hs' : is_Some (g_score st !! s)).
  { destruct Hv as [?|? ? ? ? ? ? ?|n gc Hn Hgc Himp Hon|n gc Hn Hgc Himp Hon]; simpl in *;
      try done.
    - rewrite lookup_insert in Hs. case_decide; [by subst|done].
    - rewrite lookup_insert in Hs. case_decide; [subst; set_solver|done]. }
  destruct (Hc s Hs' (λ H, Hopen (Ho s H)) Hex) as [Hgoal Hnb].
  split; [done|]. intros m n Hn. eauto.
Qed.

(** ** The measure goes down *)

Lemma g_total_insert (g : gmap (list Z) Z) (s : State) (x : Z) :
  g !! s = None → g_total (<[s := x]> g) = (Z.to_nat x + g_total g)%nat.
Proof.
  intros H. unfold g_total. rewrite map_fold_insert_L; [done| |done].
  intros. lia.
Qed.

Lemma g_total_update (g : gmap (list Z) Z) (s : State) (x y : Z) :
  g !! s = Some y → 0 <= x < y → (g_total (<[s := x]> g) < g_total g)%nat.
Proof.
  intros H Hxy.
  rewrite <-(insert_delete_eq g s x).
  rewrite <-(insert_delete_id g s y) at 2 by done.
  rewrite !g_total_insert by apply lookup_delete_eq. lia.
Qed.

Lemma expand_sound (cur : State) (st : search) (ms : list Move) (initial : State) :
  valid_state cur → (∀ m, m ∈ ms → m ∈ moves) →
  search_inv initial st → is_Some (g_score st !! cur) →
  ∃ st', expand cur (find_empty cur) st ms = inr st' ∧ expand_spec cur st ms st'.
Proof.
  intros Hv. revert st. induction ms as [|move ms IH]; intros st Hms Hinv [gc Hgc]; simpl.
  - eexists; split; [done|constructor].
  - destruct (visit_sound cur st move gc Hv) as (st1 & -> & Hspec); [set_solver|done|].
    destruct (IH st1) as (st2 & -> & Hspec2).
    + set_solver.
    + by eapply visit_spec_inv.
    + by apply (visit_spec_mono _ _ _ _ Hspec).
    + eexists; split; [done|]. by econstructor.
Qed.

(** The records right after [open_heap.pop()] and [open_set_hash.erase]. *)
Lemma pop_inv (initial : State) (st : search) (top : PQElement) (rest : list PQElement) :
  search_inv initial st → closed_inv None st → open_heap st = top :: rest →
  let st1 := popped st top rest in
  search_inv initial st1 ∧ closed_inv (Some top.2) st1
  ∧ valid_state top.2 ∧ is_Some (g_score st !! top.2).
Proof.
  intros Hinv Hc Hheap st1.
  pose proof (inv_nodup _ _ Hinv) as Hnd. rewrite Hheap in Hnd. simpl in Hnd.
  apply NoDup_cons in Hnd as [Hnotin Hnd].
  assert (Hopen : ∀ s, s ∈ open_set_hash st ↔ s = top.2 ∨ s ∈ rest.*2).
  { intros s. rewrite (inv_open _ _ Hinv), Hheap. simpl. apply elem_of_cons. }
  assert (Hg : is_Some (g_score st !! top.2)).
  { apply (inv_open_g _ _ Hinv), Hopen. by left. }
  split_and!; [|
    |destruct Hg as [g Hg]; by apply (inv_valid _ _ Hinv _ g)|done].
  - split; simpl; try apply Hinv.
    + intros s. rewrite elem_of_difference, elem_of_singleton, Hopen.
      split; [intros [[?|?] ?]; [done|done]|]. intros Hs. split; [by right|].
      intros ->. done.
    + done.
    + intros s [Hs _]%elem_of_difference. by apply Hinv.
  - intros s Hs Hopen' Hex. apply (Hc s Hs); [|done].
    intros Hin. apply Hopen'. simpl. apply elem_of_difference. split; [done|].
    rewrite elem_of_singleton. intros ->. done.
Qed.

Section Progress.
Variable universe : gset (list Z).
Hypothesis universe_valid : ∀ s, valid_state s → s ∈ universe.

Lemma progress_trans (st1 st2 st3 : search) :
  progress universe st3 st2 → progress universe st2 st1 → progress universe st3 st1.
Proof. unfold progress. intros [->|H32] [->|H21]; [auto..|]. right. lia. Qed.

Lemma visit_spec_progress (initial cur : State) (st st' : search) (move : Move) :
  search_inv initial st → visit_spec cur st move st' → progress universe st' st.
Proof.
  intros Hinv Hv.
  assert (Himp : ∀ n gc h o m, apply_move cur m = Some n → g_score st !! cur = Some gc →
            (∀ gn, g_score st !! n = Some gn → gc + 1 < gn) →
            progress universe
              (Records h (<[n := gc + 1]> (g_score st)) (<[n := (cur, m)]> (came_from st)) o) st).
  { intros n gc h o m Hn Hgc Himp.
    destruct (improve_facts _ _ _ _ _ _ Hinv Hn Hgc Himp) as (Hni & Hnc & Hvn & Hgc0).
    right. unfold unseen. simpl. destruct (g_score st !! n) as [gn|] eqn:Hgn.
    - right. split.
      + f_equal. f_equal. rewrite dom_insert_L.
        apply subseteq_union_1_L, singleton_subseteq_l, elem_of_dom. eauto.
      + apply (g_total_update _ _ _ gn); [done|]. specialize (Himp gn eq_refl). lia.
    - left. apply subset_size. rewrite dom_insert_L.
      assert (Hnin : n ∉ dom (g_score st)) by by apply not_elem_of_dom.
      assert (Hu : n ∈ universe) by by apply universe_valid.
      split.
      + intros s [Hs Hd]%elem_of_difference. apply elem_of_difference.
        split; [done|]. intros Hs'. apply Hd, elem_of_union. by right.
      + intros Hsub. specialize (Hsub n). rewrite !elem_of_difference in Hsub.
        destruct Hsub as [_ Hd]; [done|]. apply Hd, elem_of_union. left.
        by apply elem_of_singleton. }
  destruct Hv; [by left|by left|eauto|eauto].
Qed.

Lemma expand_spec_inv (initial cur : State) (st st' : search) (ms : list Move) :
  search_inv initial st → expand_spec cur st ms st' →
  search_inv initial st' ∧ progress universe st' st
  ∧ (∀ s, is_Some (g_score st !! s) → is_Some (g_score st' !! s))
  ∧ (∀ s, s ∈ open_set_hash st → s ∈ open_set_hash st')
  ∧ (closed_inv (Some cur) st → closed_inv (Some cur) st')
  ∧ (∀ move n, move ∈ ms → apply_move cur (tile_cell (find_empty cur) move) = Some n →
       is_Some (g_score st' !! n)).
Proof.
  intros Hinv He. induction He as [st|st st1 st2 move ms Hv He IH].
  - split_and!; [done|by left|done|done|done|]. intros ? ? []%elem_of_nil.
  - pose proof (visit_spec_inv _ _ _ _ _ Hinv Hv) as Hinv1.
    destruct (IH Hinv1) as (Hinv2 & Hp & Hg & Ho & Hc & Hcov).
    destruct (visit_spec_mono _ _ _ _ Hv) as [Hg1 Ho1].
    split_and!; [done| |by auto|by auto| |].
    + eapply progress_trans; [done|]. exact (visit_spec_progress _ _ _ _ _ Hinv Hv).
    + intros Hc0. apply Hc. exact (visit_spec_closed _ _ _ _ _ Hinv Hv Hc0).
    + intros move' n [->|Hin]%elem_of_cons Hn; [|by eauto].
      apply Hg. exact (visit_spec_covers _ _ _ _ _ Hv Hn).
Qed.

(** ** One iteration of the search loop *)

Lemma step_spec (initial : State) (fuel : nat) (st : search) :
  search_inv initial st → closed_inv None st →
  match step fuel st with
  | Continue st' =>
      search_inv initial st' ∧ closed_inv None st' ∧ measure_lt universe st' st
  | Stop r =>
      (open_heap st = [] ∧ r = Some (Returned None)) ∨
      (∃ f rest, open_heap st = (f, goal_state_) :: rest ∧
         r = Returned ∘ Some <$> reconstruct_move_path fuel (came_from st) goal_state_)
  end.
Proof.
  intros Hinv Hc. unfold step.
  destruct (open_heap st) as [|top rest] eqn:Hheap; [by left|].
  destruct (pop_inv _ _ _ _ Hinv Hc Hheap) as (Hinv1 & Hc1 & Hv & Hg).
  case_decide as Hgoal.
  { right. destruct top as [f s]. simpl in *. subst s. eauto. }
  fold (popped st top rest). set (st1 := popped st top rest) in *.
  destruct (expand_sound top.2 st1 moves initial Hv) as (st2 & -> & Hspec); [done..|].
  destruct (expand_spec_inv _ _ _ _ _ Hinv1 Hspec) as (Hinv2 & Hp & Hgm & Hom & Hcl & Hcov).
  split_and!; [done| |].
  - intros s Hs Hopen _. destruct (decide (s = top.2)) as [->|Hne].
    + split; [done|]. intros m n Hn. pose proof Hn as Hn'. unfold apply_move in Hn'.
      destruct (in_grid m) eqn:Hgrid; [|done]. simpl in Hn'.
      destruct (orthogonally_adjacent _ m) eqn:Hadj; [|done].
      destruct (adjacent_is_move _ _ Hadj) as (move & Hmove & ->).
      by apply (Hcov move n).
    + apply (Hcl Hc1 s Hs Hopen). congruence.
  - assert (Hlen : length (open_heap st) = S (length (open_heap st1))) by by rewrite Hheap.
    unfold measure_lt.
    change (unseen universe st) with (unseen universe st1).
    change (g_score st) with (g_score st1).
    destruct Hp as [->|[Hlt|[Heq Hlt]]]; [|by left|right; by left].
    right; right. split_and!; [done|done|lia].
Qed.

End Progress.

(** The valid states form a finite set. *)
Lemma universe_exists : ∃ universe : gset (list Z), ∀ s, valid_state s → s ∈ universe.
Proof.
  exists (list_to_set (permutations goal_state_)). intros s Hs.
  rewrite elem_of_list_to_set, permutations_Permutation. by symmetry.
Qed.

(** ** Path reconstruction *)

Lemma replay_app (s : State) (p q : Path) :
  replay s (p ++ q) = replay s p ≫= λ s', replay s' q.
Proof.
  revert s. induction p as [|m p IH]; intros s; simpl; [done|].
  destruct (apply_move s m); simpl; [apply IH|done].
Qed.

Lemma reconstruct_loop_mono (fuel fuel' : nat) cf (cur : State) (acc tp : Path) :
  reconstruct_loop fuel cf cur acc = Some tp → (fuel ≤ fuel')%nat →
  reconstruct_loop fuel' cf cur acc = Some tp.
Proof.
  revert fuel' cur acc. induction fuel as [|fuel IH]; intros fuel' cur acc H Hle.
  - destruct fuel'; simpl in *; destruct (cf !! cur); done.
  - destruct fuel' as [|fuel']; [lia|]. simpl in *.
    destruct (cf !! cur); [|done]. apply IH; [done|lia].
Qed.

(** The walk along the predecessor links ends, after at most g-score
    many steps, and the moves it collects lead from the initial state
    to the state it started at. *)
Lemma reconstruct_loop_spec (initial : State) (st : search) (fuel : nat)
    (cur : State) (g : Z) (acc : Path) :
  search_inv initial st → g_score st !! cur = Some g → (Z.to_nat g ≤ fuel)%nat →
  ∃ ms, reconstruct_loop fuel (came_from st) cur acc = Some (acc ++ ms)
        ∧ replay initial (reverse ms) = Some cur.
Proof.
  intros Hinv. revert cur g acc. induction fuel as [|fuel IH]; intros cur g acc Hg Hfuel.
  - destruct (came_from st !! cur) as [[p m]|] eqn:Hcf.
    + destruct (inv_link _ _ Hinv _ _ _ Hcf) as (gn & gp & Hgn & Hgp & Hle & _).
      destruct (inv_valid _ _ Hinv _ _ Hgp) as [_ Hgp0]. simplify_eq. lia.
    + exists []. simpl. rewrite Hcf, app_nil_r. split; [done|].
      destruct (decide (cur = initial)) as [->|Hne]; [done|].
      destruct (inv_parent _ _ Hinv cur) as [x Hx]; [eauto|done|congruence].
  - simpl. destruct (came_from st !! cur) as [[p m]|] eqn:Hcf.
    + destruct (inv_link _ _ Hinv _ _ _ Hcf) as (gn & gp & Hgn & Hgp & Hle & Hap).
      simplify_eq. destruct (IH p gp (acc ++ [m]) Hgp) as (ms & Hms & Hrep); [lia|].
      exists (m :: ms). simpl. rewrite Hms, <-app_assoc. split; [done|].
      rewrite reverse_cons, replay_app, Hrep. simpl. by rewrite Hap.
    + exists []. rewrite app_nil_r. split; [done|].
      destruct (decide (cur = initial)) as [->|Hne]; [done|].
      destruct (inv_parent _ _ Hinv cur) as [x Hx]; [eauto|done|congruence].
Qed.

Lemma reconstruct_move_path_spec (initial : State) (st : search) (cur : State) (g : Z) :
  search_inv initial st → g_score st !! cur = Some g →
  (∃ p, ∀ fuel, (Z.to_nat g ≤ fuel)%nat →
          reconstruct_move_path fuel (came_from st) cur = Some p) ∧
  (∀ fuel p, reconstruct_move_path fuel (came_from st) cur = Some p →
          replay initial p = Some cur).
Proof.
  intros Hinv Hg.
  destruct (reconstruct_loop_spec initial st (Z.to_nat g) cur g [] Hinv Hg) as (ms & Hms & Hrep);
    [done|].
  split.
  - exists (reverse ms). intros fuel Hfuel. unfold reconstruct_move_path.
    by rewrite (reconstruct_loop_mono _ _ _ _ _ _ Hms Hfuel).
  - intros fuel p. unfold reconstruct_move_path. intros Hp.
    destruct (reconstruct_loop fuel (came_from st) cur []) as [tp|] eqn:Htp; [|done].
    simpl in Hp. injection Hp as <-.
    destruct (Nat.le_ge_cases fuel (Z.to_nat g)) as [Hle|Hle].
    + rewrite (reconstruct_loop_mono _ _ _ _ _ _ Htp Hle) in Hms. by simplify_eq.
    + rewrite (reconstruct_loop_mono _ _ _ _ _ _ Hms Hle) in Htp. by simplify_eq.
Qed.

(** ** The search loop *)

Lemma seed_inv (initial : State) :
  valid_state initial → search_inv initial (seed initial) ∧ closed_inv None (seed initial).
Proof.
  intros Hv. split.
  - split; simpl.
    + apply lookup_insert_eq.
    + done.
    + intros s g [[<- <-]|[_ ?]]%lookup_insert_Some; [done|done].
    + intros ? ? ? ?. done.
    + intros s [x [[<- _]|[_ ?]]%lookup_insert_Some] ?; done.
    + intros s. rewrite union_empty_r_L, elem_of_singleton, list_elem_of_singleton. done.
    + apply NoDup_singleton.
    + intros s Hs. rewrite union_empty_r_L in Hs. apply elem_of_singleton in Hs as ->.
      rewrite lookup_insert_eq. eauto.
  - intros s [x Hx] Hopen _. simpl in Hx.
    apply lookup_insert_Some in Hx as [[<- _]|[_ ?]]; [|done].
    exfalso. apply Hopen. simpl. set_solver.
Qed.

Lemma loop_state_inv (initial : State) (st : search) :
  valid_state initial → loop_state initial st →
  search_inv initial st ∧ closed_inv None st.
Proof.
  intros Hv Hl. induction Hl as [|fuel st st' Hl [Hinv Hc] Hstep].
  - by apply seed_inv.
  - destruct universe_exists as [U HU].
    pose proof (step_spec U HU initial fuel st Hinv Hc) as Hs. rewrite Hstep in Hs.
    by destruct Hs as (? & ? & _).
Qed.

(** A state with a g-score whose frontier is empty: everything reachable
    has a g-score, and none of it is the goal. *)
Lemma closed_reach (initial : State) (st : search) (s t : State) (p : Path) :
  search_inv initial st → closed_inv None st → open_heap st = [] →
  is_Some (g_score st !! s) → replay s p = Some t →
  is_Some (g_score st !! t) ∧ t ≠ goal_state_.
Proof.
  intros Hinv Hc Hheap. revert s.
  assert (Hopen : ∀ s, s ∉ open_set_hash st).
  { intros s. rewrite (inv_open _ _ Hinv), Hheap. simpl. apply not_elem_of_nil. }
  induction p as [|m p IH]; intros s Hs Hrep; simpl in Hrep.
  - simplify_eq. split; [done|]. by apply (Hc t Hs (Hopen t)).
  - destruct (apply_move s m) as [s'|] eqn:Hm; [|done].
    apply (IH s'); [|done]. by apply (Hc s Hs (Hopen s)) with m.
Qed.

(** Partial correctness of the loop from a state of the invariant. *)
Lemma search_loop_sound (initial : State) (fuel n : nat) (st : search) (r : result) :
  search_inv initial st → closed_inv None st →
  search_loop fuel n st = Some r →
  match r with
  | Returned (Some p) => replay initial p = Some goal_state_
  | Returned None => ¬ solvable initial
  | Faulted _ => False
  end.
Proof.
  destruct universe_exists as [U HU].
  revert st. induction n as [|n IH]; intros st Hinv Hc Hloop; simpl in Hloop;
    pose proof (step_spec U HU initial fuel st Hinv Hc) as Hs;
    destruct (step fuel st) as [st'|r'] eqn:Hstep.
  1: done.
  2: { destruct Hs as (Hinv' & Hc' & _). by apply (IH st'). }
  all: subst r'; destruct Hs as [[Hheap Hr]|(f & rest & Hheap & Hr)].
  all: try (simplify_eq; intros [p Hp];
            destruct (closed_reach initial st initial goal_state_ p Hinv Hc Hheap) as [_ ?];
            [rewrite (inv_initial_g _ _ Hinv); eauto|done|done]).
  all: destruct (reconstruct_move_path fuel (came_from st) goal_state_) as [p|] eqn:Hp;
         simpl in Hr; [|done]; simplify_eq.
  all: assert (Hg : is_Some (g_score st !! goal_state_))
         by (apply (inv_open_g _ _ Hinv), (inv_open _ _ Hinv); rewrite Hheap; simpl; set_solver).
  all: destruct Hg as [g Hg].
  all: by apply (reconstruct_move_path_spec initial st goal_state_ g Hinv Hg) with fuel.
Qed.

(** An iteration that pops a state other than the goal expands it. *)
Lemma step_expands (initial : State) (st : search) (fuel : nat)
    (top : PQElement) (rest : list PQElement) :
  search_inv initial st → closed_inv None st →
  open_heap st = top :: rest → top.2 ≠ goal_state_ →
  ∃ st', step fuel st = Continue st'
         ∧ expand_spec top.2 (popped st top rest) moves st'.
Proof.
  intros Hinv Hc Hheap Hgoal.
  destruct (pop_inv _ _ _ _ Hinv Hc Hheap) as (Hinv1 & _ & Hvt & Hg).
  destruct (expand_sound top.2 (popped st top rest) moves initial Hvt) as (st2 & He & Hspec);
    [done..|].
  exists st2. split; [|done]. unfold step. rewrite Hheap.
  rewrite decide_False by done. fold (popped st top rest). by rewrite He.
Qed.

Lemma expand_spec_sorted (cur : State) (st st' : search) (ms : list Move) :
  expand_spec cur st ms st' →
  StronglySorted (λ a b, pq_ltb b a = false) (open_heap st) →
  StronglySorted (λ a b, pq_ltb b a = false) (open_heap st').
Proof.
  induction 1 as [st|st st1 st2 move ms Hv He IH]; [done|].
  intros Hs. apply IH. destruct Hv; simpl; try done. by apply heap_push_sorted.
Qed.

(** The frontier is in ascending order at the head of every iteration,
    so the entry the loop pops is a least one, as [top()] of the
    [std::greater] queue is. *)
Lemma loop_state_sorted (initial : State) (st : search) :
  valid_state initial → loop_state initial st →
  StronglySorted (λ a b, pq_ltb b a = false) (open_heap st).
Proof.
  intros Hv Hl. induction Hl as [|fuel st st' Hl IH Hstep].
  - simpl. by repeat constructor.
  - destruct (loop_state_inv initial st Hv Hl) as [Hinv Hc].
    destruct (open_heap st) as [|top rest] eqn:Hheap.
    { unfold step in Hstep. by rewrite Hheap in Hstep. }
    destruct (decide (top.2 = goal_state_)) as [Hgoal|Hgoal].
    { unfold step in Hstep. rewrite Hheap in Hstep. by rewrite decide_True in Hstep. }
    destruct (step_expands initial st fuel top rest Hinv Hc Hheap Hgoal) as (st2 & Hst2 & He).
    rewrite Hstep in Hst2. injection Hst2 as <-.
    apply (expand_spec_sorted _ _ _ _ He). simpl.
    by apply StronglySorted_inv in IH as [? _].
Qed.

Lemma popped_entry_least (initial : State) (st : search)
    (top : PQElement) (rest : list PQElement) :
  valid_state initial → loop_state initial st → open_heap st = top :: rest →
  ∀ e, e ∈ rest → pq_ltb e top = false.
Proof.
  intros Hv Hl Hheap e He.
  pose proof (loop_state_sorted initial st Hv Hl) as Hs. rewrite Hheap in Hs.
  apply StronglySorted_inv in Hs as [_ Hall].
  rewrite Forall_forall in Hall. by apply Hall.
Qed.

(** ** Fuel *)

Lemma reconstruct_move_path_mono (fuel fuel' : nat) cf (cur : State) (p : Path) :
  reconstruct_move_path fuel cf cur = Some p → (fuel ≤ fuel')%nat →
  reconstruct_move_path fuel' cf cur = Some p.
Proof.
  unfold reconstruct_move_path. intros H Hle.
  destruct (reconstruct_loop fuel cf cur []) as [tp|] eqn:Htp; [|done].
  by rewrite (reconstruct_loop_mono _ _ _ _ _ _ Htp Hle).
Qed.

(** Whether the loop goes on, and with which records, does not depend
    on the fuel; a result, once returned, is returned with more fuel. *)
Lemma step_mono (fuel fuel' : nat) (st : search) :
  (fuel ≤ fuel')%nat →
  match step fuel st with
  | Continue st' => step fuel' st = Continue st'
  | Stop (Some r) => step fuel' st = Stop (Some r)
  | Stop None => True
  end.
Proof.
  intros Hle. unfold step. destruct (open_heap st) as [|top rest]; [done|].
  case_decide.
  - simpl. destruct (reconstruct_move_path fuel _ _) as [p|] eqn:Hp; simpl; [|done].
    by rewrite (reconstruct_move_path_mono _ _ _ _ _ Hp Hle).
  - destruct (expand _ _ _ _); done.
Qed.

Lemma search_loop_mono (fuel fuel' n n' : nat) (st : search) (r : result) :
  search_loop fuel n st = Some r → (fuel ≤ fuel')%nat → (n ≤ n')%nat →
  search_loop fuel' n' st = Some r.
Proof.
  intros H Hfuel. revert n' st H. induction n as [|n IH]; intros n' st H Hn;
    pose proof (step_mono fuel fuel' st Hfuel) as Hs;
    destruct n' as [|n']; try lia; simpl in *;
    destruct (step fuel st) as [st'|[r'|]]; try done; rewrite Hs; try done.
  apply IH; [done|lia].
Qed.

Lemma solve_mono (fuel fuel' : nat) (initial : State) (r : result) :
  solve_with_a_star fuel initial = Some r → (fuel ≤ fuel')%nat →
  solve_with_a_star fuel' initial = Some r.
Proof.
  unfold solve_with_a_star. case_decide; [done|]. intros Hrun Hle.
  by apply (search_loop_mono fuel fuel' fuel fuel').
Qed.

Lemma returns_deterministic (initial : State) (r1 r2 : result) :
  returns initial r1 → returns initial r2 → r1 = r2.
Proof.
  intros [f1 H1] [f2 H2].
  apply (solve_mono _ (f1 `max` f2)) in H1; [|lia].
  apply (solve_mono _ (f1 `max` f2)) in H2; [|lia]. congruence.
Qed.

(** ** Termination of the search loop *)

Lemma search_loop_terminates (initial : State) (universe : gset (list Z)) :
  (∀ s, valid_state s → s ∈ universe) →
  ∀ (a b c : nat) (st : search),
    unseen universe st = a → g_total (g_score st) = b → length (open_heap st) = c →
    search_inv initial st → closed_inv None st →
    ∃ n fuel0, ∀ fuel, (fuel0 ≤ fuel)%nat →
      ∃ r, search_loop fuel n st = Some (Returned r).
Proof.
  intros HU.
  induction a as [a IHa] using lt_wf_ind.
  induction b as [b IHb] using lt_wf_ind.
  induction c as [c IHc] using lt_wf_ind.
  intros st Ha Hb Hc Hinv Hcl.
  pose proof (step_spec universe HU initial 0 st Hinv Hcl) as Hs.
  destruct (step 0 st) as [st'|r0] eqn:Hstep.
  - destruct Hs as (Hinv' & Hcl' & Hlt).
    assert (Hrec : ∃ n fuel0, ∀ fuel, (fuel0 ≤ fuel)%nat →
              ∃ r, search_loop fuel n st' = Some (Returned r)).
    { destruct Hlt as [Hlt|[[Heq Hlt]|(Heq1 & Heq2 & Hlt)]].
      - eapply (IHa (unseen universe st')); [lia|done..].
      - eapply (IHb (g_total (g_score st'))); [lia|congruence|done..].
      - eapply (IHc (length (open_heap st'))); [lia|congruence|congruence|done..]. }
    destruct Hrec as (n & fuel0 & Hrec). exists (S n), fuel0. intros fuel Hfuel.
    destruct (Hrec fuel Hfuel) as [r Hr]. exists r. simpl.
    pose proof (step_mono 0 fuel st) as Hm. rewrite Hstep in Hm. by rewrite Hm by lia.
  - destruct Hs as [[Hheap ->]|(f & rest & Hheap & Hr)].
    + exists 0%nat, 0%nat. intros fuel _. exists None.
      pose proof (step_mono 0 fuel st) as Hm. rewrite Hstep in Hm.
      destruct fuel; simpl; by rewrite Hm by lia.
    + assert (Hg : is_Some (g_score st !! goal_state_))
        by (apply (inv_open_g _ _ Hinv), (inv_open _ _ Hinv); rewrite Hheap; simpl; set_solver).
      destruct Hg as [g Hg].
      destruct (reconstruct_move_path_spec initial st goal_state_ g Hinv Hg) as [[p Hp] _].
      exists 0%nat, (Z.to_nat g). intros fuel Hfuel. exists (Some p).
      assert (Hstop : step fuel st = Stop (Some (Returned (Some p)))).
      { unfold step. rewrite Hheap. cbv zeta.
        change ((f, goal_state_).2) with goal_state_.
        rewrite decide_True by done. cbn [came_from]. by rewrite (Hp fuel Hfuel). }
      simpl. by rewrite Hstop.
Qed.

(** The call on a valid state, as a whole. *)
Lemma solve_terminates_sound (initial : State) :
  valid_state initial →
  ∃ fuel0 r, (∀ fuel, (fuel0 ≤ fuel)%nat →
                solve_with_a_star fuel initial = Some (Returned r)) ∧
    match r with
    | Some p => replay initial p = Some goal_state_
    | None => ¬ solvable initial
    end.
Proof.
  intros Hv. destruct (decide (initial = goal_state_)) as [Heq|Hne].
  - exists 0%nat, (Some []). split; [|by subst].
    intros fuel _. unfold solve_with_a_star. by rewrite decide_True.
  - destruct universe_exists as [U HU].
    destruct (seed_inv initial Hv) as [Hinv Hcl].
    destruct (search_loop_terminates initial U HU _ _ _ (seed initial)
                eq_refl eq_refl eq_refl Hinv Hcl) as (n & fuel0 & Hrun).
    destruct (Hrun fuel0) as [r Hr]; [lia|].
    exists (n `max` fuel0)%nat, r. split.
    + intros fuel Hfuel. unfold solve_with_a_star. rewrite decide_False by done.
      apply (search_loop_mono fuel0 fuel n fuel); [done|lia|lia].
    + by apply (search_loop_sound initial fuel0 n (seed initial) (Returned r)).
Qed.

(** ** The heuristic *)

Lemma heuristic_term_nonneg (i num : Z) : 0 <= heuristic_term i num.
Proof. unfold heuristic_term. destruct (num =? 0); lia. Qed.

Lemma heuristic_from_acc (i : Z) (rest : list Z) (acc d : Z) :
  heuristic_from i rest (acc + d) = heuristic_from i rest acc + d.
Proof.
  revert i acc. induction rest as [|x rest IH]; intros i acc; simpl; [done|].
  rewrite <-IH. f_equal. lia.
Qed.

Lemma heuristic_from_nonneg (i : Z) (rest : list Z) (acc : Z) :
  acc <= heuristic_from i rest acc.
Proof.
  revert i acc. induction rest as [|x rest IH]; intros i acc; simpl; [lia|].
  pose proof (heuristic_term_nonneg i x). specialize (IH (i + 1) (acc + heuristic_term i x)).
  lia.
Qed.

Lemma index_of_middle (x : Z) (pre rest : list Z) :
  x ∉ pre → index_of x (pre ++ x :: rest) = Z.of_nat (length pre).
Proof.
  induction pre as [|y pre IH]; intros Hx; simpl.
  - by rewrite Z.eqb_refl.
  - apply not_elem_of_cons in Hx as [Hxy Hx]. rewrite IH by done.
    destruct (Z.eqb_spec y x); [congruence|lia].
Qed.

(** The loop adds one term per slot; without duplicates the slot of a
    value is its [index_of]. *)
Lemma heuristic_from_sum (pre rest : list Z) (acc : Z) :
  NoDup (pre ++ rest) →
  heuristic_from (Z.of_nat (length pre)) rest acc
  = acc + sum_list_Z ((λ x, heuristic_term (index_of x (pre ++ rest)) x) <$> rest).
Proof.
  revert pre acc. induction rest as [|x rest IH]; intros pre acc Hnd; simpl.
  - unfold sum_list_Z. simpl. lia.
  - assert (Hx : x ∉ pre).
    { apply NoDup_app in Hnd as (_ & Hd & _). intros Hin. apply (Hd x Hin). by left. }
    rewrite index_of_middle by done.
    specialize (IH (pre ++ [x]) (acc + heuristic_term (Z.of_nat (length pre)) x)).
    rewrite <-app_assoc in IH. simpl in IH.
    rewrite length_app in IH. simpl in IH.
    replace (Z.of_nat (length pre + 1)) with (Z.of_nat (length pre) + 1) in IH by lia.
    rewrite IH by done. unfold sum_list_Z. simpl. by rewrite <-Z.add_assoc.
Qed.

Lemma sum_list_Z_Permutation (f : Z → Z) (l l' : list Z) :
  l ≡ₚ l' → sum_list_Z (f <$> l) = sum_list_Z (f <$> l').
Proof.
  unfold sum_list_Z.
  induction 1 as [|x l l' H IH|x y l|l l' l'' H1 IH1 H2 IH2]; rewrite ?fmap_cons; simpl.
  - done.
  - by rewrite IH.
  - lia.
  - congruence.
Qed.

Lemma heuristic_term_tile (i t : Z) :
  t ∈ tiles →
  heuristic_term i t = manhattan (cell_of i) (cell_of (index_of t goal_state_)).
Proof.
  unfold tiles. intros Ht.
  repeat (apply elem_of_cons in Ht as [->|Ht]; [reflexivity|]).
  by apply elem_of_nil in Ht.
Qed.

Lemma valid_NoDup (s : State) : valid_state s → NoDup s.
Proof.
  unfold valid_state. intros ->. unfold goal_state_.
  apply (bool_decide_unpack _). by vm_compute.
Qed.

Lemma heuristic_manhattan_sum (s : State) :
  valid_state s → heuristic s = manhattan_sum s.
Proof.
  intros Hv. unfold heuristic.
  pose proof (heuristic_from_sum [] s 0) as Hsum.
  change (Z.of_nat (length [])) with 0 in Hsum. change ([] ++ s) with s in Hsum.
  rewrite Hsum by by apply valid_NoDup.
  rewrite (sum_list_Z_Permutation _ s goal_state_ Hv).
  unfold manhattan_sum, goal_state_, tiles, sum_list_Z. simpl fmap. simpl foldr.
  rewrite !(heuristic_term_tile (index_of _ s)) by (unfold tiles; set_solver).
  unfold goal_state_. unfold heuristic_term at 1. simpl. lia.
Qed.

(** Overwriting one slot changes the sum by the change of that slot's term. *)
Lemma heuristic_from_insert (rest : list Z) (i acc : Z) (j : nat) (x y : Z) :
  rest !! j = Some x →
  heuristic_from i (<[j := y]> rest) acc
  = heuristic_from i rest acc - heuristic_term (i + Z.of_nat j) x
    + heuristic_term (i + Z.of_nat j) y.
Proof.
  revert i acc j. induction rest as [|z rest IH]; intros i acc j Hj; [done|].
  destruct j as [|j]; simpl in *.
  - simplify_eq. rewrite !heuristic_from_acc.
    replace (i + Z.of_nat 0) with i by lia. lia.
  - rewrite (IH _ _ _ Hj).
    by replace (i + Z.of_nat (S j)) with (i + 1 + Z.of_nat j) by lia.
Qed.

Lemma cell_of_tile_index (m : Move) :
  in_grid m = true → cell_of (m.1 * grid_size_ + m.2) = m.
Proof.
  destruct m as [r c]. unfold in_grid, cell_of, grid_size_. simpl. intros Hg.
  assert (Hr : r = 0 ∨ r = 1 ∨ r = 2) by lia.
  assert (Hc : c = 0 ∨ c = 1 ∨ c = 2) by lia.
  destruct Hr as [-> | [-> | ->]]; destruct Hc as [-> | [-> | ->]]; reflexivity.
Qed.

Lemma heuristic_term_cell (i x : Z) :
  x ≠ 0 → heuristic_term i x = manhattan (cell_of i) (cell_of (x - 1)).
Proof. intros Hx. unfold heuristic_term. by destruct (Z.eqb_spec x 0). Qed.

(** One move lowers the heuristic by at most 1. *)
Lemma apply_move_heuristic (s s' : State) (m : Move) :
  apply_move s m = Some s' → heuristic s <= heuristic s' + 1.
Proof.
  unfold apply_move. destruct (in_grid m) eqn:Hg; [|done]. simpl.
  destruct (orthogonally_adjacent _ m) eqn:Hadj; [|done].
  unfold array_swap, array_get.
  destruct ((0 <=? find_empty s) && (find_empty s <? state_size)) eqn:He; [|done].
  destruct (s !! Z.to_nat (find_empty s)) as [b|] eqn:Hb; [|done].
  destruct ((0 <=? m.1 * grid_size_ + m.2) && (m.1 * grid_size_ + m.2 <? state_size));
    [|done].
  destruct (s !! Z.to_nat (m.1 * grid_size_ + m.2)) as [x|] eqn:Hx; [|done].
  intros [= <-].
  assert (Hb0 : b = 0).
  { destruct (decide (0 ∈ s)) as [Hin|Hnin].
    - destruct (find_empty_from_found s 0 Hin) as (k & Hk & Hl & _).
      unfold find_empty in Hb. rewrite Hk in Hb.
      replace (Z.to_nat (0 + Z.of_nat k)) with k in Hb by lia. congruence.
    - unfold find_empty in He. rewrite find_empty_from_missing in He by done. done. }
  subst b.
  assert (Hne : Z.to_nat (find_empty s) ≠ Z.to_nat (m.1 * grid_size_ + m.2)).
  { intros Heq. assert (find_empty s = m.1 * grid_size_ + m.2) as Heq'.
    { unfold in_grid, grid_size_ in *. lia. }
    rewrite Heq', cell_of_tile_index in Hadj by done.
    unfold orthogonally_adjacent, manhattan in Hadj. lia. }
  unfold heuristic.
  rewrite (heuristic_from_insert _ _ _ _ x 0); [|by rewrite list_lookup_insert_ne].
  rewrite (heuristic_from_insert _ _ _ _ 0 x) by done.
  replace (0 + Z.of_nat (Z.to_nat (find_empty s))) with (find_empty s) by lia.
  replace (0 + Z.of_nat (Z.to_nat (m.1 * grid_size_ + m.2))) with (m.1 * grid_size_ + m.2)
    by (unfold in_grid, grid_size_ in *; lia).
  destruct (decide (x = 0)) as [->|Hx0]; [unfold heuristic_term; simpl; lia|].
  rewrite !(heuristic_term_cell _ x) by done.
  rewrite cell_of_tile_index by done.
  unfold heuristic_term. simpl.
  unfold orthogonally_adjacent, manhattan in *. lia.
Qed.

Lemma heuristic_admissible (s : State) (p : Path) :
  replay s p = Some goal_state_ → heuristic s <= Z.of_nat (length p).
Proof.
  revert s. induction p as [|m p IH]; intros s Hrep; simpl in Hrep.
  - by simplify_eq.
  - destruct (apply_move s m) as [s'|] eqn:Hm; [|done].
    pose proof (apply_move_heuristic _ _ _ Hm). specialize (IH s' Hrep).
    simpl length. lia.
Qed.

(** ** No [std::out_of_range], on any input *)

Lemma visit_scored (cur : State) (e : Z) (st : search) (move : Move) :
  frontier_scored st → is_Some (g_score st !! cur) →
  match visit cur e st move with
  | inl f => f = OutOfBounds
  | inr st' => frontier_scored st' ∧ is_Some (g_score st' !! cur)
  end.
Proof.
  intros Hf [gc Hgc]. unfold visit.
  destruct (_ && _); [|by eauto].
  destruct (array_swap _ _ _) as [n|]; [|done].
  rewrite Hgc.
  assert (Hins : ∀ h, (∀ x, x ∈ h → x.2 = n ∨ x ∈ open_heap st) →
            frontier_scored (Records h (<[n := gc + 1]> (g_score st))
                               (<[n := (cur, (Z.quot e grid_size_ + move.1,
                                              Z.rem e grid_size_ + move.2))]> (came_from st))
                               (open_set_hash st))
            ∧ is_Some (<[n := gc + 1]> (g_score st) !! cur)).
  { intros h Hh. split.
    - intros x Hx. simpl in *. rewrite lookup_insert. case_decide; [eauto|].
      destruct (Hh x Hx) as [?|Hin]; [done|]. by apply Hf.
    - rewrite lookup_insert. case_decide; eauto. }
  assert (Hpush : ∀ f x, x ∈ heap_push (f, n) (open_heap st) → x.2 = n ∨ x ∈ open_heap st).
  { intros f x. rewrite heap_push_Permutation. intros [->|?]%elem_of_cons; auto. }
  destruct (g_score st !! n) as [gn|]; [destruct (gc + 1 <? gn)|];
    try case_decide; try (by eauto).
  all: try (by apply Hins; auto).
  all: destruct (Hins _ (Hpush (gc + 1 + heuristic n))) as [H1 H2]; split; [|done].
  all: intros x Hx; apply (H1 x Hx).
Qed.

Lemma expand_scored (cur : State) (e : Z) (st : search) (ms : list Move) :
  frontier_scored st → is_Some (g_score st !! cur) →
  match expand cur e st ms with
  | inl f => f = OutOfBounds
  | inr st' => frontier_scored st'
  end.
Proof.
  revert st. induction ms as [|move ms IH]; intros st Hf Hg; simpl; [done|].
  pose proof (visit_scored cur e st move Hf Hg) as Hv.
  destruct (visit cur e st move) as [f|st']; [done|].
  destruct Hv as [Hf' Hg']. by apply IH.
Qed.

Lemma search_loop_no_out_of_range (fuel n : nat) (st : search) :
  frontier_scored st → search_loop fuel n st ≠ Some (Faulted OutOfRange).
Proof.
  revert st.
  assert (Hstep : ∀ st, frontier_scored st →
            match step fuel st with
            | Continue st' => frontier_scored st'
            | Stop r => r ≠ Some (Faulted OutOfRange)
            end).
  { intros st Hf. unfold step. destruct (open_heap st) as [|top rest] eqn:Hheap; [done|].
    case_decide; [by destruct (reconstruct_move_path _ _ _)|].
    set (st1 := Records rest _ _ _).
    assert (Hf1 : frontier_scored st1).
    { intros x Hx. apply Hf. rewrite Hheap. by right. }
    assert (Hg1 : is_Some (g_score st1 !! top.2)).
    { apply (Hf top). rewrite Hheap. by left. }
    pose proof (expand_scored top.2 (find_empty top.2) st1 moves Hf1 Hg1) as He.
    destruct (expand _ _ _ _) as [f|st2]; [|done]. by subst f. }
  induction n as [|n IH]; intros st Hf; simpl; specialize (Hstep st Hf);
    destruct (step fuel st) as [st'|r]; try done. by apply IH.
Qed.

Lemma solve_no_out_of_range (fuel : nat) (initial : State) :
  solve_with_a_star fuel initial ≠ Some (Faulted OutOfRange).
Proof.
  unfold solve_with_a_star. case_decide; [done|].
  apply search_loop_no_out_of_range. intros e He. simpl in *.
  apply list_elem_of_singleton in He as ->. simpl. rewrite lookup_insert_eq. eauto.
Qed.

(** ** The scores fit an [int] *)

Lemma heuristic_term_le (i num : Z) :
  0 <= i < 9 → 0 <= num < 9 → heuristic_term i num <= 4.
Proof.
  intros Hi Hn. unfold heuristic_term, grid_size_.
  destruct (Z.eqb_spec num 0); [lia|].
  pose proof (Z.quot_rem' i 3). pose proof (Z.rem_bound_pos i 3 ltac:(lia) ltac:(lia)).
  pose proof (Z.quot_rem' (num - 1) 3).
  pose proof (Z.rem_bound_pos (num - 1) 3 ltac:(lia) ltac:(lia)).
  lia.
Qed.

Lemma heuristic_from_le (i : Z) (rest : list Z) (acc : Z) :
  0 <= i → i + Z.of_nat (length rest) <= 9 → Forall (λ x, 0 <= x < 9) rest →
  heuristic_from i rest acc <= acc + 4 * Z.of_nat (length rest).
Proof.
  revert i acc. induction rest as [|x rest IH]; intros i acc Hi Hlen Hall; simpl; [lia|].
  apply Forall_cons in Hall as [Hx Hall]. simpl length in Hlen.
  pose proof (heuristic_term_le i x ltac:(lia) Hx).
  specialize (IH (i + 1) (acc + heuristic_term i x) ltac:(lia) ltac:(lia) Hall). lia.
Qed.

Lemma heuristic_le (s : State) : valid_state s → 0 <= heuristic s <= 36.
Proof.
  intros Hv. split; [apply heuristic_from_nonneg|].
  pose proof (valid_length s Hv) as Hlen.
  pose proof (heuristic_from_le 0 s 0) as Hle. rewrite Hlen in Hle.
  apply Hle; [lia|lia|]. unfold valid_state in Hv. rewrite Hv.
  unfold goal_state_. repeat constructor; lia.
Qed.

Lemma length_interleave (x : Z) (l : list Z) : length (interleave x l) = S (length l).
Proof.
  induction l as [|y l IH]; simpl; [done|]. by rewrite length_fmap, IH.
Qed.

Lemma length_bind_interleave (x : Z) (n : nat) (ls : list (list Z)) :
  Forall (λ l, length l = n) ls →
  length (ls ≫= interleave x) = (S n * length ls)%nat.
Proof.
  induction 1 as [|l ls Hl Hls IH]; [simpl; lia|].
  rewrite bind_cons, length_app, length_interleave, IH, Hl. simpl. lia.
Qed.

Lemma length_permutations_cons (x : Z) (l : list Z) :
  length (permutations (x :: l)) = (S (length l) * length (permutations l))%nat.
Proof.
  simpl. apply length_bind_interleave. apply Forall_forall.
  intros l' Hl'. apply permutations_Permutation in Hl'. by rewrite <-Hl'.
Qed.

Lemma length_permutations_goal :
  Z.of_nat (length (permutations goal_state_)) = state_count.
Proof.
  unfold goal_state_, state_count. rewrite !length_permutations_cons.
  change (length (permutations (@nil Z))) with 1%nat.
  cbn [length]. lia.
Qed.

(** A map keyed by valid states has at most 9! keys. *)
Lemma valid_keys_count (g : gmap (list Z) Z) :
  (∀ s x, g !! s = Some x → valid_state s) → Z.of_nat (size g) <= state_count.
Proof.
  intros Hg. rewrite <-length_permutations_goal, <-size_dom.
  apply inj_le, submseteq_length, NoDup_submseteq; [apply NoDup_elements|].
  intros s Hs. apply elem_of_elements, elem_of_dom in Hs as [x Hx].
  apply permutations_Permutation. symmetry. by apply (Hg s x).
Qed.

Lemma visit_spec_scores (initial cur : State) (st st' : search) (move : Move) :
  search_inv initial st → visit_spec cur st move st' → score_inv st → score_inv st'.
Proof.
  intros Hinv Hv [Hg Hf].
  pose proof (visit_spec_inv _ _ _ _ _ Hinv Hv) as Hinv'.
  assert (Himp : ∀ n gc m,
            apply_move cur m = Some n → g_score st !! cur = Some gc →
            (∀ gn, g_score st !! n = Some gn → gc + 1 < gn) →
            (∀ s g, <[n := gc + 1]> (g_score st) !! s = Some g →
                    g < Z.of_nat (size (<[n := gc + 1]> (g_score st))))).
  { intros n gc m Hn Hgc Himp s g.
    pose proof (Hg cur gc Hgc) as Hcur.
    destruct (g_score st !! n) as [gn|] eqn:Hgn.
    - rewrite map_size_insert_Some by eauto.
      specialize (Himp gn eq_refl). pose proof (Hg n gn Hgn) as Hgn'.
      intros [[_ <-]|[_ Hs]]%lookup_insert_Some; [lia|by apply (Hg s)].
    - rewrite map_size_insert_None by done.
      intros [[_ <-]|[_ Hs]]%lookup_insert_Some; [lia|].
      specialize (Hg s g Hs). lia. }
  destruct Hv as [?|? ? ? ? ? ? ?|n gc Hn Hgc Himp' Ho|n gc Hn Hgc Himp' Ho];
    [done|done| |]; split; simpl.
  - by eapply Himp.
  - done.
  - by eapply Himp.
  - intros e. rewrite heap_push_Permutation. intros [->|He]%elem_of_cons; [|by apply Hf].
    simpl.
    pose proof (Himp n gc _ Hn Hgc Himp' n (gc + 1) (lookup_insert_eq _ _ _)) as Hlt.
    pose proof (valid_keys_count _ (λ s x Hs, proj1 (inv_valid _ _ Hinv' s x Hs))) as Hc.
    simpl in Hc.
    destruct (improve_facts _ _ _ _ _ _ Hinv Hn Hgc Himp') as (_ & _ & Hvn & Hgc0).
    pose proof (heuristic_le n Hvn). lia.
Qed.

Lemma expand_spec_scores (initial cur : State) (st st' : search) (ms : list Move) :
  search_inv initial st → expand_spec cur st ms st' → score_inv st → score_inv st'.
Proof.
  intros Hinv He. induction He as [st|st st1 st2 move ms Hv He IH]; [done|].
  intros Hs. apply IH; [by eapply visit_spec_inv|by eapply visit_spec_scores].
Qed.

Lemma loop_state_scores (initial : State) (st : search) :
  valid_state initial → loop_state initial st → score_inv st.
Proof.
  intros Hv Hl. induction Hl as [|fuel st st' Hl IH Hstep].
  - split; simpl.
    + intros s g [[_ <-]|[_ ?]]%lookup_insert_Some; [|done].
      rewrite map_size_insert_None by done. lia.
    + intros e ->%list_elem_of_singleton. simpl.
      pose proof (heuristic_le initial Hv). unfold state_count. lia.
  - destruct (loop_state_inv initial st Hv Hl) as [Hinv Hc].
    destruct (open_heap st) as [|top rest] eqn:Hheap.
    { unfold step in Hstep. by rewrite Hheap in Hstep. }
    destruct (decide (top.2 = goal_state_)) as [Hgoal|Hgoal].
    { unfold step in Hstep. rewrite Hheap in Hstep. by rewrite decide_True in Hstep. }
    destruct (step_expands initial st fuel top rest Hinv Hc Hheap Hgoal) as (st2 & Hst2 & He).
    rewrite Hstep in Hst2. injection Hst2 as <-.
    destruct (pop_inv _ _ _ _ Hinv Hc Hheap) as (Hinv1 & _).
    apply (expand_spec_scores initial _ _ _ _ Hinv1 He).
    destruct IH as [Hg Hf]. split; simpl; [done|].
    intros e He'. apply Hf. rewrite Hheap. by right.
Qed.

(** On a valid initial state no [int] of the search overflows: every
    g-score, its successor and every f-score lie in [0, INT_MAX]. *)
Lemma scores_fit_int (initial : State) (st : search) :
  valid_state initial → loop_state initial st →
  (∀ s g, g_score st !! s = Some g → 0 <= g ∧ g + 1 + heuristic s <= INT_MAX)
  ∧ (∀ e, e ∈ open_heap st → 0 <= e.1 <= INT_MAX).
Proof.
  intros Hv Hl. destruct (loop_state_scores initial st Hv Hl) as [Hg Hf].
  destruct (loop_state_inv initial st Hv Hl) as [Hinv _].
  pose proof (valid_keys_count _ (λ s x Hs, proj1 (inv_valid _ _ Hinv s x Hs))) as Hc.
  unfold INT_MAX, state_count in *. split.
  - intros s g Hs. destruct (inv_valid _ _ Hinv s g Hs) as [Hvs Hg0].
    specialize (Hg s g Hs). pose proof (heuristic_le s Hvs). lia.
  - intros e He. specialize (Hf e He). lia.
Qed.

(** ** Parity is kept by every move *)

Lemma count_below_Permutation (x : Z) (l l' : list Z) :
  l ≡ₚ l' → count_below x l = count_below x l'.
Proof. unfold count_below. by intros ->. Qed.

Lemma count_below_app (x : Z) (l l' : list Z) :
  count_below x (l ++ l') = (count_below x l + count_below x l')%nat.
Proof. unfold count_below. by rewrite filter_app, length_app. Qed.

Lemma count_below_above (x : Z) (l : list Z) :
  x ∉ l → (count_below x l + count_above x l = length l)%nat.
Proof.
  unfold count_below, count_above. induction l as [|y l IH]; intros Hx; [done|].
  apply not_elem_of_cons in Hx as [Hxy Hx]. specialize (IH Hx).
  rewrite !filter_cons. repeat case_decide; simpl; lia.
Qed.

(** What a prefix adds to the inversions depends on the rest only up to
    its order. *)
Lemma inversions_app_Permutation (A L L' : list Z) :
  L ≡ₚ L' →
  (inversions (A ++ L) + inversions L' = inversions (A ++ L') + inversions L)%nat.
Proof.
  intros HL. induction A as [|a A IH]; simpl; [lia|].
  rewrite (count_below_Permutation a (A ++ L) (A ++ L')) by by rewrite HL.
  lia.
Qed.

Lemma count_below_cons (x y : Z) (l : list Z) :
  count_below x (y :: l) = ((if decide (y < x)%Z then 1 else 0) + count_below x l)%nat.
Proof. unfold count_below. rewrite filter_cons. by case_decide. Qed.

Lemma count_above_cons (x y : Z) (l : list Z) :
  count_above x (y :: l) = ((if decide (x < y)%Z then 1 else 0) + count_above x l)%nat.
Proof. unfold count_above. rewrite filter_cons. by case_decide. Qed.

(** Moving [x] from before [mid] to behind it. *)
Lemma inversions_shift (x : Z) (mid B : list Z) :
  (inversions (mid ++ x :: B) + count_below x mid
   = inversions (x :: mid ++ B) + count_above x mid)%nat.
Proof.
  induction mid as [|y mid IH].
  - unfold count_below, count_above. simpl. lia.
  - cbn [app inversions] in *.
    rewrite !count_below_app, !count_below_cons, count_above_cons.
    rewrite ?count_below_app. rewrite count_below_app in IH.
    repeat case_decide; lia.
Qed.

Lemma inversions_move_parity (A mid B : list Z) (x : Z) :
  x ∉ mid → Nat.even (length mid) = true →
  Nat.even (inversions (A ++ x :: mid ++ B))
  = Nat.even (inversions (A ++ mid ++ x :: B)).
Proof.
  intros Hx Hlen.
  apply Nat.even_spec in Hlen as [k Hk].
  pose proof (inversions_app_Permutation A (x :: mid ++ B) (mid ++ x :: B)
                (Permutation_middle _ _ _)) as E1.
  pose proof (inversions_shift x mid B) as E2.
  pose proof (count_below_above x mid Hx) as E3.
  rewrite <-(Nat.even_add_mul_2 (inversions (A ++ x :: mid ++ B)) k).
  rewrite <-(Nat.even_add_mul_2 (inversions (A ++ mid ++ x :: B)) (count_below x mid)).
  f_equal. lia.
Qed.

Lemma list_insert_middle (pre post : list Z) (u y : Z) :
  <[length pre := y]> (pre ++ u :: post) = pre ++ y :: post.
Proof. induction pre as [|a pre IH]; simpl; [done|]. by rewrite IH. Qed.

Lemma swap_middle (pre mid post : list Z) (u v : Z) :
  <[(length pre + S (length mid))%nat := u]>
    (<[length pre := v]> (pre ++ u :: mid ++ v :: post))
  = pre ++ v :: mid ++ u :: post.
Proof.
  rewrite list_insert_middle.
  replace (length pre + S (length mid))%nat with (length (pre ++ v :: mid))
    by (rewrite length_app; simpl; lia).
  replace (pre ++ v :: mid ++ v :: post) with ((pre ++ v :: mid) ++ v :: post)
    by (by rewrite <-app_assoc).
  rewrite list_insert_middle. by rewrite <-app_assoc.
Qed.

Lemma swap_Permutation (pre mid post : list Z) (u v : Z) :
  pre ++ u :: mid ++ v :: post ≡ₚ pre ++ v :: mid ++ u :: post.
Proof.
  f_equiv. rewrite <-!(Permutation_middle mid). apply Permutation_swap.
Qed.

(** A list around two of its slots, and the same list with the two
    slots swapped. *)
Lemma swap_decompose (l : list Z) (i j : nat) (u v : Z) :
  (i < j)%nat → l !! i = Some u → l !! j = Some v →
  ∃ pre mid post,
    l = pre ++ u :: mid ++ v :: post
    ∧ length mid = (j - i - 1)%nat
    ∧ <[j := u]> (<[i := v]> l) = pre ++ v :: mid ++ u :: post.
Proof.
  intros Hij Hi Hj.
  assert (Hj' : drop (S i) l !! (j - i - 1)%nat = Some v).
  { rewrite lookup_drop. rewrite <-Hj. f_equal. lia. }
  pose proof (lookup_lt_Some _ _ _ Hj') as Hlen.
  assert (Hl : l = take i l ++ u :: take (j - i - 1) (drop (S i) l)
                   ++ v :: drop (S (j - i - 1)) (drop (S i) l)).
  { rewrite (take_drop_middle (drop (S i) l) _ v Hj').
    by rewrite (take_drop_middle l i u Hi). }
  assert (Hpre : length (take i l) = i).
  { rewrite length_take. apply lookup_lt_Some in Hi. lia. }
  assert (Hmid : length (take (j - i - 1) (drop (S i) l)) = (j - i - 1)%nat).
  { rewrite length_take. lia. }
  revert Hl Hpre Hmid.
  generalize (take i l) (take (j - i - 1) (drop (S i) l))
             (drop (S (j - i - 1)) (drop (S i) l)).
  intros pre mid post Hl Hpre Hmid. exists pre, mid, post.
  split_and!; [done|done|]. subst l.
  replace i with (length pre) by done.
  replace j with (length pre + S (length mid))%nat by lia.
  apply swap_middle.
Qed.

Lemma tile_row_app (l l' : list Z) : tile_row (l ++ l') = tile_row l ++ tile_row l'.
Proof. apply filter_app. Qed.

Lemma tile_row_tile (x : Z) (l : list Z) : x ≠ 0 → tile_row (x :: l) = x :: tile_row l.
Proof. intros Hx. unfold tile_row. by rewrite filter_cons_True. Qed.

Lemma tile_row_blank (l : list Z) : tile_row (0 :: l) = tile_row l.
Proof. unfold tile_row. by rewrite filter_cons_False by (intros H; by apply H). Qed.

Lemma tile_row_id (l : list Z) : 0 ∉ l → tile_row l = l.
Proof.
  induction l as [|y l IH]; intros H0; [done|].
  apply not_elem_of_cons in H0 as [Hy H0].
  rewrite tile_row_tile by done. by rewrite IH.
Qed.

(** The two states on either side of a move of the tile [x] across [mid]. *)
Lemma swap_parity (pre mid post : list Z) (x : Z) :
  NoDup (pre ++ 0 :: mid ++ x :: post) →
  Nat.even (length mid) = true →
  even_parity (pre ++ 0 :: mid ++ x :: post) = even_parity (pre ++ x :: mid ++ 0 :: post).
Proof.
  intros Hnd Hlen. unfold even_parity.
  apply NoDup_app in Hnd as (_ & _ & Hnd).
  apply NoDup_cons in Hnd as [H0 Hnd].
  apply NoDup_app in Hnd as (_ & Hmid & Hnd).
  apply NoDup_cons in Hnd as [_ _].
  assert (Hx0 : x ≠ 0).
  { intros ->. apply H0. apply elem_of_app. right. by left. }
  assert (Hm0 : tile_row mid = mid).
  { apply tile_row_id. intros Hin. apply H0. apply elem_of_app. by left. }
  assert (Hxm : x ∉ mid).
  { intros Hin. apply (Hmid x Hin). by left. }
  rewrite !tile_row_app, tile_row_blank, tile_row_tile by done.
  rewrite !tile_row_app, tile_row_tile, tile_row_blank by done.
  rewrite Hm0. symmetry. by apply inversions_move_parity.
Qed.

Lemma tile_index_distance (e : Z) (m : Move) :
  0 <= e < 9 → in_grid m = true → orthogonally_adjacent (cell_of e) m = true →
  let t := m.1 * grid_size_ + m.2 in
  0 <= t < 9 ∧ (t = e + 1 ∨ t = e - 1 ∨ t = e + 3 ∨ t = e - 3).
Proof.
  destruct m as [r c].
  unfold in_grid, orthogonally_adjacent, manhattan, cell_of, grid_size_. simpl.
  intros He Hg Hadj.
  pose proof (Z.quot_rem' e 3) as Hqr.
  pose proof (Z.rem_bound_pos e 3 ltac:(lia) ltac:(lia)) as Hr.
  lia.
Qed.

Lemma apply_move_parity (s s' : State) (m : Move) :
  valid_state s → apply_move s m = Some s' → even_parity s' = even_parity s.
Proof.
  intros Hv Hm. pose proof Hm as Hm'. unfold apply_move in Hm'.
  destruct (in_grid m) eqn:Hg; [|done]. simpl in Hm'.
  destruct (orthogonally_adjacent _ m) eqn:Hadj; [|done].
  destruct (find_empty_valid s Hv) as [He Hb].
  destruct (tile_index_distance _ _ He Hg Hadj) as [Ht Hd].
  pose proof (valid_NoDup s Hv) as Hnd.
  unfold array_swap, array_get, state_size in Hm'.
  assert ((0 <=? find_empty s) && (find_empty s <? 9) = true) as Hb1 by lia.
  assert ((0 <=? m.1 * grid_size_ + m.2) && (m.1 * grid_size_ + m.2 <? 9) = true)
    as Hb2 by lia.
  rewrite Hb1, Hb2, Hb in Hm'.
  destruct (s !! Z.to_nat (m.1 * grid_size_ + m.2)) as [x|] eqn:Hx; [|done].
  injection Hm' as <-.
  set (e := Z.to_nat (find_empty s)) in *.
  set (t := Z.to_nat (m.1 * grid_size_ + m.2)) in *.
  destruct (decide (e < t)%nat) as [Hlt|Hge].
  - destruct (swap_decompose s e t 0 x Hlt Hb Hx) as (pre & mid & post & Hs & Hlen & ->).
    rewrite Hs in Hnd |- *. symmetry. apply swap_parity; [done|].
    rewrite Hlen. assert (Hc : (t - e - 1 = 0 ∨ t - e - 1 = 2)%nat) by lia.
    by destruct Hc as [-> | ->].
  - assert (Hlt : (t < e)%nat) by lia.
    rewrite list_insert_insert_ne by lia.
    destruct (swap_decompose s t e x 0 Hlt Hx Hb) as (pre & mid & post & Hs & Hlen & ->).
    rewrite Hs in Hnd |- *. apply swap_parity.
    + by rewrite (swap_Permutation pre mid post 0 x).
    + rewrite Hlen. assert (Hc : (e - t - 1 = 0 ∨ e - t - 1 = 2)%nat) by lia.
      by destruct Hc as [-> | ->].
Qed.

Lemma solvable_even (s : State) : valid_state s → solvable s → even_parity s = true.
Proof.
  intros Hv [p Hp]. revert s Hv Hp. induction p as [|m p IH]; intros s Hv Hp; simpl in Hp.
  - by simplify_eq.
  - destruct (apply_move s m) as [s'|] eqn:Hm; [|done].
    rewrite <-(apply_move_parity s s' m Hv Hm).
    apply IH; [by eapply apply_move_valid|done].
Qed.

(** ** Every state of the even class is solvable *)

Lemma replay_valid (s t : State) (p : Path) :
  valid_state s → replay s p = Some t → valid_state t.
Proof.
  revert s. induction p as [|m p IH]; intros s Hv Hp; simpl in Hp.
  - by simplify_eq.
  - destruct (apply_move s m) as [s'|] eqn:Hm; [|done].
    apply (IH s'); [by eapply apply_move_valid|done].
Qed.

Lemma replay_parity (s t : State) (p : Path) :
  valid_state s → replay s p = Some t → even_parity t = even_parity s.
Proof.
  revert s. induction p as [|m p IH]; intros s Hv Hp; simpl in Hp.
  - by simplify_eq.
  - destruct (apply_move s m) as [s'|] eqn:Hm; [|done].
    rewrite <-(apply_move_parity s s' m Hv Hm).
    apply IH; [by eapply apply_move_valid|done].
Qed.

Section Tables.
Variable target : State → Prop.
Variable keep : State → bool.

Lemma table_visit_sound (s' : State) (back : Move)
    (acc : Pmap (list Z) * list (list Z)) (m : Move) :
  can_reach target s' →
  (∀ c s, acc.1 !! c = Some s → can_reach target s) → Forall (can_reach target) acc.2 →
  (∀ c s, (table_visit keep s' back acc m).1 !! c = Some s → can_reach target s)
  ∧ Forall (can_reach target) (table_visit keep s' back acc m).2.
Proof.
  intros (p & t & Hp & Ht) HT Hfr. unfold table_visit.
  destruct (apply_move s' m) as [s|]; [|done].
  destruct (keep s); [|done].
  destruct (acc.1 !! state_code s); [done|].
  destruct (apply_move s back) as [s''|] eqn:Hback; [|done].
  unfold state_eqb. case_bool_decide as Heq; [|done]. subst s''.
  assert (Hs : can_reach target s).
  { exists (back :: p), t. simpl. by rewrite Hback. }
  simpl. split.
  - intros c u [[_ <-]|[_ Hu]]%lookup_insert_Some; [done|by eapply HT].
  - by constructor.
Qed.

Lemma table_expand_sound (acc : Pmap (list Z) * list (list Z)) (s' : State) :
  can_reach target s' →
  (∀ c s, acc.1 !! c = Some s → can_reach target s) → Forall (can_reach target) acc.2 →
  (∀ c s, (table_expand keep acc s').1 !! c = Some s → can_reach target s)
  ∧ Forall (can_reach target) (table_expand keep acc s').2.
Proof.
  intros Hs'. unfold table_expand. generalize moves. intros ms. revert acc.
  induction ms as [|move ms IH]; intros acc HT Hfr; simpl; [done|].
  destruct (table_visit_sound s' (cell_of (find_empty s')) acc
              (tile_cell (find_empty s') move) Hs' HT Hfr) as [HT' Hfr'].
  by apply IH.
Qed.

Lemma table_layers_sound (fuel : nat) (T : Pmap (list Z)) (frontier : list (list Z)) :
  (∀ c s, T !! c = Some s → can_reach target s) → Forall (can_reach target) frontier →
  ∀ c s, table_layers keep fuel T frontier !! c = Some s → can_reach target s.
Proof.
  revert T frontier. induction fuel as [|fuel IH]; intros T frontier HT Hfr; [done|].
  simpl. destruct frontier as [|s0 frontier]; [done|].
  assert (Hfold : ∀ fr acc,
            Forall (can_reach target) fr →
            (∀ c s, acc.1 !! c = Some s → can_reach target s) →
            Forall (can_reach target) acc.2 →
            (∀ c s, (fold_left (table_expand keep) fr acc).1 !! c = Some s
                    → can_reach target s)
            ∧ Forall (can_reach target) (fold_left (table_expand keep) fr acc).2).
  { induction fr as [|s' fr IHfr]; intros acc Hfr' HT' Hacc; simpl; [done|].
    apply Forall_cons in Hfr' as [Hs' Hfr'].
    destruct (table_expand_sound acc s' Hs' HT' Hacc) as [? ?]. by apply IHfr. }
  destruct (Hfold (s0 :: frontier) (T, []) Hfr HT (Forall_nil_2 _)) as [HT' Hfr'].
  by apply IH.
Qed.

Lemma table_from_sound (starts : list (list Z)) (s : State) :
  Forall target starts → in_table (table_from keep starts) s = true →
  can_reach target s.
Proof.
  intros Hstarts. unfold in_table.
  destruct (table_from keep starts !! state_code s) as [s'|] eqn:Hl; [|done].
  unfold state_eqb. case_bool_decide as Heq; [|done]. subst s'. intros _.
  assert (Hreach : Forall (can_reach target) starts).
  { eapply Forall_impl; [exact Hstarts|]. intros t Ht. by exists [], t. }
  revert Hl. unfold table_from. apply table_layers_sound; [|done].
  intros c t Hc. apply elem_of_list_to_map_2 in Hc.
  apply list_elem_of_fmap in Hc as (u & [= -> ->] & Hu).
  rewrite Forall_forall in Hreach. by apply Hreach.
Qed.

End Tables.

Lemma remove_one_Permutation (x : Z) (l : list Z) : x ∈ l → l ≡ₚ x :: remove_one x l.
Proof.
  induction l as [|y l IH]; intros Hx; [by apply elem_of_nil in Hx|].
  simpl. case_decide as Hy; [by subst|].
  apply elem_of_cons in Hx as [->|Hx]; [done|].
  rewrite (IH Hx) at 1. apply Permutation_swap.
Qed.

Lemma all_arrangements_spec (n : nat) (P : list Z → bool) (avail chosen rest : list Z) :
  length avail = n →
  all_arrangements n avail chosen P = true →
  rest ≡ₚ avail → P (reverse chosen ++ rest) = true.
Proof.
  revert avail chosen rest.
  induction n as [|n IH]; intros avail chosen rest Hlen Hall Hperm.
  - destruct avail; [|done]. apply Permutation_nil_r in Hperm as ->.
    by rewrite app_nil_r.
  - destruct rest as [|x rest].
    { symmetry in Hperm. apply Permutation_nil_r in Hperm. by subst avail. }
    simpl in Hall. rewrite forallb_forall in Hall.
    assert (Hx : x ∈ avail) by (rewrite <-Hperm; by left).
    assert (Hx' : x ∈ remove_dups avail) by by apply elem_of_remove_dups.
    specialize (Hall x (proj1 (list_elem_of_In _ _) Hx')).
    assert (Hrest : rest ≡ₚ remove_one x avail).
    { apply (Permutation_cons_inv (a := x)).
      by rewrite Hperm, <-remove_one_Permutation. }
    specialize (IH (remove_one x avail) (x :: chosen) rest).
    rewrite reverse_cons, <-app_assoc in IH. apply IH; [|done|done].
    rewrite <-Hrest. rewrite <-Hperm in Hlen. simpl in Hlen. lia.
Qed.

(** *** Moves do not look at the tiles *)

Section Relabel.
Variable f : Z → Z.
Hypothesis f_blank : ∀ x, f x = 0 ↔ x = 0.

Lemma find_empty_from_fmap (i : Z) (l : list Z) :
  find_empty_from i (f <$> l) = find_empty_from i l.
Proof.
  revert i. induction l as [|x l IH]; intros i; [done|].
  rewrite fmap_cons. simpl. rewrite IH.
  destruct (Z.eqb_spec (f x) 0) as [H0|H0]; destruct (Z.eqb_spec x 0) as [Hx|Hx];
    try done.
  - exfalso. apply Hx. by apply f_blank.
  - exfalso. apply H0. by apply f_blank.
Qed.

Lemma array_swap_fmap (a : State) (i j : Z) :
  array_swap (f <$> a) i j = fmap (M := list) f <$> array_swap a i j.
Proof.
  unfold array_swap, array_get.
  destruct ((0 <=? i) && (i <? state_size)); destruct ((0 <=? j) && (j <? state_size));
    rewrite ?list_lookup_fmap;
    destruct (a !! Z.to_nat i); destruct (a !! Z.to_nat j); simpl; try done.
  by rewrite !list_fmap_insert.
Qed.

Lemma apply_move_fmap (s : State) (m : Move) :
  apply_move (f <$> s) m = fmap (M := list) f <$> apply_move s m.
Proof.
  unfold apply_move, find_empty. rewrite find_empty_from_fmap.
  destruct (in_grid m && _); [|done]. apply array_swap_fmap.
Qed.

Lemma replay_fmap (s : State) (p : Path) :
  replay (f <$> s) p = fmap (M := list) f <$> replay s p.
Proof.
  revert s. induction p as [|m p IH]; intros s; simpl; [done|].
  rewrite apply_move_fmap. destruct (apply_move s m) as [s'|]; simpl; [apply IH|done].
Qed.

End Relabel.

Lemma abstract_blank (x : Z) : abstract x = 0 ↔ x = 0.
Proof. unfold abstract. destruct ((0 <=? x) && (x <=? 3)) eqn:H; lia. Qed.

Lemma abstract_top_row (s : State) :
  take 3 (abstract <$> s) = [1; 2; 3] → take 3 s = [1; 2; 3].
Proof.
  destruct s as [|a [|b [|c s]]]; try done.
  rewrite !fmap_cons. simpl. unfold abstract. intros [= Ha Hb Hc].
  destruct ((0 <=? a) && (a <=? 3)) eqn:Ea; [|lia].
  destruct ((0 <=? b) && (b <=? 3)) eqn:Eb; [|lia].
  destruct ((0 <=? c) && (c <=? 3)) eqn:Ec; [|lia]. by subst.
Qed.

(** The two tables hold what they were built for: checked by running
    the breadth-first constructions and the enumerations. *)
Lemma top_row_table_covers : top_row_covered top_row_table = true.
Proof. vm_cast_no_check (eq_refl true). Qed.

Lemma bottom_table_covers : bottom_covered bottom_table = true.
Proof. vm_cast_no_check (eq_refl true). Qed.

Lemma top_row_table_sound (s : State) :
  in_table top_row_table s = true → can_reach top_row_done s.
Proof.
  unfold top_row_table. apply table_from_sound.
  unfold top_row_starts, top_row_done. by repeat constructor.
Qed.

Lemma bottom_table_sound (s : State) : in_table bottom_table s = true → solvable s.
Proof.
  unfold bottom_table. intros Hin.
  apply (table_from_sound (λ t, t = goal_state_)) in Hin as (p & t & Hp & ->).
  - by exists p.
  - by repeat constructor.
Qed.

Lemma top_row_covered_spec (T : Pmap (list Z)) (s : State) :
  top_row_covered T = true → valid_state s → in_table T (abstract <$> s) = true.
Proof.
  unfold top_row_covered. intros Hc Hv.
  assert (Hperm : abstract <$> s ≡ₚ abstract <$> goal_state_)
    by by apply fmap_Permutation.
  exact (all_arrangements_spec 9 (in_table T) (abstract <$> goal_state_)
           [] (abstract <$> s) eq_refl Hc Hperm).
Qed.

Lemma bottom_covered_spec (T : Pmap (list Z)) (s : State) :
  bottom_covered T = true →
  valid_state s → top_row_done s → even_parity s = true → in_table T s = true.
Proof.
  unfold bottom_covered, top_row_done. intros Hc Hv Htop Heven.
  rewrite <-(take_drop 3 s) in Hv, Heven |- *. rewrite Htop in Hv, Heven |- *.
  assert (Hperm : drop 3 s ≡ₚ [4; 5; 6; 7; 8; 0]).
  { apply (Permutation_app_inv_l [1; 2; 3]). exact Hv. }
  pose proof (all_arrangements_spec 6 (λ s, implb (even_parity s) (in_table T s))
                [4; 5; 6; 7; 8; 0] [3; 2; 1] (drop 3 s) eq_refl Hc Hperm) as Hs.
  change (reverse [3; 2; 1]) with [1; 2; 3] in Hs. cbv beta in Hs.
  by rewrite Heven in Hs.
Qed.

(** First stage: from every valid state the top row can be put in place. *)
Lemma top_row_reachable (s : State) :
  valid_state s → can_reach top_row_done s.
Proof.
  intros Hv.
  destruct (top_row_table_sound (abstract <$> s)
              (top_row_covered_spec top_row_table s top_row_table_covers Hv))
    as (p & t & Hp & Ht).
  rewrite (replay_fmap abstract abstract_blank) in Hp.
  destruct (replay s p) as [s1|] eqn:Hs1; [|done]. simpl in Hp. simplify_eq.
  exists p, s1. split; [done|]. by apply abstract_top_row.
Qed.

(** Second stage: with the top row in place, the even class is solvable. *)
Lemma bottom_solvable (s : State) :
  valid_state s → top_row_done s → even_parity s = true → solvable s.
Proof.
  intros Hv Htop Heven. apply bottom_table_sound.
  exact (bottom_covered_spec bottom_table s bottom_table_covers Hv Htop Heven).
Qed.

Lemma even_solvable (s : State) : valid_state s → even_parity s = true → solvable s.
Proof.
  intros Hv Heven.
  destruct (top_row_reachable s Hv) as (p1 & s1 & Hp1 & Htop).
  destruct (bottom_solvable s1) as [p2 Hp2]; [by eapply replay_valid|done| |].
  - by rewrite (replay_parity s s1 p1).
  - exists (p1 ++ p2). by rewrite replay_app, Hp1.
Qed.

(** ** Arrays that are not valid states *)

Lemma array_swap_blank (a a' : State) (i j : Z) :
  has_blank a → array_swap a i j = Some a' → has_blank a'.
Proof.
  unfold array_swap, array_get, has_blank. intros [Hlen Hin] Hs.
  destruct ((0 <=? i) && (i <? state_size)); [|done].
  destruct (a !! Z.to_nat i) as [x|] eqn:Hx; [|done].
  destruct ((0 <=? j) && (j <? state_size)); [|done].
  destruct (a !! Z.to_nat j) as [y|] eqn:Hy; [|done].
  injection Hs as <-.
  assert (Hp : <[Z.to_nat j:=x]> (<[Z.to_nat i:=y]> a) ≡ₚ a)
    by by rewrite Permutation_insert_swap.
  split; [by rewrite Hp|by rewrite Hp].
Qed.

Lemma visit_blank (cur : State) (st : search) (move : Move) :
  has_blank cur → frontier_blank st →
  match visit cur (find_empty cur) st move with
  | inl f => f = OutOfRange
  | inr st' => frontier_blank st'
  end.
Proof.
  intros Hcur Hf. unfold visit.
  destruct (_ && _) eqn:Hgrid; [|done].
  destruct Hcur as [Hlen Hin].
  destruct (find_empty_from_found cur 0 Hin) as (k & Hk & Hl & Hlt).
  fold (find_empty cur) in Hk.
  destruct (array_swap _ _ _) as [n|] eqn:Hn.
  2: { exfalso. unfold array_swap in Hn.
       destruct (array_get_Some cur (find_empty cur) Hlen) as [x Hx]; [lia|].
       rewrite Hx in Hn.
       destruct (array_get_Some cur
                   ((Z.quot (find_empty cur) grid_size_ + move.1) * grid_size_
                    + (Z.rem (find_empty cur) grid_size_ + move.2)) Hlen) as [y Hy].
       { unfold grid_size_ in *. lia. }
       by rewrite Hy in Hn. }
  pose proof (array_swap_blank _ _ _ _ (conj Hlen Hin) Hn) as Hnb.
  destruct (g_score st !! cur) as [gc|]; [|done].
  destruct (g_score st !! n) as [gn|]; [destruct (gc + 1 <? gn)|];
    try case_decide; try done.
  all: intros x Hx; simpl in Hx; rewrite heap_push_Permutation in Hx.
  all: apply elem_of_cons in Hx as [->|Hx]; [done|by apply Hf].
Qed.

Lemma expand_blank (cur : State) (st : search) (ms : list Move) :
  has_blank cur → frontier_blank st →
  match expand cur (find_empty cur) st ms with
  | inl f => f = OutOfRange
  | inr st' => frontier_blank st'
  end.
Proof.
  intros Hcur. revert st. induction ms as [|move ms IH]; intros st Hf; simpl; [done|].
  pose proof (visit_blank cur st move Hcur Hf) as Hv.
  destruct (visit cur (find_empty cur) st move) as [f|st']; [done|]. by apply IH.
Qed.

Lemma search_loop_no_fault (fuel n : nat) (st : search) (f : fault) :
  frontier_scored st → frontier_blank st → search_loop fuel n st ≠ Some (Faulted f).
Proof.
  revert st.
  assert (Hstep : ∀ st, frontier_scored st → frontier_blank st →
            match step fuel st with
            | Continue st' => frontier_scored st' ∧ frontier_blank st'
            | Stop r => r ≠ Some (Faulted f)
            end).
  { intros st Hs Hb. unfold step. destruct (open_heap st) as [|top rest] eqn:Hheap; [done|].
    case_decide; [by destruct (reconstruct_move_path _ _ _)|].
    set (st1 := Records rest _ _ _).
    assert (Hs1 : frontier_scored st1).
    { intros x Hx. apply Hs. rewrite Hheap. by right. }
    assert (Hb1 : frontier_blank st1).
    { intros x Hx. apply Hb. rewrite Hheap. by right. }
    assert (Hg1 : is_Some (g_score st1 !! top.2)).
    { apply (Hs top). rewrite Hheap. by left. }
    assert (Htop : has_blank top.2).
    { apply (Hb top). rewrite Hheap. by left. }
    pose proof (expand_scored top.2 (find_empty top.2) st1 moves Hs1 Hg1) as He.
    pose proof (expand_blank top.2 st1 moves Htop Hb1) as He'.
    destruct (expand _ _ _ _) as [f'|st2]; [|done]. by subst f'. }
  induction n as [|n IH]; intros st Hs Hb; simpl; specialize (Hstep st Hs Hb);
    destruct (step fuel st) as [st'|r]; try done. destruct Hstep. by apply IH.
Qed.

Lemma solve_blank_no_fault (fuel : nat) (initial : State) (f : fault) :
  has_blank initial → solve_with_a_star fuel initial ≠ Some (Faulted f).
Proof.
  intros Hb. unfold solve_with_a_star. case_decide; [done|].
  apply search_loop_no_fault.
  - intros e He. simpl in *.
    apply list_elem_of_singleton in He as ->. simpl. rewrite lookup_insert_eq. eauto.
  - intros e He. simpl in *. by apply list_elem_of_singleton in He as ->.
Qed.

Lemma solve_no_blank_faults (fuel : nat) (initial : State) :
  0 ∉ initial → solve_with_a_star fuel initial = Some (Faulted OutOfBounds).
Proof.
  intros Hb. unfold solve_with_a_star.
  rewrite decide_False by (intros ->; apply Hb; unfold goal_state_; set_solver).
  assert (Hstep : step fuel (seed initial) = Stop (Some (Faulted OutOfBounds))).
  { unfold step, seed. cbn [open_heap heap_push snd].
    rewrite decide_False by (intros ->; apply Hb; unfold goal_state_; set_solver).
    unfold find_empty. rewrite find_empty_from_missing by done. reflexivity. }
  destruct fuel; simpl; by rewrite Hstep.
Qed.

Lemma small_state_Permutation (s s' : State) :
  s' ≡ₚ s → small_state s → small_state s'.
Proof. intros Hp [Hlen Hall]. split; by rewrite Hp. Qed.

Lemma heuristic_term_small (i num : Z) :
  0 <= i < 9 → - VALUE_BOUND <= num <= VALUE_BOUND →
  0 <= heuristic_term i num <= VALUE_BOUND + 7.
Proof.
  intros Hi Hnum. split; [apply heuristic_term_nonneg|].
  unfold heuristic_term, grid_size_, VALUE_BOUND in *. destruct (num =? 0); [lia|]. cbv zeta.
  pose proof (Z.quot_rem' i 3). pose proof (Z.rem_bound_pos i 3).
  pose proof (Z.quot_rem' (num - 1) 3). pose proof (Z.rem_bound_abs (num - 1) 3).
  lia.
Qed.

Lemma heuristic_from_small (i : Z) (rest : list Z) (acc : Z) :
  0 <= i → i + Z.of_nat (length rest) <= 9 →
  Forall (λ x, - VALUE_BOUND <= x <= VALUE_BOUND) rest →
  heuristic_from i rest acc <= acc + (VALUE_BOUND + 7) * Z.of_nat (length rest).
Proof.
  revert i acc. induction rest as [|x rest IH]; intros i acc Hi Hlen Hall; simpl.
  - lia.
  - apply Forall_cons in Hall as [Hx Hall]. simpl length in Hlen.
    assert (Ht : 0 <= heuristic_term i x <= VALUE_BOUND + 7)
      by (apply heuristic_term_small; [lia|done]).
    assert (IH' : heuristic_from (i + 1) rest (acc + heuristic_term i x)
                  <= acc + heuristic_term i x + (VALUE_BOUND + 7) * Z.of_nat (length rest))
      by (apply IH; [lia|lia|done]).
    unfold VALUE_BOUND in *. lia.
Qed.

Lemma heuristic_small (s : State) :
  small_state s → 0 <= heuristic s <= HEURISTIC_BOUND.
Proof.
  intros [Hlen Hall]. unfold heuristic. split; [apply heuristic_from_nonneg|].
  assert (H : heuristic_from 0 s 0 <= 0 + (VALUE_BOUND + 7) * Z.of_nat (length s))
    by (apply heuristic_from_small; [lia|lia|done]).
  rewrite Hlen in H. unfold HEURISTIC_BOUND, VALUE_BOUND in *. lia.
Qed.

(** The arrangements of an array form a finite set. *)
Lemma arrangements_exist (initial : State) :
  ∃ universe : gset (list Z), ∀ s, s ≡ₚ initial → s ∈ universe.
Proof.
  exists (list_to_set (permutations initial)). intros s Hs.
  apply elem_of_list_to_set, permutations_Permutation. by symmetry.
Qed.

Lemma length_permutations_length (l l' : list Z) :
  length l = length l' → length (permutations l) = length (permutations l').
Proof.
  revert l'. induction l as [|x l IH]; intros [|x' l'] Hlen; try done.
  rewrite !length_permutations_cons. simpl in Hlen.
  rewrite (IH l') by lia. f_equal. lia.
Qed.

Lemma length_permutations_nine (l : list Z) :
  length l = 9%nat → Z.of_nat (length (permutations l)) = state_count.
Proof.
  intros Hlen. rewrite (length_permutations_length l goal_state_) by done.
  apply length_permutations_goal.
Qed.

Lemma arrangement_keys_count (initial : State) (g : gmap (list Z) Z) :
  length initial = 9%nat → (∀ s x, g !! s = Some x → s ≡ₚ initial) →
  Z.of_nat (size g) <= state_count.
Proof.
  intros Hlen Hg. rewrite <-(length_permutations_nine initial Hlen), <-size_dom.
  apply inj_le, submseteq_length, NoDup_submseteq; [apply NoDup_elements|].
  intros s Hs. apply elem_of_elements, elem_of_dom in Hs as [x Hx].
  apply permutations_Permutation. symmetry. by apply (Hg s x).
Qed.

Lemma array_swap_Permutation (a a' : State) (i j : Z) :
  array_swap a i j = Some a' → a' ≡ₚ a.
Proof.
  unfold array_swap, array_get. intros Hs.
  destruct ((0 <=? i) && (i <? state_size)); [|done].
  destruct (a !! Z.to_nat i) as [x|] eqn:Hx; [|done].
  destruct ((0 <=? j) && (j <? state_size)); [|done].
  destruct (a !! Z.to_nat j) as [y|] eqn:Hy; [|done].
  injection Hs as <-. by rewrite Permutation_insert_swap.
Qed.

Lemma apply_move_Permutation (s s' : State) (m : Move) :
  apply_move s m = Some s' → s' ≡ₚ s.
Proof.
  unfold apply_move. destruct (in_grid m && _); [|done]. apply array_swap_Permutation.
Qed.

(** One pass of the loop body on an array with a blank. *)
Lemma visit_sound_blank (cur : State) (st : search) (move : Move) (gc : Z) :
  has_blank cur → move ∈ moves → g_score st !! cur = Some gc →
  ∃ st', visit cur (find_empty cur) st move = inr st' ∧ visit_spec cur st move st'.
Proof.
  intros [Hlen Hin] Hm Hg. unfold visit.
  change (Z.quot (find_empty cur) grid_size_ + move.1) with (tile_cell (find_empty cur) move).1.
  change (Z.rem (find_empty cur) grid_size_ + move.2) with (tile_cell (find_empty cur) move).2.
  set (tile := tile_cell (find_empty cur) move).
  change ((0 <=? tile.1) && (tile.1 <? grid_size_) && (0 <=? tile.2) && (tile.2 <? grid_size_))
    with (in_grid tile).
  destruct (in_grid tile) eqn:Hgrid; cbv zeta.
  - assert (He : 0 <= find_empty cur < 9).
    { destruct (find_empty_from_found cur 0 Hin) as (k & Hk & _ & Hlt).
      unfold find_empty. lia. }
    pose proof (tile_index_bounds _ _ He Hgrid) as Ht. fold tile in Ht.
    assert (Hn : is_Some (array_swap cur (find_empty cur) (tile.1 * grid_size_ + tile.2))).
    { unfold array_swap.
      destruct (array_get_Some cur _ Hlen He) as [x ->].
      by destruct (array_get_Some cur _ Hlen Ht) as [y ->]. }
    destruct Hn as [n Hn]. rewrite Hn, Hg.
    assert (Hn' : apply_move cur tile = Some n) by (by unfold tile; rewrite apply_move_tile).
    assert (Htile : (tile.1, tile.2) = tile) by by destruct tile.
    rewrite Htile.
    destruct (g_score st !! n) as [gn|] eqn:Hgn.
    + destruct (Z.ltb_spec (gc + 1) gn) as [Hlt|Hge].
      * case_decide.
        -- eexists; split; [done|]. eapply visit_update; eauto.
           intros ? ?. simplify_eq. lia.
        -- eexists; split; [done|]. eapply visit_push; eauto.
           intros ? ?. simplify_eq. lia.
      * eexists; split; [done|]. eapply visit_keep; eauto.
    + case_decide.
      * eexists; split; [done|]. eapply visit_update; eauto. intros ? ?. simplify_eq.
      * eexists; split; [done|]. eapply visit_push; eauto. intros ? ?. simplify_eq.
  - eexists; split; [done|]. by apply visit_off_grid.
Qed.

Section Wide.
Variable initial : State.
Variable universe : gset (list Z).
Hypothesis initial_small : small_state initial.
Hypothesis universe_arrangements : ∀ s, s ≡ₚ initial → s ∈ universe.

Lemma visit_spec_wide (cur : State) (st st' : search) (move : Move) :
  wide_inv initial st → visit_spec cur st move st' →
  wide_inv initial st' ∧ progress universe st' st.
Proof using initial_small universe_arrangements.
  intros Hinv Hv.
  assert (Himp : ∀ n gc h o m,
            apply_move cur m = Some n → g_score st !! cur = Some gc →
            (∀ gn, g_score st !! n = Some gn → gc + 1 < gn) →
            (∀ e, e ∈ h → e = (gc + 1 + heuristic n, n) ∨ e ∈ open_heap st) →
            wide_inv initial
              (Records h (<[n := gc + 1]> (g_score st)) (<[n := (cur, m)]> (came_from st)) o)
            ∧ progress universe
              (Records h (<[n := gc + 1]> (g_score st)) (<[n := (cur, m)]> (came_from st)) o)
              st).
  { intros n gc h o m Hn Hgc Himp Hh.
    destruct (wide_keys _ _ Hinv cur gc Hgc) as [Hcur [Hgc0 Hgclt]].
    assert (Hnp : n ≡ₚ initial) by (by rewrite (apply_move_Permutation _ _ _ Hn)).
    assert (Hkeys : ∀ s g, <[n := gc + 1]> (g_score st) !! s = Some g →
              s ≡ₚ initial ∧ 0 <= g < Z.of_nat (size (<[n := gc + 1]> (g_score st)))).
    { intros s g. destruct (g_score st !! n) as [gn|] eqn:Hgn.
      - rewrite map_size_insert_Some by eauto.
        specialize (Himp gn eq_refl).
        destruct (wide_keys _ _ Hinv n gn Hgn) as [_ Hgn'].
        intros [[<- <-]|[_ Hs]]%lookup_insert_Some; [split; [done|lia]|].
        by apply (wide_keys _ _ Hinv).
      - rewrite map_size_insert_None by done.
        intros [[<- <-]|[_ Hs]]%lookup_insert_Some; [split; [done|lia]|].
        destruct (wide_keys _ _ Hinv s g Hs) as [? ?]. split; [done|lia]. }
    split; [split; simpl|].
    - exact Hkeys.
    - intros e He. destruct (Hh e He) as [->|He'].
      + simpl. rewrite lookup_insert_eq. split; [eauto|].
        destruct (Hkeys n (gc + 1) (lookup_insert_eq _ _ _)) as [_ Hlt].
        pose proof (arrangement_keys_count initial (<[n := gc + 1]> (g_score st))
                      (proj1 initial_small) (λ s x Hs, proj1 (Hkeys s x Hs))) as Hc.
        pose proof (heuristic_small n (small_state_Permutation _ _ Hnp initial_small)).
        lia.
      + destruct (wide_heap _ _ Hinv e He') as [Hs Hf]. split; [|done].
        rewrite lookup_insert. case_decide; eauto.
    - right. unfold unseen. simpl. destruct (g_score st !! n) as [gn|] eqn:Hgn.
      + right. split.
        * f_equal. f_equal. rewrite dom_insert_L.
          apply subseteq_union_1_L, singleton_subseteq_l, elem_of_dom. eauto.
        * apply (g_total_update _ _ _ gn); [done|]. specialize (Himp gn eq_refl). lia.
      + left. apply subset_size. rewrite dom_insert_L.
        assert (Hnin : n ∉ dom (g_score st)) by by apply not_elem_of_dom.
        assert (Hu : n ∈ universe) by by apply universe_arrangements.
        split.
        * intros s [Hs Hd]%elem_of_difference. apply elem_of_difference.
          split; [done|]. intros Hs'. apply Hd, elem_of_union. by right.
        * intros Hsub. specialize (Hsub n). rewrite !elem_of_difference in Hsub.
          destruct Hsub as [_ Hd]; [done|]. apply Hd, elem_of_union. left.
          by apply elem_of_singleton. }
  destruct Hv as [?|? ? ? ? ? ? ?|n gc Hn Hgc Himp' Ho|n gc Hn Hgc Himp' Ho].
  - split; [done|by left].
  - split; [done|by left].
  - apply Himp; [done..|]. intros e He. by right.
  - apply Himp; [done..|]. intros e. rewrite heap_push_Permutation.
    intros [->|He]%elem_of_cons; [by left|by right].
Qed.

Lemma expand_spec_wide (cur : State) (st st' : search) (ms : list Move) :
  wide_inv initial st → expand_spec cur st ms st' →
  wide_inv initial st' ∧ progress universe st' st.
Proof using initial_small universe_arrangements.
  intros Hinv He. induction He as [st|st st1 st2 move ms Hv He IH].
  - split; [done|by left].
  - destruct (visit_spec_wide _ _ _ _ Hinv Hv) as [Hinv1 Hp1].
    destruct (IH Hinv1) as [Hinv2 Hp2]. split; [done|].
    unfold progress in *. destruct Hp2 as [->|Hp2]; [done|].
    destruct Hp1 as [->|Hp1]; [by right|]. right. lia.
Qed.

Lemma expand_sound_blank (cur : State) (st : search) (ms : list Move) :
  has_blank cur → (∀ m, m ∈ ms → m ∈ moves) → is_Some (g_score st !! cur) →
  ∃ st', expand cur (find_empty cur) st ms = inr st' ∧ expand_spec cur st ms st'.
Proof.
  intros Hb. revert st. induction ms as [|move ms IH]; intros st Hms [gc Hgc]; simpl.
  - eexists; split; [done|constructor].
  - destruct (visit_sound_blank cur st move gc Hb) as (st1 & -> & Hspec); [set_solver|done|].
    destruct (IH st1) as (st2 & -> & Hspec2).
    + set_solver.
    + by apply (visit_spec_mono _ _ _ _ Hspec).
    + eexists; split; [done|]. by econstructor.
Qed.

(** One iteration on an array with a blank: the popped state is the
    goal, or it is expanded and the measure goes down. *)
Lemma step_wide (fuel : nat) (st : search) :
  0 ∈ initial → wide_inv initial st →
  match step fuel st with
  | Continue st' => wide_inv initial st' ∧ measure_lt universe st' st
  | Stop r =>
      (open_heap st = [] ∧ r = Some (Returned None)) ∨
      (∃ f rest, open_heap st = (f, goal_state_) :: rest)
  end.
Proof using initial_small universe_arrangements.
  intros Hblank Hinv. unfold step.
  destruct (open_heap st) as [|top rest] eqn:Hheap; [by left|].
  case_decide as Hgoal.
  { right. destruct top as [f s]. simpl in *. subst s. eauto. }
  fold (popped st top rest). set (st1 := popped st top rest) in *.
  assert (Hin : top ∈ open_heap st) by (rewrite Hheap; by left).
  destruct (wide_heap _ _ Hinv top Hin) as [[g Hg] _].
  destruct (wide_keys _ _ Hinv _ _ Hg) as [Htop _].
  assert (Hb : has_blank top.2).
  { split; [by rewrite Htop; apply initial_small|by rewrite Htop]. }
  assert (Hinv1 : wide_inv initial st1).
  { split; [apply Hinv|]. intros e He. apply (wide_heap _ _ Hinv). rewrite Hheap. by right. }
  destruct (expand_sound_blank top.2 st1 moves Hb) as (st2 & -> & Hspec); [done|by eauto|].
  destruct (expand_spec_wide _ _ _ _ Hinv1 Hspec) as [Hinv2 Hp].
  split; [done|].
  assert (Hlen : length (open_heap st) = S (length (open_heap st1))) by by rewrite Hheap.
  unfold measure_lt.
  change (unseen universe st) with (unseen universe st1).
  change (g_score st) with (g_score st1).
  destruct Hp as [->|[Hlt|[Heq Hlt]]]; [|by left|right; by left].
  right; right. split_and!; [done|done|lia].
Qed.

Lemma search_loop_terminates_wide :
  0 ∈ initial → ¬ valid_state initial →
  ∀ (a b c : nat) (st : search),
    unseen universe st = a → g_total (g_score st) = b → length (open_heap st) = c →
    wide_inv initial st →
    ∃ n, ∀ fuel, search_loop fuel n st = Some (Returned None).
Proof using initial_small universe_arrangements.
  intros Hblank Hnv.
  induction a as [a IHa] using lt_wf_ind.
  induction b as [b IHb] using lt_wf_ind.
  induction c as [c IHc] using lt_wf_ind.
  intros st Ha Hb Hc Hinv.
  assert (Hnogoal : ∀ f rest, open_heap st ≠ (f, goal_state_) :: rest).
  { intros f rest Hheap. apply Hnv. unfold valid_state.
    destruct (wide_heap _ _ Hinv (f, goal_state_)) as [[g Hg] _]; [rewrite Hheap; by left|].
    symmetry. by apply (wide_keys _ _ Hinv _ _ Hg). }
  pose proof (step_wide 0 st Hblank Hinv) as Hs.
  destruct (step 0 st) as [st'|r0] eqn:Hstep0.
  - destruct Hs as (Hinv' & Hlt).
    assert (Hrec : ∃ n, ∀ fuel, search_loop fuel n st' = Some (Returned None)).
    { destruct Hlt as [Hlt|[[Heq Hlt]|(Heq1 & Heq2 & Hlt)]].
      - eapply (IHa (unseen universe st')); [lia|done..].
      - eapply (IHb (g_total (g_score st'))); [lia|congruence|done..].
      - eapply (IHc (length (open_heap st'))); [lia|congruence|congruence|done..]. }
    destruct Hrec as (n & Hrec). exists (S n). intros fuel. simpl.
    pose proof (step_mono 0 fuel st) as Hm. rewrite Hstep0 in Hm. by rewrite Hm by lia.
  - destruct Hs as [[Hheap ->]|(f & rest & Hheap)]; [|by destruct (Hnogoal f rest)].
    exists 0%nat. intros fuel. simpl.
    pose proof (step_mono 0 fuel st) as Hm. rewrite Hstep0 in Hm. by rewrite Hm by lia.
Qed.

End Wide.

Lemma seed_wide (initial : State) :
  small_state initial → wide_inv initial (seed initial).
Proof.
  intros Hs. split; simpl.
  - intros s g [[<- <-]|[_ ?]]%lookup_insert_Some; [|done].
    rewrite map_size_insert_None by done. split; [done|]. rewrite map_size_empty. lia.
  - intros e ->%list_elem_of_singleton. simpl. rewrite lookup_insert_eq. split; [eauto|].
    pose proof (heuristic_small initial Hs). unfold state_count. lia.
Qed.

Lemma loop_state_wide (initial : State) (st : search) :
  small_state initial → 0 ∈ initial → loop_state initial st → wide_inv initial st.
Proof.
  intros Hs Hb Hl. induction Hl as [|fuel st st' Hl IH Hstep].
  - by apply seed_wide.
  - destruct (arrangements_exist initial) as [U HU].
    pose proof (step_wide initial U Hs HU fuel st Hb IH) as Hw. rewrite Hstep in Hw.
    by destruct Hw.
Qed.

(** On nine integers with a blank that are not a valid state the call
    returns, and returns absent. *)
Lemma solve_wide_absent (initial : State) :
  small_state initial → 0 ∈ initial → ¬ valid_state initial →
  ∃ fuel0, ∀ fuel, (fuel0 ≤ fuel)%nat →
    solve_with_a_star fuel initial = Some (Returned None).
Proof.
  intros Hs Hb Hnv. destruct (arrangements_exist initial) as [U HU].
  destruct (search_loop_terminates_wide initial U Hs HU Hb Hnv _ _ _ (seed initial)
              eq_refl eq_refl eq_refl (seed_wide initial Hs)) as [n Hn].
  exists n. intros fuel Hfuel. unfold solve_with_a_star.
  rewrite decide_False.
  - apply (search_loop_mono fuel fuel n fuel); [apply Hn|lia|lia].
  - intros ->. apply Hnv. by unfold valid_state.
Qed.

(** On nine integers with a blank the call returns. *)
Lemma solve_blank_returns (initial : State) :
  small_state initial → 0 ∈ initial →
  ∃ (fuel0 : nat) (r : option Path),
    (∀ fuel, (fuel0 ≤ fuel)%nat → solve_with_a_star fuel initial = Some (Returned r))
    ∧ match r with
      | Some p => valid_state initial ∧ replay initial p = Some goal_state_
      | None => ¬ solvable initial
      end.
Proof.
  intros Hs Hb. destruct (decide (valid_state initial)) as [Hv|Hnv].
  - destruct (solve_terminates_sound initial Hv) as (fuel0 & r & Hrun & Hr).
    exists fuel0, r. split; [done|]. by destruct r.
  - destruct (solve_wide_absent initial Hs Hb Hnv) as [fuel0 Hrun].
    exists fuel0, None. split; [done|].
    intros [p Hp]. apply Hnv. unfold valid_state.
    clear -Hp. revert initial Hp. induction p as [|m p IH]; intros s Hp; simpl in Hp.
    + by simplify_eq.
    + destruct (apply_move s m) as [s'|] eqn:Hm; [|done].
      rewrite <-(apply_move_Permutation _ _ _ Hm). by apply IH.
Qed.

(** With a blank and entries of moderate size no [int] overflows. *)
Lemma wide_scores_fit_int (initial : State) (st : search)
    (top : PQElement) (rest : list PQElement) :
  small_state initial → 0 ∈ initial →
  loop_state initial st → open_heap st = top :: rest →
  0 <= top.1 <= INT_MAX
  ∧ ∃ g_current, g_score st !! top.2 = Some g_current
      ∧ 0 <= g_current ∧ g_current + 1 <= INT_MAX
      ∧ ∀ neighbor_state, neighbor_state ≡ₚ top.2 →
          0 <= heuristic neighbor_state
          ∧ g_current + 1 + heuristic neighbor_state <= INT_MAX.
Proof.
  intros Hs Hb Hl Hheap.
  pose proof (loop_state_wide initial st Hs Hb Hl) as Hinv.
  assert (Hin : top ∈ open_heap st) by (rewrite Hheap; by left).
  destruct (wide_heap _ _ Hinv top Hin) as [[g Hg] Hf].
  destruct (wide_keys _ _ Hinv _ _ Hg) as [Htop Hgr].
  pose proof (arrangement_keys_count initial (g_score st) (proj1 Hs)
                (λ s x Hx, proj1 (wide_keys _ _ Hinv s x Hx))) as Hc.
  unfold state_count, HEURISTIC_BOUND, VALUE_BOUND, INT_MAX in *.
  split; [lia|]. exists g. split; [done|]. split; [lia|]. split; [lia|].
  intros n Hn.
  assert (Hsn : small_state n).
  { apply (small_state_Permutation initial); [by rewrite Hn|done]. }
  pose proof (heuristic_small n Hsn) as Hh.
  unfold HEURISTIC_BOUND, VALUE_BOUND in Hh. lia.
Qed.

(** ** The events of a call *)

Lemma search_loop_logged_result (fuel n : nat) (st : search) :
  (search_loop_logged fuel n st).2 = search_loop fuel n st.
Proof.
  revert st. induction n as [|n IH]; intros st; cbn [search_loop_logged search_loop];
    unfold step; (destruct (open_heap st) as [|top rest]; [done|]); cbv zeta;
    (case_decide; [done|]); (destruct (expand _ _ _ _) as [f|st2]; [done|]).
  - done.
  - apply IH.
Qed.

Lemma solve_with_a_star_logged_result (fuel : nat) (initial : State) :
  (solve_with_a_star_logged fuel initial).2 = solve_with_a_star fuel initial.
Proof.
  unfold solve_with_a_star_logged, solve_with_a_star. case_decide; [done|].
  simpl. apply search_loop_logged_result.
Qed.

(** * The specified properties *)

Ltac valid_by_evaluation := apply (bool_decide_unpack _); by vm_compute.

(** ** Optimality *)

(** C1, at the input [7,1,3,2,4,6,5,8,0].  The call returns a Path of 14
    moves, and only that one; a sequence of 12 moves leads from the same
    state to the goal, so the length of the returned Path is not the
    shortest-path distance. *)
Theorem returned_path_longer_than_shortest :
  let initial := [7; 1; 3; 2; 4; 6; 5; 8; 0] in
  let returned := [(2, 1); (1, 1); (1, 0); (0, 0); (0, 1); (1, 1); (1, 0);
                   (2, 0); (2, 1); (1, 1); (1, 0); (2, 0); (2, 1); (2, 2)] in
  let shorter := [(2, 1); (1, 1); (1, 0); (0, 0); (0, 1); (1, 1); (2, 1);
                  (2, 0); (1, 0); (1, 1); (2, 1); (2, 2)] in
  valid_state initial
  ∧ returns initial (Returned (Some returned))
  ∧ (∀ r, returns initial r → r = Returned (Some returned))
  ∧ replay initial shorter = Some goal_state_
  ∧ length returned = 14%nat ∧ length shorter = 12%nat
  ∧ ¬ shortest_distance initial (length returned).
Proof.
  intros initial returned shorter.
  assert (Hret : returns initial (Returned (Some returned))) by (exists 40%nat; by vm_compute).
  assert (Hrep : replay initial shorter = Some goal_state_) by (by vm_compute).
  split_and!; [|done| |done|done|done|].
  - apply (bool_decide_unpack _). by vm_compute.
  - intros r Hr. by apply (returns_deterministic initial).
  - intros [_ Hmin]. specialize (Hmin shorter Hrep). simpl in Hmin. lia.
Qed.

(** ** Path validity *)

(** C2. Path validity: on a valid initial state, a Path returned by
    [solve_with_a_star] replays from the initial state to the goal
    configuration [1,2,3,4,5,6,7,8,0]; [replay] only takes a Move that
    names a cell of the grid orthogonally adjacent to the blank's cell,
    and swaps the blank with the tile there. *)
Theorem returned_path_replays_to_goal (initial : State) (fuel : nat) (p : Path) :
  valid_state initial →
  solve_with_a_star fuel initial = Some (Returned (Some p)) →
  replay initial p = Some goal_state_.
Proof.
  intros Hv Hrun.
  destruct (solve_terminates_sound initial Hv) as (fuel0 & r & Hr & Hsound).
  specialize (Hr (fuel0 `max` fuel)%nat ltac:(lia)).
  apply (solve_mono _ (fuel0 `max` fuel)%nat) in Hrun; [|lia].
  rewrite Hr in Hrun. by simplify_eq.
Qed.

Lemma returned_path_replays_to_goal_witness :
  valid_state [1; 2; 3; 4; 5; 6; 7; 0; 8] ∧
  solve_with_a_star 1 [1; 2; 3; 4; 5; 6; 7; 0; 8] = Some (Returned (Some [(2, 2)])) ∧
  replay [1; 2; 3; 4; 5; 6; 7; 0; 8] [(2, 2)] = Some goal_state_.
Proof.
  assert (Hv : valid_state [1; 2; 3; 4; 5; 6; 7; 0; 8])
    by (apply (bool_decide_unpack _); by vm_compute).
  assert (Hrun : solve_with_a_star 1 [1; 2; 3; 4; 5; 6; 7; 0; 8]
                 = Some (Returned (Some [(2, 2)]))) by (by vm_compute).
  split; [exact Hv|]. split; [exact Hrun|].
  exact (returned_path_replays_to_goal _ _ _ Hv Hrun).
Defined.

(** ** Completeness *)

(** C3. On a valid initial state the call returns [std::nullopt] exactly
    when no sequence of legal moves leads to the goal, which is exactly
    when the state is in the parity class opposite the goal's; and on
    [1,2,3,4,5,6,8,7,0] it returns [std::nullopt]. *)
Theorem absent_iff_unsolvable :
  (∀ initial : State, valid_state initial →
     (returns initial (Returned None) ↔ ¬ solvable initial)
     ∧ (¬ solvable initial ↔ even_parity initial ≠ even_parity goal_state_))
  ∧ returns [1; 2; 3; 4; 5; 6; 8; 7; 0] (Returned None).
Proof.
  assert (Hgen : ∀ initial : State, valid_state initial →
            (returns initial (Returned None) ↔ ¬ solvable initial)
            ∧ (¬ solvable initial ↔ even_parity initial ≠ even_parity goal_state_)).
  { intros initial Hv.
    destruct (solve_terminates_sound initial Hv) as (fuel0 & r & Hr & Hsound).
    assert (Hret : returns initial (Returned r)) by (exists fuel0; by apply Hr).
    change (even_parity goal_state_) with true.
    split; split.
    - intros Hnone. pose proof (returns_deterministic _ _ _ Hnone Hret) as Heq.
      by simplify_eq.
    - intros Hns. destruct r as [p|]; [|done]. exfalso. apply Hns. by exists p.
    - intros Hns Heven. apply Hns. by apply even_solvable.
    - intros Hodd Hs. apply Hodd. by apply solvable_even. }
  split; [exact Hgen|].
  assert (Hv : valid_state [1; 2; 3; 4; 5; 6; 8; 7; 0])
    by (apply (bool_decide_unpack _); by vm_compute).
  destruct (Hgen _ Hv) as [Hret Hpar]. apply Hret, Hpar. by vm_compute.
Qed.

Lemma absent_iff_unsolvable_witness :
  valid_state [1; 2; 3; 4; 5; 6; 8; 7; 0] ∧
  (returns [1; 2; 3; 4; 5; 6; 8; 7; 0] (Returned None)
   ↔ ¬ solvable [1; 2; 3; 4; 5; 6; 8; 7; 0]).
Proof.
  assert (Hv : valid_state [1; 2; 3; 4; 5; 6; 8; 7; 0])
    by (apply (bool_decide_unpack _); by vm_compute).
  split; [exact Hv|]. exact (proj1 (proj1 absent_iff_unsolvable _ Hv)).
Defined.

(** ** Stale frontier entries *)

Lemma loop_iter_state (initial : State) (k : nat) (st st' : search) :
  loop_state initial st → loop_iter k st = Some st' → loop_state initial st'.
Proof.
  revert st. induction k as [|k IH]; intros st Hl Hk; simpl in Hk.
  - by simplify_eq.
  - destruct (step 0 st) as [st1|] eqn:Hstep; [|done].
    apply (IH st1); [|done]. by eapply loop_next.
Qed.

(** C4 as stated fails.  On [1,3,5,4,0,8,7,6,2], at the 24th iteration
    the popped entry is (12, [1,3,5,4,2,0,7,8,6]): it was pushed with
    g-score 7, the newest g-score of its state is 5, and the iteration
    does not discard it but expands it (the neighbour [1,3,0,4,2,5,7,8,6]
    gets its g-score). *)
Lemma stale_entry_is_expanded :
  ¬ (∀ (initial : State) (st : search) (top : PQElement) (rest : list PQElement),
       valid_state initial → loop_state initial st → open_heap st = top :: rest →
       stale st top →
       ∀ fuel, step fuel st = Continue (popped st top rest)).
Proof.
  intros Hclaim.
  set (initial := [1; 3; 5; 4; 0; 8; 7; 6; 2]).
  set (st := default (seed initial) (loop_iter 23 (seed initial))).
  set (top := (12, [1; 3; 5; 4; 2; 0; 7; 8; 6])).
  assert (Hv : valid_state initial) by (apply (bool_decide_unpack _); by vm_compute).
  assert (Hl : loop_state initial st).
  { apply (loop_iter_state initial 23 (seed initial)); [apply loop_seed|].
    by vm_compute. }
  assert (Hheap : open_heap st = top :: tail (open_heap st)) by (by vm_compute).
  assert (Hstale : stale st top).
  { unfold stale. assert (g_score st !! top.2 = Some 5) as -> by (by vm_compute).
    by vm_compute. }
  specialize (Hclaim initial st top _ Hv Hl Hheap Hstale 0%nat).
  assert (Hg : match step 0 st with
               | Continue st' => g_score st' !! [1; 3; 0; 4; 2; 5; 7; 8; 6]
               | Stop _ => None
               end = Some 6) by (by vm_compute).
  rewrite Hclaim in Hg. unfold popped in Hg. cbn [g_score] in Hg.
  assert (Hn : g_score st !! [1; 3; 0; 4; 2; 5; 7; 8; 6] = None) by (by vm_compute).
  congruence.
Qed.

(** C4, amended.  The loop has no staleness check and never discards a
    popped entry: unless its state is the goal, the entry is expanded,
    each pass of the body reading the g-score currently recorded for the
    state.  Duplicates are kept out by the membership set instead: in
    every iteration the frontier holds at most one entry per state and the
    set holds exactly the states of the frontier. *)
Theorem frontier_without_duplicates (initial : State) (st : search) :
  valid_state initial → loop_state initial st →
  NoDup (open_heap st).*2
  ∧ (∀ s, s ∈ open_set_hash st ↔ s ∈ (open_heap st).*2)
  ∧ ∀ fuel top rest, open_heap st = top :: rest → top.2 ≠ goal_state_ →
      ∃ st', step fuel st = Continue st'
             ∧ expand_spec top.2 (popped st top rest) moves st'.
Proof.
  intros Hv Hl. destruct (loop_state_inv initial st Hv Hl) as [Hinv Hc].
  split_and!; [apply Hinv|apply Hinv|].
  intros fuel top rest Hheap Hgoal. by apply (step_expands initial).
Qed.

Lemma frontier_without_duplicates_witness :
  let initial := [1; 3; 5; 4; 0; 8; 7; 6; 2] in
  let st := default (seed initial) (loop_iter 23 (seed initial)) in
  let top := (12, [1; 3; 5; 4; 2; 0; 7; 8; 6]) in
  let rest := tail (open_heap st) in
  valid_state initial
  ∧ loop_iter 23 (seed initial) = Some st
  ∧ loop_state initial st
  ∧ open_heap st = top :: rest
  ∧ length (open_heap st) = 20%nat
  ∧ stale st top
  ∧ NoDup (open_heap st).*2
  ∧ ∃ st', step 0 st = Continue st' ∧ expand_spec top.2 (popped st top rest) moves st'.
Proof.
  intros initial st top rest.
  assert (Hv : valid_state initial) by (apply (bool_decide_unpack _); by vm_compute).
  assert (Hiter : loop_iter 23 (seed initial) = Some st) by (by vm_compute).
  assert (Hl : loop_state initial st)
    by exact (loop_iter_state initial 23 (seed initial) st (loop_seed initial) Hiter).
  assert (Hheap : open_heap st = top :: rest) by (by vm_compute).
  assert (Hlen : length (open_heap st) = 20%nat) by (by vm_compute).
  assert (Hstale : stale st top).
  { unfold stale. assert (g_score st !! top.2 = Some 5) as -> by (by vm_compute).
    by vm_compute. }
  assert (Hgoal : top.2 ≠ goal_state_) by (by vm_compute).
  destruct (frontier_without_duplicates initial st Hv Hl) as (Hnd & _ & Hexp).
  split_and!; [exact Hv|exact Hiter|exact Hl|exact Hheap|exact Hlen|exact Hstale|exact Hnd|].
  exact (Hexp 0%nat top rest Hheap Hgoal).
Defined.
(** ** The heuristic *)

(** C5. On every valid state the heuristic is the sum over the non-blank
    tiles of the Manhattan distance between the tile's current cell and
    its goal cell; it is non-negative; and it is at most the length of
    any Move sequence that leads from the state to the goal, hence at
    most the minimum number of moves. *)
Theorem heuristic_is_admissible_manhattan (s : State) :
  valid_state s →
  heuristic s = manhattan_sum s
  ∧ 0 <= heuristic s
  ∧ (∀ p, replay s p = Some goal_state_ → heuristic s <= Z.of_nat (length p))
  ∧ (∀ d, shortest_distance s d → heuristic s <= Z.of_nat d).
Proof.
  intros Hv. split_and!.
  - by apply heuristic_manhattan_sum.
  - apply heuristic_from_nonneg.
  - apply heuristic_admissible.
  - intros d [(p & Hp & <-) _]. by apply heuristic_admissible.
Qed.

Lemma heuristic_is_admissible_manhattan_witness :
  valid_state [1; 2; 3; 4; 5; 6; 0; 7; 8] ∧
  heuristic [1; 2; 3; 4; 5; 6; 0; 7; 8] = manhattan_sum [1; 2; 3; 4; 5; 6; 0; 7; 8].
Proof.
  assert (Hv : valid_state [1; 2; 3; 4; 5; 6; 0; 7; 8])
    by (apply (bool_decide_unpack _); by vm_compute).
  split; [exact Hv|]. exact (proj1 (heuristic_is_admissible_manhattan _ Hv)).
Defined.

(** ** Termination *)

(** C6. Termination: on every valid initial state the call runs to
    completion.  From some amount of fuel on, the search loop and the
    path reconstruction both finish within the fuel, and the call returns
    a Path or [std::nullopt] (never a fault). *)
Theorem solve_terminates (initial : State) :
  valid_state initial →
  ∃ (fuel0 : nat) (r : option Path),
    ∀ fuel, (fuel0 ≤ fuel)%nat → solve_with_a_star fuel initial = Some (Returned r).
Proof.
  intros Hv. destruct (solve_terminates_sound initial Hv) as (fuel0 & r & Hr & _).
  by exists fuel0, r.
Qed.

Lemma solve_terminates_witness :
  valid_state [1; 2; 3; 4; 5; 6; 0; 7; 8] ∧
  ∃ (fuel0 : nat) (r : option Path),
    ∀ fuel, (fuel0 ≤ fuel)%nat →
      solve_with_a_star fuel [1; 2; 3; 4; 5; 6; 0; 7; 8] = Some (Returned r).
Proof.
  assert (Hv : valid_state [1; 2; 3; 4; 5; 6; 0; 7; 8])
    by (apply (bool_decide_unpack _); by vm_compute).
  split; [exact Hv|]. exact (solve_terminates _ Hv).
Defined.

(** ** Concrete scenarios *)

(** C7. On the goal configuration the call returns the empty Path,
    whatever the fuel, and it does so before anything else happens: the
    run has no event, no state is seeded, popped or expanded.  Only the
    goal is treated that way (any other input is seeded first), and the
    first [if] is what makes the difference: the loop started on the
    seeded goal would return the same Path, but after popping it. *)
Theorem solve_goal_returns_empty_path (fuel : nat) :
  solve_with_a_star fuel goal_state_ = Some (Returned (Some []))
  ∧ solve_with_a_star_logged fuel goal_state_ = ([], Some (Returned (Some [])))
  ∧ (∀ initial, (solve_with_a_star_logged fuel initial).2 = solve_with_a_star fuel initial)
  ∧ (∀ initial, (solve_with_a_star_logged fuel initial).1 = [] ↔ initial = goal_state_)
  ∧ search_loop_logged fuel fuel (seed goal_state_)
    = ([Popped goal_state_], Some (Returned (Some []))).
Proof.
  split_and!.
  - unfold solve_with_a_star. by rewrite decide_True.
  - unfold solve_with_a_star_logged. by rewrite decide_True.
  - apply solve_with_a_star_logged_result.
  - intros initial. unfold solve_with_a_star_logged. case_decide; [done|].
    simpl. split; [done|]. by intros ->.
  - by destruct fuel.
Qed.
(** C8. On [1,2,3,4,5,6,7,0,8] the call returns a Path of length 1 whose
    Move is (2, 2), the cell holding tile 8. *)
Theorem solve_one_move_instance (fuel : nat) :
  solve_with_a_star (S fuel) [1; 2; 3; 4; 5; 6; 7; 0; 8] = Some (Returned (Some [(2, 2)]))
  ∧ length [(2, 2) : Z * Z] = 1%nat
  ∧ array_get [1; 2; 3; 4; 5; 6; 7; 0; 8] (2 * grid_size_ + 2) = Some 8.
Proof.
  split; [|done].
  apply (solve_mono 1); [by vm_compute|lia].
Qed.

(** ** The adapter *)

(** C9 as stated fails.  On the nine integers [1,2,3,4,5,6,7,8,9] the
    adapter does not raise, and the call of the solver does not return a
    Path or absent: with no 0 in the array [empty_index] stays -1 and
    the first pass of the body accesses [neighbor_state[-1]]. *)
Lemma binding_nine_without_blank :
  ¬ (∀ state_list : list Z, length state_list = 9%nat →
       ∃ fuel r, binding_solve fuel state_list = Passed (Some (Returned r))).
Proof.
  intros Hclaim.
  destruct (Hclaim [1; 2; 3; 4; 5; 6; 7; 8; 9] eq_refl) as (fuel & r & Hr).
  assert (Hf : binding_solve fuel [1; 2; 3; 4; 5; 6; 7; 8; 9]
               = Passed (Some (Faulted OutOfBounds))).
  { unfold binding_solve. rewrite decide_False by (intros H; by apply H).
    cbn [take]. rewrite solve_no_blank_faults; [done|]. valid_by_evaluation. }
  congruence.
Qed.

(** C9, amended.  The adapter raises exactly when the input does not
    hold 9 integers.  On 9 integers of magnitude at most [VALUE_BOUND]
    one of which is 0, the call of the solver returns and the adapter
    passes its result on unchanged; on 9 such integers without a 0 the
    solver runs into the access outside the array, and nothing is
    returned.  The solver itself never throws ([std::unordered_map::at]
    always finds its key), so no other error reaches the caller. *)
Theorem binding_raises_iff_wrong_count (state_list : list Z) :
  (∀ fuel, (∃ what, binding_solve fuel state_list = Raised what)
           ↔ length state_list ≠ 9%nat)
  ∧ (small_state state_list → 0 ∈ state_list →
       ∃ (fuel0 : nat) (r : option Path),
         ∀ fuel, (fuel0 ≤ fuel)%nat →
           solve_with_a_star fuel state_list = Some (Returned r)
           ∧ binding_solve fuel state_list = Passed (Some (Returned r)))
  ∧ (small_state state_list → 0 ∉ state_list →
       ∀ fuel, binding_solve fuel state_list = Passed (Some (Faulted OutOfBounds)))
  ∧ (∀ fuel, binding_solve fuel state_list ≠ Passed (Some (Faulted OutOfRange))).
Proof.
  split_and!.
  4: { intros fuel. unfold binding_solve. case_decide; [done|].
       intros [= H']. by apply solve_no_out_of_range in H'. }
  - intros fuel. unfold binding_solve. case_decide; split; try done; [eauto|]. by intros [? ?].
  - intros Hs Hb. destruct (solve_blank_returns state_list Hs Hb) as (fuel0 & r & Hrun & _).
    exists fuel0, r. intros fuel Hfuel. split; [by apply Hrun|].
    unfold binding_solve. rewrite decide_False by (intros H; apply H, Hs).
    rewrite firstn_all2 by (rewrite (proj1 Hs); lia). by rewrite Hrun.
  - intros Hs Hb fuel. unfold binding_solve.
    rewrite decide_False by (intros H; apply H, Hs).
    rewrite firstn_all2 by (rewrite (proj1 Hs); lia). by rewrite solve_no_blank_faults.
Qed.

Lemma binding_raises_iff_wrong_count_witness :
  small_state [0; 1; 1; 2; 2; 3; 3; 4; 4] ∧ 0 ∈ [0; 1; 1; 2; 2; 3; 3; 4; 4]
  ∧ ∃ (fuel0 : nat) (r : option Path),
      ∀ fuel, (fuel0 ≤ fuel)%nat →
        solve_with_a_star fuel [0; 1; 1; 2; 2; 3; 3; 4; 4] = Some (Returned r)
        ∧ binding_solve fuel [0; 1; 1; 2; 2; 3; 3; 4; 4] = Passed (Some (Returned r)).
Proof.
  assert (Hs : small_state [0; 1; 1; 2; 2; 3; 3; 4; 4])
    by (unfold small_state; valid_by_evaluation).
  assert (Hb : 0 ∈ [0; 1; 1; 2; 2; 3; 3; 4; 4]) by valid_by_evaluation.
  split; [exact Hs|]. split; [exact Hb|].
  exact (proj1 (proj2 (binding_raises_iff_wrong_count _)) Hs Hb).
Defined.
Example binding_eight_integers :
  binding_solve 0 [1; 2; 3; 4; 5; 6; 7; 8]
  = Raised "Input state must contain exactly 9 integers.".
Proof. reflexivity. Qed.

(** ** Array accesses *)

(** C10. On a valid initial state, in every iteration of the search loop
    the scan finds the blank: [empty_index] lies in [0, 9) and is not the
    sentinel -1, the slot it names holds 0, every [tile_index] that passes
    the grid test lies in [0, 9), the swap reads and writes inside the
    array, and the iteration never ends in the out-of-bounds fault. *)
Theorem neighbor_accesses_in_bounds (initial : State) (st : search)
    (top : PQElement) (rest : list PQElement) :
  valid_state initial → loop_state initial st → open_heap st = top :: rest →
  let current_state := top.2 in
  let empty_index := find_empty current_state in
  0 <= empty_index < 9 ∧ empty_index ≠ -1
  ∧ array_get current_state empty_index = Some 0
  ∧ (∀ move, move ∈ moves → in_grid (tile_cell empty_index move) = true →
       let tile_index :=
         (tile_cell empty_index move).1 * grid_size_ + (tile_cell empty_index move).2 in
       0 <= tile_index < 9
       ∧ is_Some (array_swap current_state empty_index tile_index))
  ∧ ∀ fuel f, step fuel st ≠ Stop (Some (Faulted f)).
Proof.
  intros Hv Hl Hheap current_state empty_index.
  destruct (loop_state_inv initial st Hv Hl) as [Hinv Hc].
  destruct (pop_inv _ _ _ _ Hinv Hc Hheap) as (_ & _ & Hvc & _).
  destruct (find_empty_valid _ Hvc) as [He H0].
  fold current_state in Hvc, He, H0. fold empty_index in He, H0.
  split_and!; [lia|lia|lia| | |].
  - unfold array_get, state_size.
    by assert ((0 <=? empty_index) && (empty_index <? 9) = true) as -> by lia.
  - intros move Hm Hg tile_index. split; [by apply tile_index_bounds|].
    subst tile_index empty_index.
    rewrite <-apply_move_tile by done. by apply apply_move_defined.
  - intros fuel f Hstep. destruct universe_exists as [U HU].
    pose proof (step_spec U HU initial fuel st Hinv Hc) as Hs. rewrite Hstep in Hs.
    destruct Hs as [[_ ?]|(f' & rest' & _ & Hr)]; [done|].
    destruct (reconstruct_move_path _ _ _); done.
Qed.

Lemma neighbor_accesses_in_bounds_witness :
  valid_state [1; 2; 3; 4; 5; 6; 7; 0; 8] ∧
  loop_state [1; 2; 3; 4; 5; 6; 7; 0; 8] (seed [1; 2; 3; 4; 5; 6; 7; 0; 8]) ∧
  open_heap (seed [1; 2; 3; 4; 5; 6; 7; 0; 8]) = [(1, [1; 2; 3; 4; 5; 6; 7; 0; 8])] ∧
  0 <= find_empty [1; 2; 3; 4; 5; 6; 7; 0; 8] < 9.
Proof.
  assert (Hv : valid_state [1; 2; 3; 4; 5; 6; 7; 0; 8])
    by (apply (bool_decide_unpack _); by vm_compute).
  assert (Hheap : open_heap (seed [1; 2; 3; 4; 5; 6; 7; 0; 8])
                  = [(1, [1; 2; 3; 4; 5; 6; 7; 0; 8])]) by reflexivity.
  split; [exact Hv|]. split; [apply loop_seed|]. split; [exact Hheap|].
  exact (proj1 (neighbor_accesses_in_bounds _ _ _ _ Hv (loop_seed _) Hheap)).
Defined.

(** The sentinel is what the scan yields on an array without a 0, and the
    first swap then reads outside the array. *)
Example sentinel_faults :
  find_empty [1; 2; 3; 4; 5; 6; 7; 8; 9] = -1 ∧
  solve_with_a_star 0 [1; 2; 3; 4; 5; 6; 7; 8; 9] = Some (Faulted OutOfBounds).
Proof. by vm_compute. Qed.

(** * Further properties of the code *)

(** ** One legal move, slot by slot *)

Lemma apply_move_slots (s s' : State) (m : Move) :
  valid_state s → apply_move s m = Some s' →
  ∃ x, 0 <= find_empty s < 9
       ∧ 0 <= m.1 * grid_size_ + m.2 < 9
       ∧ Z.to_nat (find_empty s) ≠ Z.to_nat (m.1 * grid_size_ + m.2)
       ∧ x ≠ 0
       ∧ s !! Z.to_nat (find_empty s) = Some 0
       ∧ s !! Z.to_nat (m.1 * grid_size_ + m.2) = Some x
       ∧ s' = <[Z.to_nat (m.1 * grid_size_ + m.2) := 0]> (<[Z.to_nat (find_empty s) := x]> s)
       ∧ in_grid m = true
       ∧ orthogonally_adjacent (cell_of (find_empty s)) m = true.
Proof.
  intros Hv. destruct (find_empty_valid s Hv) as [He Hb].
  unfold apply_move. destruct (in_grid m) eqn:Hg; [|done]. simpl.
  destruct (orthogonally_adjacent _ m) eqn:Hadj; [|done].
  unfold array_swap, array_get. rewrite Hb.
  destruct ((0 <=? find_empty s) && (find_empty s <? state_size)); [|done].
  destruct ((0 <=? m.1 * grid_size_ + m.2) && (m.1 * grid_size_ + m.2 <? state_size))
    eqn:Ht; [|done].
  destruct (s !! Z.to_nat (m.1 * grid_size_ + m.2)) as [x|] eqn:Hx; [|done].
  intros [= <-]. exists x.
  assert (Hne : Z.to_nat (find_empty s) ≠ Z.to_nat (m.1 * grid_size_ + m.2)).
  { intros Heq. assert (find_empty s = m.1 * grid_size_ + m.2) as Heq'.
    { unfold state_size in Ht. lia. }
    rewrite Heq', cell_of_tile_index in Hadj by done.
    unfold orthogonally_adjacent, manhattan in Hadj. lia. }
  assert (Hx0 : x ≠ 0).
  { intros ->. apply Hne. by apply (NoDup_lookup s _ _ 0 (valid_NoDup s Hv)). }
  unfold state_size in Ht. repeat split; try done; lia.
Qed.

(** ** The heuristic along a move *)

Lemma apply_move_heuristic_step (s s' : State) (m : Move) :
  valid_state s → apply_move s m = Some s' →
  heuristic s' = heuristic s + 1 ∨ heuristic s' = heuristic s - 1.
Proof.
  intros Hv Hm.
  destruct (apply_move_slots s s' m Hv Hm)
    as (x & He & Ht & Hne & Hx0 & Hb & Hx & -> & Hg & Hadj).
  unfold heuristic.
  rewrite (heuristic_from_insert _ _ _ _ x 0); [|by rewrite list_lookup_insert_ne].
  rewrite (heuristic_from_insert _ _ _ _ 0 x) by done.
  replace (0 + Z.of_nat (Z.to_nat (find_empty s))) with (find_empty s) by lia.
  replace (0 + Z.of_nat (Z.to_nat (m.1 * grid_size_ + m.2))) with (m.1 * grid_size_ + m.2)
    by lia.
  rewrite !(heuristic_term_cell _ x) by done.
  rewrite cell_of_tile_index by done.
  unfold heuristic_term. simpl.
  unfold orthogonally_adjacent, manhattan in *. lia.
Qed.

Lemma replay_heuristic_parity (s t : State) (p : Path) :
  valid_state s → replay s p = Some t →
  Z.even (heuristic s + heuristic t + Z.of_nat (length p)) = true.
Proof.
  revert s. induction p as [|m p IH]; intros s Hv Hrep; simpl in Hrep.
  - simplify_eq. simpl. rewrite Z.add_0_r. replace (heuristic t + heuristic t)
      with (2 * heuristic t) by lia. by rewrite Z.even_mul.
  - destruct (apply_move s m) as [s'|] eqn:Hm; [|done].
    specialize (IH s' (apply_move_valid _ _ _ Hv Hm) Hrep).
    destruct (apply_move_heuristic_step s s' m Hv Hm) as [H|H].
    + replace (heuristic s + heuristic t + Z.of_nat (length (m :: p)))
        with (heuristic s' + heuristic t + Z.of_nat (length p)) by (simpl length; lia).
      done.
    + replace (heuristic s + heuristic t + Z.of_nat (length (m :: p)))
        with (heuristic s' + heuristic t + Z.of_nat (length p) + 2) by (simpl length; lia).
      by rewrite Z.even_add, IH.
Qed.

(** X1.  The heuristic is consistent: over one legal move from a valid
    state it changes by exactly 1, up or down, so it drops by at most
    the cost of the move. *)
Theorem heuristic_consistent (s s' : State) (m : Move) :
  valid_state s → apply_move s m = Some s' →
  heuristic s <= 1 + heuristic s'
  ∧ (heuristic s' = heuristic s + 1 ∨ heuristic s' = heuristic s - 1).
Proof.
  intros Hv Hm. pose proof (apply_move_heuristic_step s s' m Hv Hm). lia.
Qed.

Lemma heuristic_consistent_witness :
  valid_state [1; 2; 3; 4; 5; 6; 7; 0; 8]
  ∧ apply_move [1; 2; 3; 4; 5; 6; 7; 0; 8] (2, 2) = Some goal_state_
  ∧ heuristic [1; 2; 3; 4; 5; 6; 7; 0; 8] <= 1 + heuristic goal_state_.
Proof.
  assert (Hv : valid_state [1; 2; 3; 4; 5; 6; 7; 0; 8]) by valid_by_evaluation.
  split; [exact Hv|]. split; [reflexivity|].
  exact (proj1 (heuristic_consistent _ _ (2, 2) Hv eq_refl)).
Defined.

(** ** The heuristic vanishes at the goal only *)

Lemma heuristic_term_zero (i x : Z) :
  0 <= i < 9 → 0 <= x < 9 → heuristic_term i x = 0 → x = 0 ∨ x = i + 1.
Proof.
  intros Hi Hx.
  assert (Hi' : i = 0 ∨ i = 1 ∨ i = 2 ∨ i = 3 ∨ i = 4 ∨ i = 5 ∨ i = 6 ∨ i = 7 ∨ i = 8) by lia.
  assert (Hx' : x = 0 ∨ x = 1 ∨ x = 2 ∨ x = 3 ∨ x = 4 ∨ x = 5 ∨ x = 6 ∨ x = 7 ∨ x = 8) by lia.
  destruct_or!; subst; vm_compute; intros H; (discriminate H || lia).
Qed.

Lemma valid_range (s : State) : valid_state s → Forall (λ x, 0 <= x < 9) s.
Proof.
  unfold valid_state. intros ->. unfold goal_state_. repeat constructor; lia.
Qed.

Lemma heuristic_from_zero (i : Z) (rest : list Z) (acc : Z) :
  heuristic_from i rest acc = acc →
  ∀ (j : nat) (x : Z), rest !! j = Some x → heuristic_term (i + Z.of_nat j) x = 0.
Proof.
  revert i acc. induction rest as [|y rest IH]; intros i acc Hh j x Hj; [done|].
  simpl in Hh.
  pose proof (heuristic_term_nonneg i y) as Hy.
  pose proof (heuristic_from_nonneg (i + 1) rest (acc + heuristic_term i y)) as Hle.
  assert (Hy0 : heuristic_term i y = 0) by lia.
  rewrite Hy0, Z.add_0_r in Hh.
  destruct j as [|j]; simpl in Hj.
  - simplify_eq. by replace (i + Z.of_nat 0) with i by lia.
  - replace (i + Z.of_nat (S j)) with (i + 1 + Z.of_nat j) by lia. by apply (IH _ acc).
Qed.

Lemma heuristic_zero_goal (s : State) :
  valid_state s → heuristic s = 0 → s = goal_state_.
Proof.
  intros Hv Hh.
  pose proof (valid_length s Hv) as Hlen.
  pose proof (valid_range s Hv) as Hr.
  pose proof (valid_NoDup s Hv) as Hnd.
  assert (Hslot : ∀ (j : nat) x, s !! j = Some x → x = 0 ∨ x = Z.of_nat j + 1).
  { intros j x Hj. pose proof (lookup_lt_Some _ _ _ Hj) as Hlt.
    apply heuristic_term_zero; [lia|by apply (Forall_lookup_1 _ _ _ _ Hr Hj)|].
    by apply (heuristic_from_zero 0 s 0 Hh j x). }
  assert (H8 : s !! 8%nat = Some 0).
  { destruct (lookup_lt_is_Some_2 s 8) as [x Hx]; [lia|].
    pose proof (Forall_lookup_1 _ _ _ _ Hr Hx). simpl in *.
    destruct (Hslot _ _ Hx) as [->| ->]; [done|lia]. }
  assert (Hj : ∀ (j : nat), (j < 8)%nat → s !! j = Some (Z.of_nat j + 1)).
  { intros j Hlt. destruct (lookup_lt_is_Some_2 s j) as [x Hx]; [lia|].
    destruct (Hslot _ _ Hx) as [->| ->]; [|done].
    pose proof (NoDup_lookup s _ _ 0 Hnd Hx H8). lia. }
  apply list_eq. intros j.
  destruct (decide (j < 8)%nat) as [Hlt|Hge].
  - rewrite (Hj j Hlt). do 8 (destruct j as [|j]; [done|]). lia.
  - destruct (decide (j = 8%nat)) as [->|Hne]; [done|].
    rewrite !lookup_ge_None_2; [done|simpl; lia|lia].
Qed.

(** X2.  On a valid state the heuristic is 0 exactly at the goal. *)
Theorem heuristic_zero_iff_goal (s : State) :
  valid_state s → heuristic s = 0 ↔ s = goal_state_.
Proof.
  intros Hv. split; [by apply heuristic_zero_goal|]. by intros ->.
Qed.

Lemma heuristic_zero_iff_goal_witness :
  valid_state [1; 2; 3; 4; 5; 6; 7; 0; 8]
  ∧ (heuristic [1; 2; 3; 4; 5; 6; 7; 0; 8] = 0 ↔ [1; 2; 3; 4; 5; 6; 7; 0; 8] = goal_state_).
Proof.
  assert (Hv : valid_state [1; 2; 3; 4; 5; 6; 7; 0; 8]) by valid_by_evaluation.
  split; [exact Hv|]. exact (heuristic_zero_iff_goal _ Hv).
Defined.

(** ** The blank after a move *)

Lemma find_empty_unique (s : State) (k : nat) :
  NoDup s → s !! k = Some 0 → find_empty s = Z.of_nat k.
Proof.
  intros Hnd Hk.
  destruct (find_empty_from_found s 0) as (k' & Hk' & Hl & _).
  { by apply list_elem_of_lookup_2 with k. }
  unfold find_empty. rewrite Hk'. pose proof (NoDup_lookup s _ _ 0 Hnd Hk Hl). lia.
Qed.

Lemma apply_move_blank (s s' : State) (m : Move) :
  valid_state s → apply_move s m = Some s' →
  find_empty s' = m.1 * grid_size_ + m.2 ∧ cell_of (find_empty s') = m.
Proof.
  intros Hv Hm.
  destruct (apply_move_slots s s' m Hv Hm)
    as (x & He & Ht & Hne & Hx0 & Hb & Hx & Hs' & Hg & Hadj).
  assert (Hf : find_empty s' = m.1 * grid_size_ + m.2).
  { rewrite (find_empty_unique s' (Z.to_nat (m.1 * grid_size_ + m.2))); [lia| |].
    - apply valid_NoDup. by apply (apply_move_valid s s' m).
    - subst s'. apply list_lookup_insert_eq. rewrite length_insert.
      by apply lookup_lt_Some with x. }
  split; [done|]. rewrite Hf. by apply cell_of_tile_index.
Qed.

(** X3.  Every move can be undone: after a legal move from a valid
    state, the Move naming the cell the blank came from leads back to
    that state. *)
Theorem apply_move_back (s s' : State) (m : Move) :
  valid_state s → apply_move s m = Some s' →
  apply_move s' (cell_of (find_empty s)) = Some s.
Proof.
  intros Hv Hm.
  destruct (apply_move_blank s s' m Hv Hm) as [Hf Hcell].
  destruct (apply_move_slots s s' m Hv Hm)
    as (x & He & Ht & Hne & Hx0 & Hb & Hx & Hs' & Hg & Hadj).
  pose proof (valid_length s Hv) as Hlen.
  assert (Hcg : in_grid (cell_of (find_empty s)) = true).
  { unfold in_grid, cell_of, grid_size_. simpl.
    pose proof (Z.quot_pos (find_empty s) 3). pose proof (Z.rem_bound_pos (find_empty s) 3).
    pose proof (Z.quot_lt_upper_bound (find_empty s) 3 3). lia. }
  assert (Hci : (cell_of (find_empty s)).1 * grid_size_ + (cell_of (find_empty s)).2
                = find_empty s).
  { unfold cell_of, grid_size_. simpl. pose proof (Z.quot_rem' (find_empty s) 3). lia. }
  unfold apply_move. rewrite Hcg, Hcell.
  assert (orthogonally_adjacent m (cell_of (find_empty s)) = true) as ->.
  { unfold orthogonally_adjacent, manhattan in *. lia. }
  cbn [andb]. rewrite Hci, Hf. unfold array_swap, array_get, state_size.
  assert ((0 <=? m.1 * grid_size_ + m.2) && (m.1 * grid_size_ + m.2 <? 9) = true) as -> by lia.
  assert ((0 <=? find_empty s) && (find_empty s <? 9) = true) as -> by lia.
  subst s'. rewrite list_lookup_insert_eq
    by (rewrite length_insert; by apply lookup_lt_Some with x).
  rewrite list_lookup_insert_ne by lia.
  rewrite list_lookup_insert_eq by (by apply lookup_lt_Some with 0).
  f_equal. rewrite list_insert_insert_eq.
  rewrite list_insert_insert_ne by lia. rewrite list_insert_insert_eq.
  rewrite (list_insert_id _ _ _ Hb).
  by rewrite list_insert_id.
Qed.

Lemma apply_move_back_witness :
  valid_state [1; 2; 3; 4; 5; 6; 7; 0; 8]
  ∧ apply_move [1; 2; 3; 4; 5; 6; 7; 0; 8] (2, 2) = Some goal_state_
  ∧ apply_move goal_state_ (2, 1) = Some [1; 2; 3; 4; 5; 6; 7; 0; 8].
Proof.
  assert (Hv : valid_state [1; 2; 3; 4; 5; 6; 7; 0; 8]) by valid_by_evaluation.
  split; [exact Hv|]. split; [reflexivity|].
  exact (apply_move_back _ _ (2, 2) Hv eq_refl).
Defined.

(** ** Paths and their traces *)

Lemma trace_snoc (s t t' : State) (p : Path) (m : Move) :
  replay s p = Some t → apply_move t m = Some t' →
  trace s (p ++ [m]) = trace s p ++ [t'].
Proof.
  revert s. induction p as [|m' p IH]; intros s Hrep Hm; simpl in *.
  - simplify_eq. by rewrite Hm.
  - destruct (apply_move s m') as [s'|]; [|done]. f_equal. by apply IH.
Qed.

Lemma trace_length (s t : State) (p : Path) :
  replay s p = Some t → length (trace s p) = S (length p).
Proof.
  revert s. induction p as [|m p IH]; intros s Hrep; simpl in *; [done|].
  destruct (apply_move s m) as [s'|]; [|done]. f_equal. by apply IH.
Qed.

Lemma trace_last (s t : State) (p : Path) :
  replay s p = Some t → last (trace s p) = Some t.
Proof.
  revert s. induction p as [|m p IH]; intros s Hrep; simpl in *; [by simplify_eq|].
  destruct (apply_move s m) as [s'|] eqn:Hm; [|done].
  specialize (IH s' Hrep). destruct p; simpl in *; [by rewrite IH|].
  destruct (apply_move s' _); simpl in *; done.
Qed.

Lemma trace_valid (s t : State) (p : Path) :
  valid_state s → replay s p = Some t → Forall valid_state (trace s p).
Proof.
  revert s. induction p as [|m p IH]; intros s Hv Hrep; simpl in *.
  - by repeat constructor.
  - destruct (apply_move s m) as [s'|] eqn:Hm; [|done].
    constructor; [done|]. apply IH; [|done]. by apply (apply_move_valid s s' m).
Qed.

Lemma trace_head (s : State) (p : Path) : trace s p = s :: tail (trace s p).
Proof. by destruct p. Qed.

(** The Moves of a legal Path are the cells the blank goes through. *)
Lemma replay_blank_cells (s t : State) (p : Path) :
  valid_state s → replay s p = Some t →
  (λ u, cell_of (find_empty u)) <$> tail (trace s p) = p.
Proof.
  revert s. induction p as [|m p IH]; intros s Hv Hrep; simpl in *; [done|].
  destruct (apply_move s m) as [s'|] eqn:Hm; [|done].
  pose proof (apply_move_valid s s' m Hv Hm) as Hv'.
  destruct (apply_move_blank s s' m Hv Hm) as [_ Hcell].
  rewrite (trace_head s' p), fmap_cons, Hcell. f_equal. by apply IH.
Qed.

Lemma replay_in_grid (s t : State) (p : Path) :
  replay s p = Some t → Forall (λ m, in_grid m = true) p.
Proof.
  revert s. induction p as [|m p IH]; intros s Hrep; simpl in *; [done|].
  destruct (apply_move s m) as [s'|] eqn:Hm; [|done].
  constructor; [|by apply (IH s')].
  unfold apply_move in Hm. by destruct (in_grid m).
Qed.

(** ** The walk along the predecessor links *)

Lemma reconstruct_loop_chain (initial : State) (st : search) (fuel : nat)
    (cur : State) (g : Z) (acc : Path) :
  search_inv initial st → g_score st !! cur = Some g → (Z.to_nat g ≤ fuel)%nat →
  ∃ ms, reconstruct_loop fuel (came_from st) cur acc = Some (acc ++ ms)
        ∧ replay initial (reverse ms) = Some cur
        ∧ Z.of_nat (length ms) <= g
        ∧ NoDup (trace initial (reverse ms))
        ∧ Forall (λ t, ∃ gt, g_score st !! t = Some gt ∧ gt <= g)
                 (trace initial (reverse ms)).
Proof.
  intros Hinv. revert cur g acc.
  assert (Hbase : ∀ cur g, g_score st !! cur = Some g → came_from st !! cur = None →
            replay initial (reverse []) = Some cur
            ∧ Z.of_nat (length (@nil (Z * Z))) <= g
            ∧ NoDup (trace initial (reverse []))
            ∧ Forall (λ t, ∃ gt, g_score st !! t = Some gt ∧ gt <= g)
                     (trace initial (reverse []))).
  { intros cur g Hg Hcf.
    assert (cur = initial) as ->.
    { destruct (decide (cur = initial)) as [->|Hne]; [done|].
      destruct (inv_parent _ _ Hinv cur) as [x Hx]; [eauto|done|congruence]. }
    destruct (inv_valid _ _ Hinv _ _ Hg) as [_ Hg0].
    simpl. split; [done|]. split; [done|]. split; [apply NoDup_singleton|].
    apply Forall_singleton. exists g. split; [done|lia]. }
  induction fuel as [|fuel IH]; intros cur g acc Hg Hfuel.
  - destruct (came_from st !! cur) as [[p m]|] eqn:Hcf.
    + destruct (inv_link _ _ Hinv _ _ _ Hcf) as (gn & gp & Hgn & Hgp & Hle & _).
      destruct (inv_valid _ _ Hinv _ _ Hgp) as [_ Hgp0]. simplify_eq. lia.
    + exists []. simpl. rewrite Hcf, app_nil_r. split; [done|]. by apply (Hbase cur g).
  - simpl. destruct (came_from st !! cur) as [[p m]|] eqn:Hcf.
    + destruct (inv_link _ _ Hinv _ _ _ Hcf) as (gn & gp & Hgn & Hgp & Hle & Hap).
      simplify_eq.
      destruct (IH p gp (acc ++ [m]) Hgp) as (ms & Hms & Hrep & Hlen & Hnd & Hall); [lia|].
      exists (m :: ms). simpl. rewrite Hms, <-app_assoc. split; [done|].
      rewrite reverse_cons. rewrite (trace_snoc initial p cur _ m Hrep Hap).
      split; [by rewrite replay_app, Hrep; simpl; rewrite Hap|].
      split; [lia|]. split.
      * apply NoDup_app. split; [done|]. split; [|apply NoDup_singleton].
        intros t Ht Ht'. apply list_elem_of_singleton in Ht' as ->.
        rewrite Forall_forall in Hall. destruct (Hall _ Ht) as (gt & Hgt & Hgt').
        simplify_eq. lia.
      * apply Forall_app. split.
        -- eapply Forall_impl; [exact Hall|]. intros t (gt & Hgt & Hgt').
           exists gt. split; [done|lia].
        -- apply Forall_singleton. exists g. split; [done|lia].
    + exists []. rewrite app_nil_r. split; [done|]. by apply (Hbase cur g).
Qed.

Lemma reconstruct_move_path_chain (initial : State) (st : search) (cur : State) (g : Z)
    (fuel : nat) (p : Path) :
  search_inv initial st → g_score st !! cur = Some g →
  reconstruct_move_path fuel (came_from st) cur = Some p →
  replay initial p = Some cur ∧ Z.of_nat (length p) <= g ∧ NoDup (trace initial p).
Proof.
  intros Hinv Hg.
  destruct (reconstruct_loop_chain initial st (Z.to_nat g) cur g [] Hinv Hg)
    as (ms & Hms & Hrep & Hlen & Hnd & _); [done|].
  unfold reconstruct_move_path. intros Hp.
  destruct (reconstruct_loop fuel (came_from st) cur []) as [tp|] eqn:Htp; [|done].
  simpl in Hp. injection Hp as <-.
  assert (tp = ms) as ->.
  { destruct (Nat.le_ge_cases fuel (Z.to_nat g)) as [Hle|Hle].
    - rewrite (reconstruct_loop_mono _ _ _ _ _ _ Htp Hle) in Hms. by simplify_eq.
    - rewrite (reconstruct_loop_mono _ _ _ _ _ _ Hms Hle) in Htp. by simplify_eq. }
  by rewrite length_reverse.
Qed.

(** A returned Path was read off the records of some iteration that
    popped the goal. *)
Lemma search_loop_returned (initial : State) (fuel n : nat) (st : search) (p : Path) :
  loop_state initial st →
  search_loop fuel n st = Some (Returned (Some p)) →
  ∃ st' top rest, loop_state initial st' ∧ open_heap st' = top :: rest
    ∧ top.2 = goal_state_
    ∧ reconstruct_move_path fuel (came_from st') goal_state_ = Some p.
Proof.
  revert st. induction n as [|n IH]; intros st Hl Hloop; simpl in Hloop;
    destruct (step fuel st) as [st'|r] eqn:Hstep.
  1: done.
  2: by apply (IH st'); [eapply loop_next|].
  all: subst r; unfold step in Hstep;
    destruct (open_heap st) as [|top rest] eqn:Hheap; [done|];
    cbv zeta in Hstep; case_decide as Hgoal;
    [|by destruct (expand _ _ _ _)];
    exists st, top, rest; split; [done|]; split; [done|]; split; [done|];
    rewrite Hgoal in Hstep; cbn [came_from] in Hstep;
    destruct (reconstruct_move_path fuel (came_from st) goal_state_); by simplify_eq.
Qed.

Lemma returned_path_facts (initial : State) (fuel : nat) (p : Path) :
  valid_state initial →
  solve_with_a_star fuel initial = Some (Returned (Some p)) →
  replay initial p = Some goal_state_
  ∧ Z.of_nat (length p) < state_count
  ∧ NoDup (trace initial p).
Proof.
  intros Hv. unfold solve_with_a_star. case_decide as Hgoal.
  - intros [= <-]. simpl. split; [by subst|]. split; [done|]. apply NoDup_singleton.
  - intros Hloop.
    destruct (search_loop_returned initial fuel fuel (seed initial) p (loop_seed initial) Hloop)
      as (st & top & rest & Hl & Hheap & Htop & Hp).
    destruct (loop_state_inv initial st Hv Hl) as [Hinv _].
    destruct (loop_state_scores initial st Hv Hl) as [Hsc _].
    assert (Hg : is_Some (g_score st !! goal_state_)).
    { apply (inv_open_g _ _ Hinv), (inv_open _ _ Hinv). rewrite Hheap, <-Htop.
      rewrite fmap_cons. by left. }
    destruct Hg as [g Hg].
    destruct (reconstruct_move_path_chain initial st goal_state_ g fuel p Hinv Hg Hp)
      as (Hrep & Hlen & Hnd).
    split; [done|]. split; [|done].
    pose proof (Hsc _ _ Hg).
    pose proof (valid_keys_count (g_score st)) as Hcount.
    assert (Z.of_nat (size (g_score st)) <= state_count).
    { apply Hcount. intros s x Hx. by destruct (inv_valid _ _ Hinv _ _ Hx). }
    lia.
Qed.

(** X4.  Every g-score is realised by the predecessor links: in every
    iteration, for a state with g-score [g], [reconstruct_move_path]
    run on [came_from] from that state ends within [g] steps, and the
    Path it gives is a legal Path from the initial state to that state,
    of at most [g] moves and through no state twice. *)
Theorem g_score_realised (initial : State) (st : search) (s : State) (g : Z) :
  valid_state initial → loop_state initial st → g_score st !! s = Some g →
  ∃ p, (∀ fuel, (Z.to_nat g ≤ fuel)%nat →
          reconstruct_move_path fuel (came_from st) s = Some p)
       ∧ replay initial p = Some s
       ∧ Z.of_nat (length p) <= g
       ∧ NoDup (trace initial p).
Proof.
  intros Hv Hl Hg. destruct (loop_state_inv initial st Hv Hl) as [Hinv _].
  destruct (reconstruct_loop_chain initial st (Z.to_nat g) s g [] Hinv Hg)
    as (ms & Hms & Hrep & Hlen & Hnd & _); [done|].
  exists (reverse ms). split_and!; [|done|by rewrite length_reverse|done].
  intros fuel Hfuel. unfold reconstruct_move_path.
  by rewrite (reconstruct_loop_mono _ _ _ _ _ _ Hms Hfuel).
Qed.
Lemma g_score_realised_witness :
  let initial := [1; 2; 3; 4; 5; 6; 0; 7; 8] in
  let st := default (seed initial) (loop_iter 1 (seed initial)) in
  let s := [1; 2; 3; 4; 5; 6; 7; 0; 8] in
  valid_state initial
  ∧ loop_state initial st
  ∧ g_score st !! s = Some 1
  ∧ came_from st !! s = Some (initial, (2, 1))
  ∧ reconstruct_move_path 1 (came_from st) s = Some [(2, 1)]
  ∧ ∃ p, (∀ fuel, (Z.to_nat 1 ≤ fuel)%nat →
            reconstruct_move_path fuel (came_from st) s = Some p)
         ∧ replay initial p = Some s
         ∧ Z.of_nat (length p) <= 1
         ∧ NoDup (trace initial p).
Proof.
  intros initial st s.
  assert (Hv : valid_state initial) by valid_by_evaluation.
  assert (Hiter : loop_iter 1 (seed initial) = Some st) by (by vm_compute).
  assert (Hl : loop_state initial st)
    by exact (loop_iter_state initial 1 (seed initial) st (loop_seed initial) Hiter).
  assert (Hg : g_score st !! s = Some 1) by (by vm_compute).
  split; [exact Hv|]. split; [exact Hl|]. split; [exact Hg|].
  split; [by vm_compute|]. split; [by vm_compute|].
  exact (g_score_realised initial st s 1 Hv Hl Hg).
Defined.
(** ** The returned Path *)

(** X5.  The length of a returned Path is at least the heuristic of the
    initial state, differs from it by an even number, and is below 9!,
    the number of valid states. *)
Theorem returned_path_length (initial : State) (fuel : nat) (p : Path) :
  valid_state initial →
  solve_with_a_star fuel initial = Some (Returned (Some p)) →
  heuristic initial <= Z.of_nat (length p) < state_count
  ∧ Z.even (Z.of_nat (length p) - heuristic initial) = true.
Proof.
  intros Hv Hp.
  destruct (returned_path_facts initial fuel p Hv Hp) as (Hrep & Hlen & _).
  pose proof (heuristic_admissible initial p Hrep) as Hadm.
  pose proof (replay_heuristic_parity initial goal_state_ p Hv Hrep) as Hpar.
  change (heuristic goal_state_) with 0 in Hpar. rewrite Z.add_0_r in Hpar.
  split; [lia|].
  replace (Z.of_nat (length p) - heuristic initial)
    with (heuristic initial + Z.of_nat (length p) + (-1) * (2 * heuristic initial)) by lia.
  rewrite Z.even_add, Hpar, Z.even_mul, Z.even_mul. reflexivity.
Qed.

Lemma returned_path_length_witness :
  valid_state [1; 2; 3; 4; 5; 6; 7; 0; 8]
  ∧ solve_with_a_star 1 [1; 2; 3; 4; 5; 6; 7; 0; 8] = Some (Returned (Some [(2, 2)]))
  ∧ heuristic [1; 2; 3; 4; 5; 6; 7; 0; 8] <= 1 < state_count.
Proof.
  assert (Hv : valid_state [1; 2; 3; 4; 5; 6; 7; 0; 8]) by valid_by_evaluation.
  assert (Hs : solve_with_a_star 1 [1; 2; 3; 4; 5; 6; 7; 0; 8]
               = Some (Returned (Some [(2, 2)]))) by (by vm_compute).
  split; [exact Hv|]. split; [exact Hs|].
  exact (proj1 (returned_path_length _ 1 [(2, 2)] Hv Hs)).
Defined.

(** X6.  Every Move of a returned Path names a cell of the 3x3 grid, and
    the Path is the sequence of cells the blank goes through: Move
    number [i] is the cell of the blank after [i] moves. *)
Theorem returned_moves_are_blank_cells (initial : State) (fuel : nat) (p : Path) :
  valid_state initial →
  solve_with_a_star fuel initial = Some (Returned (Some p)) →
  Forall (λ m, 0 <= m.1 < 3 ∧ 0 <= m.2 < 3) p
  ∧ (λ s, cell_of (find_empty s)) <$> tail (trace initial p) = p.
Proof.
  intros Hv Hp.
  destruct (returned_path_facts initial fuel p Hv Hp) as (Hrep & _ & _).
  split; [|by apply (replay_blank_cells initial goal_state_)].
  eapply Forall_impl; [exact (replay_in_grid _ _ _ Hrep)|].
  intros m Hm. unfold in_grid, grid_size_ in Hm. lia.
Qed.

Lemma returned_moves_are_blank_cells_witness :
  valid_state [1; 2; 3; 4; 5; 6; 7; 0; 8]
  ∧ solve_with_a_star 1 [1; 2; 3; 4; 5; 6; 7; 0; 8] = Some (Returned (Some [(2, 2)]))
  ∧ Forall (λ m : Z * Z, 0 <= m.1 < 3 ∧ 0 <= m.2 < 3) [(2, 2)].
Proof.
  assert (Hv : valid_state [1; 2; 3; 4; 5; 6; 7; 0; 8]) by valid_by_evaluation.
  assert (Hs : solve_with_a_star 1 [1; 2; 3; 4; 5; 6; 7; 0; 8]
               = Some (Returned (Some [(2, 2)]))) by (by vm_compute).
  split; [exact Hv|]. split; [exact Hs|].
  exact (proj1 (returned_moves_are_blank_cells _ 1 [(2, 2)] Hv Hs)).
Defined.

(** X7.  A returned Path goes through no state twice: the states from
    the initial one to the goal, one more than there are moves, are
    valid and pairwise different. *)
Theorem returned_path_is_simple (initial : State) (fuel : nat) (p : Path) :
  valid_state initial →
  solve_with_a_star fuel initial = Some (Returned (Some p)) →
  NoDup (trace initial p)
  ∧ length (trace initial p) = S (length p)
  ∧ head (trace initial p) = Some initial
  ∧ last (trace initial p) = Some goal_state_
  ∧ Forall valid_state (trace initial p).
Proof.
  intros Hv Hp.
  destruct (returned_path_facts initial fuel p Hv Hp) as (Hrep & _ & Hnd).
  split; [done|]. split; [by apply (trace_length initial goal_state_)|].
  split; [by rewrite trace_head|]. split; [by apply trace_last|].
  by apply (trace_valid initial goal_state_).
Qed.

Lemma returned_path_is_simple_witness :
  valid_state [1; 2; 3; 4; 5; 6; 7; 0; 8]
  ∧ solve_with_a_star 1 [1; 2; 3; 4; 5; 6; 7; 0; 8] = Some (Returned (Some [(2, 2)]))
  ∧ NoDup (trace [1; 2; 3; 4; 5; 6; 7; 0; 8] [(2, 2)]).
Proof.
  assert (Hv : valid_state [1; 2; 3; 4; 5; 6; 7; 0; 8]) by valid_by_evaluation.
  assert (Hs : solve_with_a_star 1 [1; 2; 3; 4; 5; 6; 7; 0; 8]
               = Some (Returned (Some [(2, 2)]))) by (by vm_compute).
  split; [exact Hv|]. split; [exact Hs|].
  exact (proj1 (returned_path_is_simple _ 1 [(2, 2)] Hv Hs)).
Defined.

(** ** The scores *)

Lemma visit_g_score_le (cur : State) (e : Z) (st st' : search) (move : Move) :
  visit cur e st move = inr st' →
  ∀ s g, g_score st !! s = Some g → ∃ g', g_score st' !! s = Some g' ∧ g' <= g.
Proof.
  unfold visit. intros Hvisit s g Hs.
  assert (Hsame : ∃ g', g_score st !! s = Some g' ∧ g' <= g) by (exists g; split; [done|lia]).
  destruct (_ && _); [|by simplify_eq].
  destruct (array_swap _ _ _) as [n|]; [|done].
  destruct (g_score st !! cur) as [gc|]; [|done].
  assert (Hins : (∀ gn, g_score st !! n = Some gn → gc + 1 < gn) →
            ∃ g', <[n := gc + 1]> (g_score st) !! s = Some g' ∧ g' <= g).
  { intros Hn. rewrite lookup_insert. destruct (decide (n = s)) as [->|Hne]; [|exact Hsame].
    exists (gc + 1). split; [done|]. specialize (Hn g Hs). lia. }
  destruct (g_score st !! n) as [gn|] eqn:Hgn.
  - destruct (Z.ltb_spec (gc + 1) gn) as [Hlt|Hge]; [|by simplify_eq].
    case_decide; simplify_eq; simpl; apply Hins; intros ? [= <-]; lia.
  - case_decide; simplify_eq; simpl; apply Hins; intros ? [=].
Qed.

Lemma expand_g_score_le (cur : State) (e : Z) (st st' : search) (ms : list Move) :
  expand cur e st ms = inr st' →
  ∀ s g, g_score st !! s = Some g → ∃ g', g_score st' !! s = Some g' ∧ g' <= g.
Proof.
  revert st. induction ms as [|move ms IH]; intros st Hexp s g Hs; simpl in Hexp.
  - simplify_eq. exists g. split; [done|lia].
  - destruct (visit cur e st move) as [|st1] eqn:Hv; [done|].
    destruct (visit_g_score_le _ _ _ _ _ Hv s g Hs) as (g1 & Hg1 & Hle1).
    destruct (IH st1 Hexp s g1 Hg1) as (g' & Hg' & Hle').
    exists g'. split; [done|lia].
Qed.

Lemma step_g_score_le (fuel : nat) (st st' : search) :
  step fuel st = Continue st' →
  ∀ s g, g_score st !! s = Some g → ∃ g', g_score st' !! s = Some g' ∧ g' <= g.
Proof.
  unfold step. destruct (open_heap st) as [|top rest]; [done|]. cbv zeta.
  case_decide; [done|].
  destruct (expand _ _ _ _) as [|st2] eqn:Hexp; [done|]. intros [= <-].
  exact (expand_g_score_le _ _ _ _ _ Hexp).
Qed.

(** X8.  Over any number of iterations of the search loop a g-score,
    once recorded, is never erased and never goes up. *)
Theorem g_score_never_increases (k : nat) (st st' : search) (s : State) (g : Z) :
  loop_iter k st = Some st' → g_score st !! s = Some g →
  ∃ g', g_score st' !! s = Some g' ∧ g' <= g.
Proof.
  revert st g. induction k as [|k IH]; intros st g Hiter Hs; simpl in Hiter.
  - simplify_eq. exists g. split; [done|lia].
  - destruct (step 0 st) as [st1|] eqn:Hstep; [|done].
    destruct (step_g_score_le 0 st st1 Hstep s g Hs) as (g1 & Hg1 & Hle1).
    destruct (IH st1 g1 Hiter Hg1) as (g' & Hg' & Hle').
    exists g'. split; [done|lia].
Qed.

Lemma g_score_never_increases_witness :
  let initial := [1; 2; 3; 4; 5; 6; 0; 7; 8] in
  let st' := default (seed initial) (loop_iter 1 (seed initial)) in
  loop_iter 1 (seed initial) = Some st'
  ∧ g_score (seed initial) !! initial = Some 0
  ∧ ∃ g', g_score st' !! initial = Some g' ∧ g' <= 0.
Proof.
  intros initial st'.
  assert (Hiter : loop_iter 1 (seed initial) = Some st') by (by vm_compute).
  assert (Hg : g_score (seed initial) !! initial = Some 0) by (by vm_compute).
  split; [exact Hiter|]. split; [exact Hg|].
  exact (g_score_never_increases 1 _ st' _ 0 Hiter Hg).
Defined.

(** X9.  No [int] overflows: at every iteration, on a valid input, the
    popped f-score, the g-score of the popped state, the tentative
    g-score and the f-score of any neighbour lie in [0, INT_MAX]. *)
Theorem scores_never_overflow (initial : State) (st : search)
    (top : PQElement) (rest : list PQElement) :
  valid_state initial → loop_state initial st → open_heap st = top :: rest →
  0 <= top.1 <= INT_MAX
  ∧ ∃ g_current, g_score st !! top.2 = Some g_current
      ∧ 0 <= g_current ∧ g_current + 1 <= INT_MAX
      ∧ ∀ neighbor_state, valid_state neighbor_state →
          0 <= g_current + 1 + heuristic neighbor_state <= INT_MAX.
Proof.
  intros Hv Hl Hheap.
  destruct (loop_state_inv initial st Hv Hl) as [Hinv _].
  destruct (loop_state_scores initial st Hv Hl) as [Hsc Hf].
  assert (Hin : top ∈ open_heap st) by (rewrite Hheap; by left).
  split.
  { pose proof (Hf top Hin). unfold state_count, INT_MAX in *. lia. }
  destruct (inv_open_g _ _ Hinv top.2) as [g Hg].
  { apply (inv_open _ _ Hinv). by apply list_elem_of_fmap_2. }
  exists g. split; [done|].
  destruct (inv_valid _ _ Hinv _ _ Hg) as [_ Hg0].
  pose proof (Hsc _ _ Hg) as Hlt.
  assert (Z.of_nat (size (g_score st)) <= state_count).
  { apply valid_keys_count. intros s x Hx. by destruct (inv_valid _ _ Hinv _ _ Hx). }
  unfold state_count, INT_MAX in *.
  split; [done|]. split; [lia|]. intros n Hn. pose proof (heuristic_le n Hn). lia.
Qed.

Lemma scores_never_overflow_witness :
  valid_state [1; 2; 3; 4; 5; 6; 7; 0; 8]
  ∧ loop_state [1; 2; 3; 4; 5; 6; 7; 0; 8] (seed [1; 2; 3; 4; 5; 6; 7; 0; 8])
  ∧ 0 <= 1 <= INT_MAX.
Proof.
  assert (Hv : valid_state [1; 2; 3; 4; 5; 6; 7; 0; 8]) by valid_by_evaluation.
  split; [exact Hv|]. split; [apply loop_seed|].
  exact (proj1 (scores_never_overflow _ _ (1, [1; 2; 3; 4; 5; 6; 7; 0; 8]) []
                  Hv (loop_seed _) eq_refl)).
Defined.

(** ** Inputs that are not permutations *)







(** X10.  On an array of nine integers of magnitude at most
    [VALUE_BOUND], permutation or not, [solve_with_a_star] reaches an
    access outside the array exactly when no slot holds 0; it is then
    the first access of the first iteration, [neighbor_state[-1]].  No
    [int] overflows on the way: the heuristic of the input, and with a
    0 in the array every f-score, g-score, tentative g-score and
    heuristic value of every iteration, lie in [0, INT_MAX]. *)
Theorem fault_iff_no_blank (fuel : nat) (initial : State) :
  small_state initial →
  ((∃ f, solve_with_a_star fuel initial = Some (Faulted f)) ↔ 0 ∉ initial)
  ∧ (0 ∉ initial → solve_with_a_star fuel initial = Some (Faulted OutOfBounds))
  ∧ 0 <= heuristic initial <= INT_MAX
  ∧ (0 ∈ initial → ∀ st top rest,
       loop_state initial st → open_heap st = top :: rest →
       0 <= top.1 <= INT_MAX
       ∧ ∃ g_current, g_score st !! top.2 = Some g_current
           ∧ 0 <= g_current ∧ g_current + 1 <= INT_MAX
           ∧ ∀ neighbor_state, neighbor_state ≡ₚ top.2 →
               0 <= heuristic neighbor_state
               ∧ g_current + 1 + heuristic neighbor_state <= INT_MAX).
Proof.
  intros Hs. split; [|split; [|split]].
  - split.
    + intros [f Hf] Hin. apply (solve_blank_no_fault fuel initial f); [|done].
      split; [apply Hs|done].
    + intros Hb. exists OutOfBounds. by apply solve_no_blank_faults.
  - apply solve_no_blank_faults.
  - pose proof (heuristic_small initial Hs) as Hh.
    unfold HEURISTIC_BOUND, VALUE_BOUND, INT_MAX in *. lia.
  - intros Hb st top rest Hl Hheap. by apply (wide_scores_fit_int initial st top rest).
Qed.
Lemma fault_iff_no_blank_witness :
  small_state [1; 1; 2; 2; 3; 3; 4; 4; 5]
  ∧ solve_with_a_star 0 [1; 1; 2; 2; 3; 3; 4; 4; 5] = Some (Faulted OutOfBounds)
  ∧ 0 <= heuristic [1; 1; 2; 2; 3; 3; 4; 4; 5] <= INT_MAX.
Proof.
  assert (Hs : small_state [1; 1; 2; 2; 3; 3; 4; 4; 5])
    by (unfold small_state; valid_by_evaluation).
  assert (Hb : 0 ∉ [1; 1; 2; 2; 3; 3; 4; 4; 5]) by valid_by_evaluation.
  split; [exact Hs|].
  destruct (fault_iff_no_blank 0 _ Hs) as (_ & Hfault & Hh & _).
  split; [exact (Hfault Hb)|exact Hh].
Defined.
(** X11.  The adapter checks the count, not the contents: on integers
    of magnitude at most [VALUE_BOUND] the call reaches the
    out-of-bounds access of the solver exactly when they are nine and
    none of them is 0. *)
Theorem binding_fault_iff_no_blank (fuel : nat) (state_list : list Z) :
  Forall (λ x, - VALUE_BOUND <= x <= VALUE_BOUND) state_list →
  (∃ f, binding_solve fuel state_list = Passed (Some (Faulted f)))
  ↔ length state_list = 9%nat ∧ 0 ∉ state_list.
Proof.
  intros Hall.
  unfold binding_solve. destruct (decide (length state_list ≠ 9%nat)) as [Hlen|Hlen].
  - split; [by intros [f ?]|]. by intros [? _].
  - apply dec_stable in Hlen. rewrite firstn_all2 by lia.
    split.
    + intros [f Hf]. split; [done|]. intros Hin.
      apply (solve_blank_no_fault fuel state_list f); [done|congruence].
    + intros [_ Hb]. exists OutOfBounds. by rewrite solve_no_blank_faults.
Qed.

Lemma binding_fault_iff_no_blank_witness :
  Forall (λ x, - VALUE_BOUND <= x <= VALUE_BOUND) [1; 2; 3; 4; 5; 6; 7; 8; 9]
  ∧ ∃ f, binding_solve 0 [1; 2; 3; 4; 5; 6; 7; 8; 9] = Passed (Some (Faulted f)).
Proof.
  assert (Hall : Forall (λ x, - VALUE_BOUND <= x <= VALUE_BOUND) [1; 2; 3; 4; 5; 6; 7; 8; 9])
    by valid_by_evaluation.
  assert (Hb : 0 ∉ [1; 2; 3; 4; 5; 6; 7; 8; 9]) by valid_by_evaluation.
  split; [exact Hall|].
  exact (proj2 (binding_fault_iff_no_blank 0 _ Hall) (conj eq_refl Hb)).
Defined.
(** ** The adapter on a valid state *)

(** X12.  On a valid state the adapter returns, with the solver's
    result: a Path that leads to the goal when the state is in the
    even class, absent when it is in the odd one. *)
Theorem binding_solves_valid_puzzle (state_list : list Z) :
  valid_state state_list →
  ∃ (fuel0 : nat) (r : option Path),
    (∀ fuel, (fuel0 ≤ fuel)%nat →
       binding_solve fuel state_list = Passed (Some (Returned r)))
    ∧ if even_parity state_list
      then ∃ p, r = Some p ∧ replay state_list p = Some goal_state_
      else r = None.
Proof.
  intros Hv. pose proof (valid_length _ Hv) as Hlen.
  destruct (solve_terminates_sound state_list Hv) as (fuel0 & r & Hrun & Hr).
  exists fuel0, r. split.
  - intros fuel Hfuel. unfold binding_solve. rewrite decide_False by (intros H; by apply H).
    rewrite firstn_all2 by lia. by rewrite (Hrun fuel Hfuel).
  - destruct (even_parity state_list) eqn:Hpar.
    + destruct r as [p|]; [by exists p|]. by destruct Hr; apply even_solvable.
    + destruct r as [p|]; [|done].
      assert (even_parity state_list = true) by (apply solvable_even; [done|by exists p]).
      congruence.
Qed.

Lemma binding_solves_valid_puzzle_witness :
  valid_state [1; 2; 3; 4; 5; 6; 8; 7; 0]
  ∧ ∃ (fuel0 : nat) (r : option Path),
      ∀ fuel, (fuel0 ≤ fuel)%nat →
        binding_solve fuel [1; 2; 3; 4; 5; 6; 8; 7; 0] = Passed (Some (Returned r)).
Proof.
  assert (Hv : valid_state [1; 2; 3; 4; 5; 6; 8; 7; 0]) by valid_by_evaluation.
  split; [exact Hv|].
  destruct (binding_solves_valid_puzzle _ Hv) as (fuel0 & r & Hrun & _).
  exists fuel0, r. exact Hrun.
Defined.

(** ** Strings *)

Lemma append_cons (c : ascii) (a b : string) : String c a +:+ b = String c (a +:+ b).
Proof. reflexivity. Qed.

Lemma append_nil_l (a : string) : EmptyString +:+ a = a.
Proof. reflexivity. Qed.

Lemma append_assoc (a b c : string) : (a +:+ b) +:+ c = a +:+ (b +:+ c).
Proof. induction a as [|x a IH]; [done|]. rewrite !append_cons. by f_equal. Qed.

Lemma append_nil_r (a : string) : a +:+ EmptyString = a.
Proof. induction a as [|x a IH]; [done|]. rewrite append_cons. by f_equal. Qed.

(** ** Decimal numerals *)

Lemma is_nat_pretty_N_char (d : N) :
  (d < 10)%N → Ascii.is_nat (pretty_N_char d) = Some (N.to_nat d).
Proof.
  intros Hd.
  assert (H : (d = 0 ∨ d = 1 ∨ d = 2 ∨ d = 3 ∨ d = 4 ∨ d = 5 ∨ d = 6 ∨ d = 7 ∨ d = 8
               ∨ d = 9)%N) by lia.
  destruct_or!; subst; reflexivity.
Qed.

Lemma pretty_N_go_app (x : N) (s t : string) :
  pretty_N_go x s +:+ t = pretty_N_go x (s +:+ t).
Proof.
  revert s. induction (N.lt_wf_0 x) as [x _ IH]; intros s.
  destruct (decide (0 < x)%N) as [Hx|Hx].
  - rewrite (pretty_N_go_step x s), (pretty_N_go_step x (s +:+ t)) by done.
    rewrite IH; [reflexivity|]. by apply N.div_lt.
  - replace x with 0%N by lia. by rewrite !pretty_N_go_0.
Qed.

Lemma read_digits_pretty_N_go (x : N) (s : string) :
  (0 < x)%N → read_digits (pretty_N_go x s) None = read_digits s (Some (Z.of_N x)).
Proof.
  revert s. induction (N.lt_wf_0 x) as [x _ IH]; intros s Hx.
  rewrite pretty_N_go_step by done.
  assert (Hd : (x `mod` 10 < 10)%N) by (apply N.mod_lt; lia).
  assert (Hx10 : Z.of_N x = Z.of_N (x `div` 10) * 10 + Z.of_nat (N.to_nat (x `mod` 10))).
  { pose proof (N.div_mod x 10). lia. }
  destruct (decide (0 < x `div` 10)%N) as [Hq|Hq].
  - rewrite IH by (by try apply N.div_lt). simpl.
    rewrite is_nat_pretty_N_char by done. by rewrite Hx10.
  - apply N.nlt_ge, N.le_0_r in Hq. rewrite Hq in *. rewrite pretty_N_go_0. simpl.
    rewrite is_nat_pretty_N_char by done. by rewrite Hx10.
Qed.

Lemma read_digits_done (s : string) (n : Z) :
  no_digit_ahead s → read_digits s (Some n) = Some n.
Proof. destruct s as [|c s]; simpl; [done|]. by intros ->. Qed.

(** The numeral of a positive number starts with a digit. *)
Lemma pretty_N_go_head (x : N) (s : string) :
  (0 < x)%N → ∃ d s', (d < 10)%N ∧ pretty_N_go x s = String (pretty_N_char d) s'.
Proof.
  revert s. induction (N.lt_wf_0 x) as [x _ IH]; intros s Hx.
  rewrite pretty_N_go_step by done.
  destruct (decide (0 < x `div` 10)%N) as [Hq|Hq].
  - apply IH; [by apply N.div_lt|done].
  - apply N.nlt_ge, N.le_0_r in Hq. rewrite Hq, pretty_N_go_0.
    exists (x `mod` 10)%N, s. split; [apply N.mod_lt; lia|done].
Qed.

Lemma pretty_Z_pos (p : positive) : pretty (Z.pos p) = pretty_N_go (N.pos p) EmptyString.
Proof. reflexivity. Qed.

Lemma pretty_Z_neg (p : positive) :
  pretty (Z.neg p) = String "-"%char (pretty_N_go (N.pos p) EmptyString).
Proof. reflexivity. Qed.

(** Reading back a printed [int]: whatever follows it, short of a digit. *)
Lemma read_int_pretty (z : Z) (t : string) :
  no_digit_ahead t → read_int (pretty z +:+ t) = Some z.
Proof.
  intros Ht. destruct z as [|p|p].
  - change (pretty 0) with "0". unfold read_int. simpl. by rewrite read_digits_done.
  - rewrite pretty_Z_pos, pretty_N_go_app, append_nil_l.
    pose proof (read_digits_pretty_N_go (N.pos p) t ltac:(lia)) as Hr.
    rewrite read_digits_done in Hr by done. change (Z.of_N (N.pos p)) with (Z.pos p) in Hr.
    destruct (pretty_N_go_head (N.pos p) t) as (d & s' & Hd & Hs); [lia|].
    rewrite Hs in *. unfold read_int.
    assert (H : (d = 0 ∨ d = 1 ∨ d = 2 ∨ d = 3 ∨ d = 4 ∨ d = 5 ∨ d = 6 ∨ d = 7 ∨ d = 8
                 ∨ d = 9)%N) by lia.
    destruct_or!; subst; simpl in *; by rewrite Hr.
  - rewrite pretty_Z_neg, append_cons, pretty_N_go_app, append_nil_l.
    unfold read_int. cbn [fst snd]. rewrite read_digits_pretty_N_go by lia.
    by rewrite read_digits_done.
Qed.

Lemma pretty_no_space (z : Z) (t : string) :
  skip_space (pretty z +:+ t) = pretty z +:+ t.
Proof.
  destruct z as [|p|p].
  - reflexivity.
  - rewrite pretty_Z_pos, pretty_N_go_app, append_nil_l.
    destruct (pretty_N_go_head (N.pos p) t) as (d & s' & Hd & ->); [lia|].
    assert (H : (d = 0 ∨ d = 1 ∨ d = 2 ∨ d = 3 ∨ d = 4 ∨ d = 5 ∨ d = 6 ∨ d = 7 ∨ d = 8
                 ∨ d = 9)%N) by lia.
    destruct_or!; subst; reflexivity.
  - reflexivity.
Qed.

Lemma skip_space_app (ws s : string) :
  skip_space ws = EmptyString → skip_space (ws +:+ s) = skip_space s.
Proof.
  induction ws as [|c ws IH]; simpl; [done|].
  destruct (Ascii.is_space c); [done|discriminate].
Qed.

Lemma stoi_reads_decimal (z : Z) (ws t : string) :
  skip_space ws = EmptyString → no_digit_ahead t →
  stoi (ws +:+ pretty z +:+ t)
  = if (INT_MIN <=? z) && (z <=? INT_MAX) then inr z else inl out_of_range.
Proof.
  intros Hws Ht. unfold stoi.
  by rewrite skip_space_app, pretty_no_space, read_int_pretty by done.
Qed.

(** Numerals are self-delimiting. *)
Lemma pretty_delimited (z1 z2 : Z) (t1 t2 : string) :
  no_digit_ahead t1 → no_digit_ahead t2 →
  pretty z1 +:+ t1 = pretty z2 +:+ t2 → z1 = z2 ∧ t1 = t2.
Proof.
  intros H1 H2 Heq.
  assert (z1 = z2) as ->.
  { pose proof (read_int_pretty z1 t1 H1) as Hr. rewrite Heq, read_int_pretty in Hr by done.
    by injection Hr. }
  split; [done|]. by apply (inj (String.app (pretty z2))).
Qed.

(** ** [print_path] *)

Lemma print_moves_concat (size i : nat) (rest : Path) :
  (i + length rest = size)%nat →
  print_moves size i rest = String.concat ", " (show_move <$> rest).
Proof.
  revert i. induction rest as [|m rest IH]; intros i Hlen; [done|].
  cbn [print_moves]. rewrite (IH (S i)) by (simpl in Hlen; lia).
  rewrite decide_False by (simpl in Hlen; lia). cbv zeta.
  destruct rest as [|m' rest].
  - assert ((Z.of_nat i <? Z.of_nat size - 1) = false) as ->
      by (apply Z.ltb_ge; simpl in Hlen; lia).
    cbn [fmap list_fmap String.concat]. by rewrite append_nil_l, append_nil_r.
  - assert ((Z.of_nat i <? Z.of_nat size - 1) = true) as ->
      by (apply Z.ltb_lt; simpl in Hlen; lia).
    reflexivity.
Qed.

(** X13.  [print_path] writes the title line, then the moves as
    [(row, col)] between brackets with [", "] between two moves and
    none after the last, then a line end; the empty Path gives [[]]. *)
Theorem print_path_format (path : Path) :
  print_path path
  = "Solution Path (list of moves (row, col)):" +:+ endl
    +:+ "[" +:+ String.concat ", " (show_move <$> path) +:+ "]" +:+ endl.
Proof. unfold print_path. by rewrite print_moves_concat. Qed.

Lemma show_move_delimited (m1 m2 : Move) (t1 t2 : string) :
  show_move m1 +:+ t1 = show_move m2 +:+ t2 → m1 = m2 ∧ t1 = t2.
Proof.
  destruct m1 as [r1 c1], m2 as [r2 c2]. unfold show_move. cbn [fst snd].
  rewrite !append_assoc. rewrite !append_cons, !append_nil_l. intros [= H].
  apply pretty_delimited in H as [-> H]; [|done..].
  injection H as H.
  apply pretty_delimited in H as [-> H]; [|done..].
  by injection H as ->.
Qed.

Lemma concat_cons (m : Move) (rest : Path) :
  String.concat ", " (show_move <$> m :: rest)
  = show_move m +:+ match rest with
                    | [] => EmptyString
                    | _ => ", " +:+ String.concat ", " (show_move <$> rest)
                    end.
Proof. destruct rest; [by rewrite append_nil_r|done]. Qed.

Lemma show_move_head (m : Move) (t : string) :
  ∃ t', show_move m +:+ t = String "("%char t'.
Proof. unfold show_move. rewrite !append_assoc, append_cons. eauto. Qed.

Lemma concat_delimited (p q : Path) (t : string) :
  String.concat ", " (show_move <$> p) +:+ String "]"%char t
  = String.concat ", " (show_move <$> q) +:+ String "]"%char t →
  p = q.
Proof.
  revert q. induction p as [|m p IH]; intros [|m' q] H.
  - done.
  - rewrite concat_cons, append_assoc in H.
    destruct (show_move_head m' (match q with
                                 | [] => EmptyString
                                 | _ => ", " +:+ String.concat ", " (show_move <$> q)
                                 end +:+ String "]"%char t)) as [t' Ht'].
    rewrite Ht' in H. discriminate H.
  - rewrite concat_cons, append_assoc in H.
    destruct (show_move_head m (match p with
                                | [] => EmptyString
                                | _ => ", " +:+ String.concat ", " (show_move <$> p)
                                end +:+ String "]"%char t)) as [t' Ht'].
    rewrite Ht' in H. discriminate H.
  - rewrite !concat_cons, !append_assoc in H.
    apply show_move_delimited in H as [-> H]. f_equal.
    destruct p as [|m1 p], q as [|m2 q].
    + done.
    + rewrite append_nil_l, append_assoc in H. discriminate H.
    + rewrite append_nil_l, append_assoc in H. discriminate H.
    + apply IH. rewrite !append_assoc in H. by injection H.
Qed.

(** X14.  What [print_path] writes determines the Path: two Paths
    printed alike are equal. *)
Theorem print_path_inj (p q : Path) : print_path p = print_path q → p = q.
Proof.
  unfold print_path. rewrite !print_moves_concat by done. intros H.
  apply (inj (String.app _)), (inj (String.app _)), (inj (String.app _)) in H.
  by apply concat_delimited in H.
Qed.

Lemma print_path_inj_witness :
  print_path [(2, 1); (2, 2)] = print_path [(2, 1); (2, 2)]
  ∧ [(2, 1); (2, 2)] = [(2, 1); (2, 2) : Z * Z].
Proof.
  split; [reflexivity|]. exact (print_path_inj [(2, 1); (2, 2)] [(2, 1); (2, 2)] eq_refl).
Defined.

(** ** [main] *)

Lemma read_tiles_length (args : list string) (s : State) :
  read_tiles args = inr s → length s = length args.
Proof.
  revert s. induction args as [|a args IH]; intros s; simpl.
  - by intros [= <-].
  - destruct (stoi a); [done|]. destruct (read_tiles args); [done|].
    intros [= <-]. simpl. f_equal. by apply IH.
Qed.

Lemma read_tiles_inl (args : list string) :
  (∃ e, read_tiles args = inl e) ↔ ∃ a e, a ∈ args ∧ stoi a = inl e.
Proof.
  induction args as [|a args IH]; simpl.
  - split; [by intros [e ?]|]. intros (a & e & Ha & _). by apply elem_of_nil in Ha.
  - destruct (stoi a) as [e|v] eqn:Ha.
    + split; [|by eauto]. intros _. exists a, e. split; [by left|done].
    + destruct (read_tiles args) as [e|vs].
      * split; [|by eauto]. intros _. destruct (proj1 IH) as (a' & e' & Hin & He); [by eauto|].
        exists a', e'. split; [by right|done].
      * split; [by intros [e ?]|]. intros (a' & e' & Hin & He).
        apply elem_of_cons in Hin as [->|Hin]; [congruence|].
        destruct (proj2 IH) as [e'' ?]; [by eauto|done].
Qed.

Lemma stoi_range (a : string) (v : Z) : stoi a = inr v → INT_MIN <= v <= INT_MAX.
Proof.
  unfold stoi. destruct (read_int _) as [n|]; [|done].
  destruct ((INT_MIN <=? n) && (n <=? INT_MAX)) eqn:H; [|done]. intros [= <-]. lia.
Qed.

(** X15.  [main] reads back integers as they are printed, also with
    white space before each and anything but a digit after it: the
    tiles are the integers if every one fits an [int]; if not,
    [std::stoi] throws [std::out_of_range]. *)
Theorem main_reads_printed_tiles (s : State) (ws t : string) :
  skip_space ws = EmptyString → no_digit_ahead t →
  read_tiles ((λ z, ws +:+ pretty z +:+ t) <$> s)
  = if forallb (λ z, (INT_MIN <=? z) && (z <=? INT_MAX)) s then inr s else inl out_of_range.
Proof.
  intros Hws Ht. induction s as [|z s IH]; [done|].
  rewrite fmap_cons. cbn [read_tiles forallb].
  rewrite stoi_reads_decimal by done.
  destruct ((INT_MIN <=? z) && (z <=? INT_MAX)); [|done].
  rewrite IH. by destruct (forallb _ s).
Qed.

Lemma main_reads_printed_tiles_witness :
  skip_space " " = EmptyString ∧ no_digit_ahead "x"
  ∧ read_tiles [" 1x"; " 2x"; " 3x"; " 4x"; " 5x"; " 6x"; " 7x"; " 0x"; " 8x"]
    = inr [1; 2; 3; 4; 5; 6; 7; 0; 8].
Proof.
  split; [reflexivity|]. split; [reflexivity|].
  exact (main_reads_printed_tiles [1; 2; 3; 4; 5; 6; 7; 0; 8] " " "x" eq_refl eq_refl).
Defined.

(** X16.  [main] returns 1, with nothing on [std::cout] and a message on
    [std::cerr], exactly when the arguments are not nine or one of
    them is refused by [std::stoi]; when it returns otherwise the
    status is 0 and [std::cerr] is empty; no exception leaves it. *)
Theorem main_exit_status (fuel : nat) (prog : string) (args : list string) :
  ((length args ≠ 9%nat ∨ ∃ a e, a ∈ args ∧ stoi a = inl e)
   ↔ ∃ err, main fuel prog args = Some (Exit 1 EmptyString err))
  ∧ (∀ status out err, main fuel prog args = Some (Exit status out err) →
       (status = 1 ∧ out = EmptyString ∧ err ≠ EmptyString)
       ∨ (status = 0 ∧ out ≠ EmptyString ∧ err = EmptyString))
  ∧ main fuel prog args ≠ Some Terminated.
Proof.
  rewrite <-read_tiles_inl. unfold main.
  destruct (decide (S (length args) ≠ 10%nat)) as [Hlen|Hlen].
  { split; [|split]; [| |done].
    - split; [by eauto|]. intros _. left. lia.
    - intros ? ? ? [= <- <- <-]. left. done. }
  destruct (read_tiles args) as [e|s] eqn:Hs.
  { split; [|split]; [| |done].
    - split; [by eauto|]. intros _. right. by eauto.
    - intros ? ? ? [= <- <- <-]. left. done. }
  pose proof (solve_no_out_of_range fuel s) as Hno.
  destruct (solve_with_a_star fuel s) as [[[p|]|[]]|]; try done.
  all: split; [|split]; [| |done].
  all: try (split; [intros [?|[? ?]]; [lia|done]|by intros [? ?]]).
  all: try (intros ? ? ? [= <- <- <-]; right; done).
  all: done.
Qed.

(** X17.  On nine arguments that read as a valid state, [main] returns
    0: for a state of the even class it prints the number of moves and
    a Path that leads to the goal, for one of the odd class that no
    solution could be found. *)
Theorem main_solves_valid_puzzle (prog : string) (args : list string) (s : State) :
  read_tiles args = inr s → valid_state s →
  ∃ (fuel0 : nat) (out : string),
    (∀ fuel, (fuel0 ≤ fuel)%nat → main fuel prog args = Some (Exit 0 out EmptyString))
    ∧ if even_parity s
      then ∃ p, replay s p = Some goal_state_
             ∧ out = "Solving puzzle..." +:+ endl
                     +:+ "Solution found in " +:+ pretty (length p) +:+ " moves." +:+ endl
                     +:+ print_path p
      else out = "Solving puzzle..." +:+ endl
                 +:+ "No solution could be found for the given puzzle." +:+ endl.
Proof.
  intros Hargs Hv.
  pose proof (read_tiles_length args s Hargs) as Hlen.
  rewrite (valid_length s Hv) in Hlen.
  destruct (solve_terminates_sound s Hv) as (fuel0 & r & Hrun & Hr).
  assert (Hmain : ∀ fuel, (fuel0 ≤ fuel)%nat →
            main fuel prog args
            = Some (match r with
                    | Some p =>
                        Exit 0 (("Solving puzzle..." +:+ endl)
                                +:+ "Solution found in " +:+ pretty (length p)
                                +:+ " moves." +:+ endl +:+ print_path p) EmptyString
                    | None =>
                        Exit 0 (("Solving puzzle..." +:+ endl)
                                +:+ "No solution could be found for the given puzzle."
                                +:+ endl) EmptyString
                    end)).
  { intros fuel Hfuel. unfold main. rewrite decide_False by lia.
    rewrite Hargs, (Hrun fuel Hfuel). by destruct r. }
  destruct (even_parity s) eqn:Hpar.
  - destruct r as [p|]; [|by destruct Hr; apply even_solvable].
    eexists fuel0, _. split; [exact Hmain|]. exists p. split; [done|reflexivity].
  - destruct r as [p|].
    + assert (even_parity s = true) by (apply solvable_even; [done|by exists p]). congruence.
    + eexists fuel0, _. split; [exact Hmain|]. reflexivity.
Qed.

Lemma main_solves_valid_puzzle_witness :
  read_tiles ["1"; "2"; "3"; "4"; "5"; "6"; "7"; "0"; "8"] = inr [1; 2; 3; 4; 5; 6; 7; 0; 8]
  ∧ valid_state [1; 2; 3; 4; 5; 6; 7; 0; 8]
  ∧ ∃ (fuel0 : nat) (out : string),
      ∀ fuel, (fuel0 ≤ fuel)%nat →
        main fuel "solver" ["1"; "2"; "3"; "4"; "5"; "6"; "7"; "0"; "8"]
        = Some (Exit 0 out EmptyString).
Proof.
  assert (Hr : read_tiles ["1"; "2"; "3"; "4"; "5"; "6"; "7"; "0"; "8"]
               = inr [1; 2; 3; 4; 5; 6; 7; 0; 8]) by (by vm_compute).
  assert (Hv : valid_state [1; 2; 3; 4; 5; 6; 7; 0; 8]) by valid_by_evaluation.
  split; [exact Hr|]. split; [exact Hv|].
  destruct (main_solves_valid_puzzle "solver" _ _ Hr Hv) as (fuel0 & out & Hrun & _).
  exists fuel0, out. exact Hrun.
Defined.

(** X18.  [main] checks that its arguments are integers, not which: on
    nine arguments that read as integers of magnitude at most
    [VALUE_BOUND] it runs into the out-of-bounds access of the solver
    exactly when none of them is 0, and returns 0 when one of them
    is. *)
Theorem main_undefined_iff_no_blank (fuel : nat) (prog : string) (args : list string)
    (s : State) :
  length args = 9%nat → read_tiles args = inr s →
  Forall (λ x, - VALUE_BOUND <= x <= VALUE_BOUND) s →
  (main fuel prog args = Some Undefined ↔ 0 ∉ s)
  ∧ (0 ∈ s → ∃ (fuel0 : nat) (out : string),
       ∀ fuel', (fuel0 ≤ fuel')%nat → main fuel' prog args = Some (Exit 0 out EmptyString)).
Proof.
  intros Hlen Hargs Hall.
  pose proof (read_tiles_length args s Hargs) as Hlen'.
  assert (Hs : small_state s) by (split; [lia|done]).
  split.
  - unfold main. rewrite decide_False by lia. rewrite Hargs. split.
    + intros Hm Hin.
      pose proof (solve_blank_no_fault fuel s OutOfBounds) as Hno.
      destruct (solve_with_a_star fuel s) as [[[p|]|[]]|]; try done.
      apply Hno; [|done]. split; [lia|done].
    + intros Hb. by rewrite solve_no_blank_faults.
  - intros Hb. destruct (solve_blank_returns s Hs Hb) as (fuel0 & r & Hrun & _).
    exists fuel0. destruct r as [p|]; eexists; intros fuel' Hfuel; unfold main;
      rewrite decide_False by lia; rewrite Hargs, (Hrun fuel' Hfuel); reflexivity.
Qed.
Lemma main_undefined_iff_no_blank_witness :
  length ["9"; "8"; "7"; "6"; "5"; "4"; "3"; "2"; "1"] = 9%nat
  ∧ read_tiles ["9"; "8"; "7"; "6"; "5"; "4"; "3"; "2"; "1"]
    = inr [9; 8; 7; 6; 5; 4; 3; 2; 1]
  ∧ Forall (λ x, - VALUE_BOUND <= x <= VALUE_BOUND) [9; 8; 7; 6; 5; 4; 3; 2; 1]
  ∧ main 0 "solver" ["9"; "8"; "7"; "6"; "5"; "4"; "3"; "2"; "1"] = Some Undefined.
Proof.
  assert (Hr : read_tiles ["9"; "8"; "7"; "6"; "5"; "4"; "3"; "2"; "1"]
               = inr [9; 8; 7; 6; 5; 4; 3; 2; 1]) by (by vm_compute).
  assert (Hall : Forall (λ x, - VALUE_BOUND <= x <= VALUE_BOUND) [9; 8; 7; 6; 5; 4; 3; 2; 1])
    by valid_by_evaluation.
  split; [reflexivity|]. split; [exact Hr|]. split; [exact Hall|].
  apply (proj1 (main_undefined_iff_no_blank 0 "solver"
                  ["9"; "8"; "7"; "6"; "5"; "4"; "3"; "2"; "1"] _ eq_refl Hr Hall)).
  valid_by_evaluation.
Defined.